(** * Crossword dictionary index and slot extraction

    A shallow embedding of [dictionary.cpp] (namespace [utils], class
    [Dictionary]) and of [crossword.cpp] (class [crossword]), with the
    properties of the pattern index, of the text normaliser, of the edit
    distance and of slot extraction.

    Conventions.
    - A [char] is a [Byte.byte]; [u8 c] is the cast [uint8_t(c)], and
      [char_of z] is the conversion of an [int] back to [char] (modulo 256).
    - A [std::string] is a [list byte]; a [std::vector<T>] is a [list T].
    - [std::map] and [std::unordered_map] are [gmap]s.
    - A [uint16_t] identifier is a [Z], its truncation is written [u16].
    - An out-of-range access is undefined behaviour in C++; the embedding
      makes it explicit as the outcome [Undefined].

    Part I holds the embedding, Part II the lemmas and theorems. *)

From Stdlib Require Import ZArith Lia List Bool.
From Stdlib Require Import Strings.Byte Strings.String.
From stdpp Require Import base option list gmap fin_maps.

Local Open Scope Z_scope.

(** * Part I: the embedding *)

(** ** Characters, strings, integers *)

Definition u8 (c : byte) : Z := Z.of_N (Byte.to_N c).

Definition char_of (z : Z) : byte :=
  match Byte.of_N (Z.to_N (z mod 256)) with
  | Some b => b
  | None => x00
  end.

Definition u16 (z : Z) : Z := z mod 65536.

(** A string literal of the source, as bytes. *)
Definition lit (s : string) : list byte := list_byte_of_string s.

Global Instance byte_eq_dec : EqDecision byte := Byte.byte_eq_dec.

Global Instance byte_countable : Countable byte :=
  inj_countable Byte.to_N Byte.of_N Byte.of_to_N.

(** ** Outcomes: a value, a thrown exception, or undefined behaviour *)

Inductive outcome (A : Type) : Type :=
  | Ok (a : A)
  | Throw (what : string)
  | Undefined.
Arguments Ok {A} a.
Arguments Throw {A} what.
Arguments Undefined {A}.

Global Instance outcome_ret : MRet outcome := fun A a => Ok a.

Global Instance outcome_bind : MBind outcome := fun A B f m =>
  match m with
  | Ok a => f a
  | Throw e => Throw e
  | Undefined => Undefined
  end.

Definition of_option {A} (o : option A) : outcome A :=
  match o with
  | Some a => Ok a
  | None => Undefined
  end.

(** ** Constants of [dictionary.hpp]

    The header itself is not available: its three constants are parameters
    of the embedding.  [CYRILLIC_A] is only ever compared with
    [uint8_t] values after integer promotion, hence an integer;
    [LONGEST_WORD] is the number of elements of the array [_fastSearch]
    (the bound of the loops of [reset] and [shuffle]). *)

Class Header := {
  CYRILLIC_A : Z;
  ANY_CHAR : byte;
  LONGEST_WORD : nat
}.

(** ** The text normaliser *)

(** [char Dictionary::toupper(char c)] *)
Definition toupper_char `{Header} (c : byte) : byte :=
  if CYRILLIC_A <=? u8 c then char_of (u8 c - 32) else c.

(** [std::string Dictionary::toupper(std::string capsWord)] *)
Definition toupper `{Header} (capsWord : list byte) : list byte :=
  map toupper_char capsWord.

(** [bool Dictionary::isalpha(char c)] *)
Definition isalpha `{Header} (c : byte) : bool := CYRILLIC_A - 32 <=? u8 c.

(** The body of the loop of [dosToWinCode], on one character. *)
Definition dosToWinCode_char `{Header} (c : byte) : byte :=
  if (CYRILLIC_A - 96 <=? u8 c) && (u8 c <? CYRILLIC_A - 32)
  then char_of (u8 c + 64) else c.

(** [std::string Dictionary::dosToWinCode(std::string winWord)] *)
Definition dosToWinCode `{Header} (winWord : list byte) : list byte :=
  map dosToWinCode_char winWord.

(** [std::string Dictionary::cleanString(const std::string& dirtyString)] *)
Fixpoint cleanString `{Header} (dirtyString : list byte) : list byte :=
  match dirtyString with
  | [] => []
  | c :: rest => if isalpha c then c :: cleanString rest else cleanString rest
  end.

(** The key under which [loadDictionary] files a raw word:
    [toupper(cleanString(dosToWinCode(raw)))]. *)
Definition canonical `{Header} (raw : list byte) : list byte :=
  toupper (cleanString (dosToWinCode raw)).

(** ** The edit distance *)

Definition dp_get (dp : list (list Z)) (i j : nat) : Z :=
  default 0 (dp !! i ≫= fun row => row !! j).

Definition dp_set (dp : list (list Z)) (i j : nat) (v : Z) : list (list Z) :=
  alter (fun row => <[j := v]> row) i dp.

(** The body of the inner loop of [levenstein]. *)
Definition levenstein_cell (a b : list byte) (dp : list (list Z)) (i j : nat)
  : list (list Z) :=
  if (Nat.min i j =? 0)%nat then dp_set dp i j 0
  else
    let dp := dp_set dp i j
                (Z.min (dp_get dp (i - 1) j + 1) (dp_get dp i (j - 1) + 1)) in
    dp_set dp i j
      (Z.min (dp_get dp i j)
             (dp_get dp (i - 1) (j - 1)
              + (if decide (a !! (i - 1)%nat ≠ b !! (j - 1)%nat) then 1 else 0))).

(** [int Dictionary::levenstein(std::string a, std::string b)] *)
Definition levenstein (a b : list byte) : Z :=
  let dp := replicate (S (length a)) (replicate (S (length b)) 0) in
  let dp :=
    foldl (fun dp i =>
             foldl (fun dp j => levenstein_cell a b dp i j)
                   dp (seq 0 (S (length b))))
          dp (seq 0 (S (length a))) in
  dp_get dp (length a) (length b).

(** The classic Levenshtein distance, following the words of the
    specification: insertion, deletion and substitution cost 1 each, and the
    distance to the empty string is the length. *)
Fixpoint edit_distance_spec (a : list byte) : list byte -> nat :=
  fix against (b : list byte) : nat :=
    match a, b with
    | [], _ => length b
    | _, [] => length a
    | x :: a', y :: b' =>
        Nat.min (Nat.min (edit_distance_spec a' b + 1) (against b' + 1))
                (edit_distance_spec a' b' + (if decide (x = y) then 0 else 1))
    end.

(** ** The dictionary object *)

Record Dictionary := {
  _iniPropertyTree : gmap (list byte) (list byte);
  _dictionaryFilePath : list byte;
  _allWords : list (list byte);
  _dirtyDict : gmap (list byte) (list byte);
  _explanationDict : gmap (list byte) (list byte);
  (** pattern ↦ the heap vector owned by the cache *)
  _cacheSearchMap : gmap (list byte) (list Z);
  (** an array of [LONGEST_WORD] tables, key ↦ bucket of identifiers *)
  _fastSearch : list (gmap Z (list Z))
}.

Definition with_tables (d : Dictionary)
  (cache : gmap (list byte) (list Z)) (fast : list (gmap Z (list Z)))
  : Dictionary :=
  {| _iniPropertyTree := _iniPropertyTree d;
     _dictionaryFilePath := _dictionaryFilePath d;
     _allWords := _allWords d;
     _dirtyDict := _dirtyDict d;
     _explanationDict := _explanationDict d;
     _cacheSearchMap := cache;
     _fastSearch := fast |}.

Definition DEFAULT_DICTIONARY_PATH : list byte := lit "z:/cross/bigdict.txt".
Definition DEFAULT_CONFIG_PATH : list byte := lit "z:/cross/config/config.ini".

(** A freshly constructed object: empty containers, an array of
    [LONGEST_WORD] empty tables. *)
Definition empty_dictionary `{Header}
  (tree : gmap (list byte) (list byte)) (path : list byte) : Dictionary :=
  {| _iniPropertyTree := tree;
     _dictionaryFilePath := path;
     _allWords := [];
     _dirtyDict := ∅;
     _explanationDict := ∅;
     _cacheSearchMap := ∅;
     _fastSearch := replicate LONGEST_WORD ∅ |}.

(** [void Dictionary::reset()] *)
Definition reset `{Header} (d : Dictionary) : Dictionary :=
  empty_dictionary (_iniPropertyTree d) (_dictionaryFilePath d).

(** ** Key packing *)

(** [word[i]], read where [i < word.size()]. *)
Definition at_ (word : list byte) (i : nat) : byte := nth i word x00.

(** [mask >> i & 1u], as a truth value. *)
Definition mbit (mask : Z) (i : Z) : bool :=
  negb (Z.land (Z.shiftr mask i) 1 =? 0).

(** [uint64_t Dictionary::getKey(uint32_t mask, const std::string& word)].
    The switch falls through from the case of the length (or from
    [default], for six and more) down to [case 0].  The key stays below
    [2^48], so the 64-bit arithmetic never wraps. *)
Definition getKey_mask (mask : Z) (word : list byte) : Z :=
  let n := length word in
  let key := 0 in
  let key := if (6 <=? n)%nat
             then Z.lor key (if mbit mask 5 then Z.shiftl (u8 (at_ word 5)) 40 else 0)
             else key in
  let key := if (5 <=? n)%nat
             then Z.lor key (if mbit mask 4 then Z.shiftl (u8 (at_ word 4)) 32 else 0)
             else key in
  let key := if (4 <=? n)%nat
             then Z.lor key (if mbit mask 3 then Z.shiftl (u8 (at_ word 3)) 24 else 0)
             else key in
  let key := if (3 <=? n)%nat
             then Z.lor key (if mbit mask 2 then Z.shiftl (u8 (at_ word 2)) 16 else 0)
             else key in
  let key := if (2 <=? n)%nat
             then Z.lor key (if mbit mask 1 then Z.shiftl (u8 (at_ word 1)) 8 else 0)
             else key in
  let key := if (1 <=? n)%nat
             then Z.lor key (if mbit mask 0 then Z.shiftl (u8 (at_ word 0)) 0 else 0)
             else key in
  key.

(** [uint64_t Dictionary::getKey(const std::string& word)] *)
Definition getKey (word : list byte) : Z :=
  let n := length word in
  let key := 0 in
  let key := if (6 <=? n)%nat then Z.lor key (Z.shiftl (u8 (at_ word 5)) 40) else key in
  let key := if (5 <=? n)%nat then Z.lor key (Z.shiftl (u8 (at_ word 4)) 32) else key in
  let key := if (4 <=? n)%nat then Z.lor key (Z.shiftl (u8 (at_ word 3)) 24) else key in
  let key := if (3 <=? n)%nat then Z.lor key (Z.shiftl (u8 (at_ word 2)) 16) else key in
  let key := if (2 <=? n)%nat then Z.lor key (Z.shiftl (u8 (at_ word 1)) 8) else key in
  let key := if (1 <=? n)%nat then Z.lor key (Z.shiftl (u8 (at_ word 0)) 0) else key in
  key.

(** *** The key, slot by slot *)

(** The packed key as the six byte slots it is made of. *)
Definition pack6 (c5 c4 c3 c2 c1 c0 : Z) : Z :=
  Z.lor (Z.lor (Z.lor (Z.lor (Z.lor (Z.lor 0
    (Z.shiftl c5 40)) (Z.shiftl c4 32)) (Z.shiftl c3 24))
    (Z.shiftl c2 16)) (Z.shiftl c1 8)) (Z.shiftl c0 0).

(** Slot [i] of the key of [word] under [mask]. *)
Definition mslot (mask : Z) (word : list byte) (i : nat) : Z :=
  if (i <? length word)%nat && mbit mask (Z.of_nat i)
  then u8 (at_ word i) else 0.

(** Slot [i] of the key of a pattern. *)
Definition pslot (word : list byte) (i : nat) : Z :=
  if (i <? length word)%nat then u8 (at_ word i) else 0.

(** The mask with the given six bits. *)
Definition mask_of_bits (b5 b4 b3 b2 b1 b0 : bool) : Z :=
  Z.b2z b0 + 2 * Z.b2z b1 + 4 * Z.b2z b2 + 8 * Z.b2z b3
  + 16 * Z.b2z b4 + 32 * Z.b2z b5.

(** Byte [i] of a packed key. *)
Definition key_byte (i : Z) (key : Z) : Z :=
  Z.land (Z.shiftr key (8 * i)) 255.

(** ** Building the index *)

(** [table[key]]: the bucket, empty when the key is absent. *)
Definition bucket (table : gmap Z (list Z)) (key : Z) : list Z :=
  default [] (table !! key).

(** [table[key].push_back(index)] *)
Definition push_bucket (table : gmap Z (list Z)) (key index : Z)
  : gmap Z (list Z) :=
  <[key := bucket table key ++ [index]]> table.

(** The loop of [addToFastSearch] over the masks [0 .. 63]. *)
Definition add_masks (newWord : list byte) (index : Z)
  (table : gmap Z (list Z)) (masks : list Z) : gmap Z (list Z) :=
  foldl (fun table mask => push_bucket table (getKey_mask mask newWord) index)
        table masks.

(** [void Dictionary::addToFastSearch(const std::string& newWord, uint16_t index)].
    [_fastSearch[newWord.size()]] is an unchecked array access. *)
Definition addToFastSearch (d : Dictionary) (newWord : list byte) (index : Z)
  : outcome Dictionary :=
  match _fastSearch d !! length newWord with
  | None => Undefined
  | Some currentFastSearch =>
      Ok (with_tables d (_cacheSearchMap d)
            (<[length newWord := add_masks newWord index currentFastSearch (seqZ 0 64)]>
               (_fastSearch d)))
  end.

(** [m.emplace(k, v)]: inserts only when the key is absent. *)
Definition emplace (m : gmap (list byte) (list byte)) (k v : list byte)
  : gmap (list byte) (list byte) :=
  match m !! k with
  | Some _ => m
  | None => <[k := v]> m
  end.

(** The body of the loop of [loadDictionary], once [nextWord] and
    [explanation] have been read and recoded. *)
Definition add_entry `{Header} (d : Dictionary) (nextWord explanation : list byte)
  : outcome Dictionary :=
  let clean := toupper (cleanString nextWord) in
  let d1 :=
    {| _iniPropertyTree := _iniPropertyTree d;
       _dictionaryFilePath := _dictionaryFilePath d;
       _allWords := _allWords d;
       _dirtyDict := emplace (_dirtyDict d) clean nextWord;
       _explanationDict := emplace (_explanationDict d) clean explanation;
       _cacheSearchMap := _cacheSearchMap d;
       _fastSearch := _fastSearch d |} in
  d2 ← addToFastSearch d1 clean (u16 (Z.of_nat (length (_allWords d1))));
  Ok {| _iniPropertyTree := _iniPropertyTree d2;
        _dictionaryFilePath := _dictionaryFilePath d2;
        _allWords := _allWords d2 ++ [clean];
        _dirtyDict := _dirtyDict d2;
        _explanationDict := _explanationDict d2;
        _cacheSearchMap := _cacheSearchMap d2;
        _fastSearch := _fastSearch d2 |}.

(** *** The input stream *)

Record ifstream := {
  buf : list byte;
  eofbit : bool;
  failbit : bool
}.

Definition good (fin : ifstream) : bool := negb (eofbit fin) && negb (failbit fin).

(** The characters before the first [delim], and what follows it, if any. *)
Fixpoint split_delim (delim : byte) (s : list byte) : list byte * option (list byte) :=
  match s with
  | [] => ([], None)
  | c :: rest =>
      if decide (c = delim) then ([], Some rest)
      else let '(line, after) := split_delim delim rest in (c :: line, after)
  end.

(** [std::getline(fin, s, delim)]: when the stream is not good the string is
    left as it was and [failbit] is set; otherwise the string is replaced
    by the characters up to the delimiter, which is consumed; reaching the
    end sets [eofbit], and [failbit] too when nothing at all was read. *)
Definition getline (fin : ifstream) (s : list byte) (delim : byte)
  : ifstream * list byte :=
  if good fin then
    match split_delim delim (buf fin) with
    | (line, Some rest) => ({| buf := rest; eofbit := false; failbit := false |}, line)
    | (line, None) =>
        ({| buf := []; eofbit := true; failbit := bool_decide (line = []) |}, line)
    end
  else ({| buf := buf fin; eofbit := eofbit fin; failbit := true |}, s).

Definition TAB : byte := x09.
Definition NEWLINE : byte := x0a.

(** The [while (getline(fin, nextWord, '\t'))] loop.  Every turn that enters
    the body consumes at least one character, so [fuel] above the length
    of the input is never used up (see [load_loop_fuel]). *)
Fixpoint load_loop `{Header} (fuel : nat) (fin : ifstream)
  (nextWord explanation : list byte) (d : Dictionary) : outcome Dictionary :=
  match fuel with
  | O => Ok d
  | S fuel =>
      let '(fin, nextWord) := getline fin nextWord TAB in
      if failbit fin then Ok d
      else
        let '(fin, explanation) := getline fin explanation NEWLINE in
        let nextWord := dosToWinCode nextWord in
        let explanation := dosToWinCode explanation in
        d ← add_entry d nextWord explanation;
        load_loop fuel fin nextWord explanation d
  end.

(** [void Dictionary::loadDictionary()]; [file] is what opening
    [_dictionaryFilePath] gives, [None] when it cannot be opened. *)
Definition loadDictionary `{Header} (file : option (list byte)) (d : Dictionary)
  : outcome Dictionary :=
  let d := reset d in
  match file with
  | None => Ok d
  | Some content =>
      load_loop (S (length content))
        {| buf := content; eofbit := false; failbit := false |} [] [] d
  end.

(** [getDirty] and [getExplanation].  For an unknown key the source returns
    a reference to a temporary empty string, which dangles; it is the empty
    string here, and no statement below reads it. *)
Definition getDirty (d : Dictionary) (clean : list byte) : list byte :=
  match _dirtyDict d !! clean with
  | Some dirty => dirty
  | None => []
  end.

Definition getExplanation (d : Dictionary) (clean : list byte) : list byte :=
  match _explanationDict d !! clean with
  | Some explanation => explanation
  | None => []
  end.

(** ** Shuffling *)

(** [std::iter_swap] on positions [i] and [j]. *)
Definition swap {A} (l : list A) (i j : nat) : list A :=
  match l !! i, l !! j with
  | Some x, Some y => <[j := x]> (<[i := y]> l)
  | _, _ => l
  end.

(** [std::random_shuffle(first, last)]: position [i], from 1 on, is swapped
    with position [rand() % (i + 1)]; [rand i] is the number drawn at
    step [i]. *)
Definition random_shuffle {A} (rand : nat -> nat) (l : list A) : list A :=
  foldl (fun l i => swap l i (rand i mod (S i))%nat) l (seq 1 (length l - 1)).

(** The numbers drawn while one container is shuffled, for every container
    that [shuffle] visits. *)
Record Random := {
  rand_bucket : nat -> Z -> nat -> nat;
  rand_cache : list byte -> nat -> nat
}.

(** [void Dictionary::shuffle()] *)
Definition shuffle `{Header} (rnd : Random) (d : Dictionary) : Dictionary :=
  with_tables d
    (map_imap (fun pattern ids => Some (random_shuffle (rand_cache rnd pattern) ids))
              (_cacheSearchMap d))
    (imap (fun length table =>
             if (length <? LONGEST_WORD)%nat
             then map_imap (fun key ids =>
                              Some (random_shuffle (rand_bucket rnd length key) ids))
                           table
             else table)
          (_fastSearch d)).

(** ** Queries *)

(** Modelled from the spec: [getFromIndex] is declared in [dictionary.hpp];
    it is the resolution function from an identifier to the canonical word,
    an unchecked access to the word table. *)
Definition getFromIndex (d : Dictionary) (index : Z) : outcome (list byte) :=
  of_option (_allWords d !! Z.to_nat index).

(** [s[i]] on a [const std::string]: the character, the null character at
    [i = s.size()], undefined beyond. *)
Definition char_at (s : list byte) (i : nat) : outcome byte :=
  match s !! i with
  | Some c => Ok c
  | None => if decide (i = length s) then Ok x00 else Undefined
  end.

(** [bool Dictionary::isPossible(pattern, contender, filledIndices)] *)
Fixpoint isPossible (pattern contender : list byte) (filledIndices : list nat)
  : outcome bool :=
  match filledIndices with
  | [] => Ok true
  | i :: rest =>
      p ← char_at pattern i;
      c ← char_at contender i;
      if decide (p ≠ c) then Ok false else isPossible pattern contender rest
  end.

(** The positions of [pattern] that hold a letter. *)
Definition filled_indices `{Header} (pattern : list byte) : list nat :=
  filter (fun i => pattern !! i ≠ Some ANY_CHAR) (seq 0 (length pattern)).

(** The loop over [narrowedWords] in the long branch of [findPossible]. *)
Fixpoint verify (d : Dictionary) (pattern : list byte) (filledIndices : list nat)
  (narrowedWords : list Z) : outcome (list Z) :=
  match narrowedWords with
  | [] => Ok []
  | contender :: rest =>
      word ← getFromIndex d contender;
      keep ← isPossible pattern word filledIndices;
      kept ← verify d pattern filledIndices rest;
      Ok (if keep : bool then contender :: kept else kept)
  end.

(** The result view [Dictionary::Pattern]: a count and an iterator into the
    vector that the cache owns for [pat_begin]; identifiers are resolved by
    [getFromIndex]. *)
Record Pattern := {
  pat_size : nat;
  pat_begin : list byte
}.

(** The identifiers a view enumerates, read in the state [d]. *)
Definition view_ids (d : Dictionary) (v : Pattern) : list Z :=
  take (pat_size v) (default [] (_cacheSearchMap d !! pat_begin v)).

(** [Dictionary::Pattern Dictionary::findPossible(const std::string& pattern)].
    [_fastSearch[pattern.size()]] is an unchecked array access, and
    [operator[]] on the table creates the bucket when it is absent. *)
Definition findPossible `{Header} (d : Dictionary) (pattern : list byte)
  : outcome (Dictionary * Pattern) :=
  match _cacheSearchMap d !! pattern with
  | Some newCachePosition =>
      Ok (d, {| pat_size := length newCachePosition; pat_begin := pattern |})
  | None =>
      let key := getKey pattern in
      match _fastSearch d !! length pattern with
      | None => Undefined
      | Some table =>
          let narrowedWords := bucket table key in
          let fast := <[length pattern := <[key := narrowedWords]> table]> (_fastSearch d) in
          if (length pattern <=? 6)%nat then
            Ok (with_tables d (<[pattern := narrowedWords]> (_cacheSearchMap d)) fast,
                {| pat_size := length narrowedWords; pat_begin := pattern |})
          else
            possibleWordIndices ←
              verify d pattern (filled_indices pattern) narrowedWords;
            Ok (with_tables d (<[pattern := possibleWordIndices]> (_cacheSearchMap d)) fast,
                {| pat_size := length possibleWordIndices; pat_begin := pattern |})
      end
  end.

(** ** Construction from a configuration file *)

(** The outside world of the constructors: the files that can be opened,
    with their contents, and the INI parser of the property-tree library. *)
Record World := {
  files : gmap (list byte) (list byte);
  ini_parse : list byte -> option (gmap (list byte) (list byte))
}.

(** [boost::property_tree::ini_parser::read_ini(path, tree)]: throws when
    the file cannot be opened or parsed. *)
Definition read_ini (w : World) (path : list byte)
  : outcome (gmap (list byte) (list byte)) :=
  match files w !! path with
  | None => Throw "cannot open file"
  | Some content =>
      match ini_parse w content with
      | Some tree => Ok tree
      | None => Throw "cannot parse file"
      end
  end.

(** [std::ifstream{path}] converted to [bool]. *)
Definition ifstream_opens (w : World) (path : list byte) : bool :=
  bool_decide (is_Some (files w !! path)).

(** The second half of both constructors: the dictionary path is looked up
    in the tree, with [DEFAULT_DICTIONARY_PATH] when it is missing; then
    [loadDictionary(); shuffle();]. *)
Definition construct `{Header} (w : World) (rnd : Random)
  (tree : gmap (list byte) (list byte)) : outcome Dictionary :=
  let path :=
    match tree !! lit "dictionary.dictionary_file_path" with
    | Some path => path
    | None => DEFAULT_DICTIONARY_PATH
    end in
  d ← loadDictionary (files w !! path) (empty_dictionary tree path);
  Ok (shuffle rnd d).

(** [Dictionary::Dictionary()] *)
Definition Dictionary_default `{Header} (w : World) (rnd : Random)
  : outcome Dictionary :=
  tree ← read_ini w DEFAULT_CONFIG_PATH;
  construct w rnd tree.

(** [Dictionary::Dictionary(const std::string& configFilePath)] *)
Definition Dictionary_config `{Header} (w : World) (rnd : Random)
  (configFilePath : list byte) : outcome Dictionary :=
  tree ←
    match read_ini w configFilePath with
    | Ok tree => Ok tree
    | Undefined => Undefined
    | Throw _ =>
        if ifstream_opens w DEFAULT_CONFIG_PATH
        then Throw "Could not open the given configuration path nor the default configuration path"
        else read_ini w configFilePath
    end;
  construct w rnd tree.

(** ** Vocabulary of the statements *)

(** An upper-case letter of the supported range: alphabetic for [isalpha]
    and below the lower-case range that [toupper] shifts down. *)
Definition is_upper_letter `{Header} (c : byte) : Prop :=
  CYRILLIC_A - 32 <= u8 c < CYRILLIC_A.

(** The constants of the Windows-1251 setting the comments of the source
    speak of: the small Cyrillic a is 224, the placeholder is the null
    character, words have fewer than 32 letters. *)
Definition cp1251 : Header :=
  {| CYRILLIC_A := 224; ANY_CHAR := x00; LONGEST_WORD := 32 |}.

(** The same constants with a question mark as placeholder. *)
Definition with_question_mark : Header :=
  {| CYRILLIC_A := 224; ANY_CHAR := x3f; LONGEST_WORD := 32 |}.

(** *** What the index is expected to hold *)

(** The identifiers that [addToFastSearch(word, index)] appends to the
    bucket [key], one for every mask that packs [word] into [key]. *)
Definition registrations (word : list byte) (index key : Z) : list Z :=
  mask ← seqZ 0 64;
  if decide (getKey_mask mask word = key) then [index] else [].

(** The bucket [key] of the table for length [len] after loading [words],
    the first of which gets the identifier [u16 start]. *)
Fixpoint expected_bucket (len : nat) (key : Z) (start : nat)
  (words : list (list byte)) : list Z :=
  match words with
  | [] => []
  | word :: rest =>
      (if decide (length word = len)
       then registrations word (u16 (Z.of_nat start)) key else [])
      ++ expected_bucket len key (S start) rest
  end.



(** The comparison of [isPossible], where every read is in range. *)
Definition agrees (pattern contender : list byte) (filledIndices : list nat)
  : bool :=
  forallb (fun i => bool_decide (default x00 (pattern !! i)
                                 = default x00 (contender !! i)))
          filledIndices.

(** Whether the word an identifier resolves to passes the verification of
    the long branch. *)
Definition passes `{Header} (words : list (list byte)) (pattern : list byte)
  (id : Z) : bool :=
  match words !! Z.to_nat id with
  | Some word => agrees pattern word (filled_indices pattern)
  | None => false
  end.

(** What a query for [pattern] computes from the unshuffled index. *)
Definition expected_answer `{Header} (words : list (list byte))
  (pattern : list byte) : list Z :=
  let candidates := expected_bucket (length pattern) (getKey pattern) 0 words in
  if (length pattern <=? 6)%nat then candidates
  else filter (fun id => passes words pattern id) candidates.

(** The invariant of a loaded dictionary: the array has its declared size,
    every bucket and every cached answer is a permutation of what loading
    the word table put there, and every word fits the array. *)
Record index_inv `{Header} (d : Dictionary) : Prop := {
  inv_size : length (_fastSearch d) = LONGEST_WORD;
  inv_bucket : forall len table key,
    _fastSearch d !! len = Some table ->
    bucket table key ≡ₚ expected_bucket len key 0 (_allWords d);
  inv_cache : forall pattern ids,
    _cacheSearchMap d !! pattern = Some ids ->
    (length pattern < LONGEST_WORD)%nat
    /\ ids ≡ₚ expected_answer (_allWords d) pattern;
  inv_words : Forall (fun word => (length word < LONGEST_WORD)%nat) (_allWords d)
}.

(** The index right after loading, before any shuffle: every bucket is
    exactly what the word table dictates, and the cache is empty. *)
Record index_exact `{Header} (d : Dictionary) : Prop := {
  exact_size : length (_fastSearch d) = LONGEST_WORD;
  exact_bucket : forall len table key,
    _fastSearch d !! len = Some table ->
    bucket table key = expected_bucket len key 0 (_allWords d);
  exact_cache : _cacheSearchMap d = ∅;
  exact_words : Forall (fun word => (length word < LONGEST_WORD)%nat) (_allWords d)
}.

(** One call on the public surface after loading: a shuffle or a query. *)
Inductive call `{Header} : Dictionary -> Dictionary -> Prop :=
  | call_shuffle rnd d : call d (shuffle rnd d)
  | call_findPossible d pattern d' v :
      findPossible d pattern = Ok (d', v) -> call d d'.

(** The states a dictionary object goes through: loaded, then shuffled and
    queried any number of times, or loaded again. *)
Inductive reachable `{Header} : Dictionary -> Prop :=
  | reach_load file d0 d : loadDictionary file d0 = Ok d -> reachable d
  | reach_call d d' : reachable d -> call d d' -> reachable d'.

(** The capacity of a [uint16_t] identifier. *)
Definition within_capacity (d : Dictionary) : Prop :=
  Z.of_nat (length (_allWords d)) <= 65536.

(** *** The entries of a dictionary file *)

(** The pairs [(nextWord, explanation)], recoded, that the loop of
    [loadDictionary] hands to its body. *)
Fixpoint read_entries `{Header} (fuel : nat) (fin : ifstream)
  (nextWord explanation : list byte) : list (list byte * list byte) :=
  match fuel with
  | O => []
  | S fuel =>
      let '(fin, nextWord) := getline fin nextWord TAB in
      if failbit fin then []
      else
        let '(fin, explanation) := getline fin explanation NEWLINE in
        let nextWord := dosToWinCode nextWord in
        let explanation := dosToWinCode explanation in
        (nextWord, explanation) :: read_entries fuel fin nextWord explanation
  end.

Definition entries_of_file `{Header} (content : list byte)
  : list (list byte * list byte) :=
  read_entries (S (length content))
    {| buf := content; eofbit := false; failbit := false |} [] [].

(** The body of the loop, entry after entry. *)
Fixpoint add_entries `{Header} (entries : list (list byte * list byte))
  (d : Dictionary) : outcome Dictionary :=
  match entries with
  | [] => Ok d
  | (nextWord, explanation) :: rest =>
      d ← add_entry d nextWord explanation;
      add_entries rest d
  end.

(** *** Concrete worlds *)

(** A world where only the default configuration and the default dictionary
    exist, and every file parses as an empty property tree. *)
Definition world_with_default : World :=
  {| files := {[ DEFAULT_CONFIG_PATH := lit "";
                 DEFAULT_DICTIONARY_PATH := lit "" ]};
     ini_parse := fun _ => Some ∅ |}.

Definition zero_draws : Random :=
  {| rand_bucket := fun _ _ _ => 0%nat; rand_cache := fun _ _ => 0%nat |}.

(** *** A small dictionary

    Three entries in Windows-1251: the two-letter word 192 193 twice, the
    second time in lower case, and the one-letter word 194. *)
Definition sample_file : list byte :=
  [xc0; xc1; x09; x78; x0a;  xe0; xe1; x09; x79; x0a;  xc2; x09; x7a; x0a].

Definition sample_dictionary : Dictionary :=
  match @loadDictionary cp1251 (Some sample_file) (@empty_dictionary cp1251 ∅ []) with
  | Ok d => d
  | _ => @empty_dictionary cp1251 ∅ []
  end.

(** Two words of seven letters that differ in the last one only: the key
    packs their first six letters, the verification tells them apart. *)
Definition long_file : list byte :=
  [xc0; xc1; xc2; xc3; xc4; xc5; xc6; x09; x78; x0a;
   xc0; xc1; xc2; xc3; xc4; xc5; xc7; x09; x79; x0a].

Definition long_dictionary : Dictionary :=
  match @loadDictionary cp1251 (Some long_file) (@empty_dictionary cp1251 ∅ []) with
  | Ok d => d
  | _ => @empty_dictionary cp1251 ∅ []
  end.

(** A first query on the small dictionary, and the state after a shuffle. *)
Definition sample_query : Dictionary * Pattern :=
  match @findPossible cp1251 sample_dictionary [xc0; x00] with
  | Ok r => r
  | _ => (sample_dictionary, {| pat_size := 0; pat_begin := [] |})
  end.

Definition sample_shuffled : Dictionary :=
  @shuffle cp1251 zero_draws sample_query.1.

(** The small dictionary loaded with a question mark as placeholder, and
    the all-unknown query of length 2 on it. *)
Definition question_dictionary : Dictionary :=
  match @loadDictionary with_question_mark (Some sample_file)
          (@empty_dictionary with_question_mark ∅ []) with
  | Ok d => d
  | _ => @empty_dictionary with_question_mark ∅ []
  end.

Definition question_query : Dictionary * Pattern :=
  match @findPossible with_question_mark question_dictionary [x3f; x3f] with
  | Ok r => r
  | _ => (question_dictionary, {| pat_size := 1; pat_begin := [] |})
  end.

(** A dictionary file with one entry, and the same file followed by a
    second entry that normalises to the same key. *)
Definition first_only_file : list byte :=
  [xc0; xc1; x09; x78; x0a].

Definition duplicate_file : list byte :=
  [xc0; xc1; x09; x78; x0a;  xe0; xe1; x09; x79; x0a].

Definition first_only_dictionary : Dictionary :=
  match @loadDictionary cp1251 (Some first_only_file) (@empty_dictionary cp1251 ∅ []) with
  | Ok d => d
  | _ => @empty_dictionary cp1251 ∅ []
  end.

Definition duplicate_dictionary : Dictionary :=
  match @loadDictionary cp1251 (Some duplicate_file) (@empty_dictionary cp1251 ∅ []) with
  | Ok d => d
  | _ => @empty_dictionary cp1251 ∅ []
  end.

(** ** The crossword board ([crossword.cpp]) *)

Module Crossword.

Local Open Scope nat_scope.

(** A slot, [position] in the source: its orientation and its letters, each
    a pointer to a cell of the board, here the coordinates of the cell,
    paired with the row-major number of the cell. *)
Record position := {
  hor : Z;
  letters : list ((nat * nat) * nat)
}.

(** What [crossword.h], which is not available, contributes to [loadWords]:
    the classifier of blocked cells and the effect of
    [sort(areas.begin(), areas.end(), position::sortHelp)]. *)
Class BoardHeader := {
  isBox : list (list byte) -> nat -> nat -> bool;
  sort : list position -> list position
}.

(** The object; [N] and [M] are read from the file as characters, a
    negative value leaves every loop idle like zero. *)
Record crossword := {
  N : nat;
  M : nat;
  board : list (list byte);
  areas : list position
}.

Section Model.
Context `{BoardHeader}.
Variable cw : crossword.

(** [for (; j < M && !isBox(i, j); ++j);] *)
Fixpoint skip_open_row (fuel : nat) (i j : nat) : nat :=
  match fuel with
  | O => j
  | S fuel =>
      if (j <? M cw) && negb (isBox (board cw) i j)
      then skip_open_row fuel i (S j) else j
  end.

(** [for (; i < N && !isBox(i, j); ++i);] *)
Fixpoint skip_open_col (fuel : nat) (j i : nat) : nat :=
  match fuel with
  | O => i
  | S fuel =>
      if (i <? N cw) && negb (isBox (board cw) i j)
      then skip_open_col fuel j (S i) else i
  end.

(** The slot pushed by the first pass for the cells [start .. j - 1] of
    row [i]. *)
Definition row_position (i start j : nat) : position :=
  {| hor := 1;
     letters := map (fun c => ((i, c), i * M cw + c)) (seq start (j - start)) |}.

(** The slot pushed by the second pass for the cells [start .. i - 1] of
    column [j]. *)
Definition col_position (j start i : nat) : position :=
  {| hor := 0;
     letters := map (fun r => ((r, j), r * M cw + j)) (seq start (i - start)) |}.

(** The loop over [j] of the first pass, for row [i]. *)
Fixpoint row_loop (fuel : nat) (i j : nat) (areas : list position)
  : list position :=
  match fuel with
  | O => areas
  | S fuel =>
      if j <? M cw then
        let start := j in
        let j := skip_open_row (M cw) i j in
        if j - start <=? 1 then row_loop fuel i (S j) areas
        else row_loop fuel i (S j) (areas ++ [row_position i start j])
      else areas
  end.

(** The loop over [i] of the second pass, for column [j]. *)
Fixpoint col_loop (fuel : nat) (j i : nat) (areas : list position)
  : list position :=
  match fuel with
  | O => areas
  | S fuel =>
      if i <? N cw then
        let start := i in
        let i := skip_open_col (N cw) j i in
        if i - start <=? 1 then col_loop fuel j (S i) areas
        else col_loop fuel j (S i) (areas ++ [col_position j start i])
      else areas
  end.

(** [void crossword::loadWords()].  Every turn of an inner loop moves its
    index forward, so a fuel of [M] (of [N]) turns is never used up. *)
Definition loadWords : crossword :=
  let areas := [] in
  let areas := foldl (fun areas i => row_loop (M cw) i 0 areas) areas (seq 0 (N cw)) in
  let areas := foldl (fun areas j => col_loop (N cw) j 0 areas) areas (seq 0 (M cw)) in
  {| N := N cw; M := M cw; board := board cw; areas := sort areas |}.

(** *** Runs of open cells *)

(** [s .. e - 1] is a maximal run of open cells among the cells
    [0 .. len - 1] of a line. *)
Definition maximal_run (open : nat -> bool) (len s e : nat) : Prop :=
  s < e /\ e <= len
  /\ (forall c, s <= c < e -> open c = true)
  /\ (s = 0 \/ open (s - 1) = false)
  /\ (e = len \/ open e = false).

Definition row_open (i : nat) (c : nat) : bool := negb (isBox (board cw) i c).
Definition col_open (j : nat) (r : nat) : bool := negb (isBox (board cw) r j).

End Model.

(** *** The scan both passes perform

    The two passes are the same scan of a line of [len] cells, the first
    along a row, the second along a column. *)

Section Scan.
Variable open : nat -> bool.
Variable len : nat.

Fixpoint skip (fuel : nat) (j : nat) : nat :=
  match fuel with
  | O => j
  | S fuel => if (j <? len) && open j then skip fuel (S j) else j
  end.

(** The runs [(start, end)] that the scan turns into slots. *)
Fixpoint scan (fuel : nat) (j : nat) : list (nat * nat) :=
  match fuel with
  | O => []
  | S fuel =>
      if j <? len then
        let j' := skip len j in
        if j' - j <=? 1 then scan fuel (S j')
        else (j, j') :: scan fuel (S j')
      else []
  end.

(** The boundary condition under which the scan is entered at [j]: the
    line is over, or [j] starts the line, or the cell before [j] is
    blocked. *)
Definition at_boundary (j : nat) : Prop :=
  len <= j \/ j = 0 \/ open (j - 1) = false.

End Scan.

Section Slots.
Context `{BoardHeader}.
Variable cw : crossword.

(** The slots before sorting. *)
Definition row_slots : list position :=
  i ← seq 0 (N cw);
  map (fun se => row_position cw i se.1 se.2) (scan (row_open cw i) (M cw) (M cw) 0).

Definition col_slots : list position :=
  j ← seq 0 (M cw);
  map (fun se => col_position cw j se.1 se.2) (scan (col_open cw j) (N cw) (N cw) 0).

End Slots.

(** A classifier that takes the cells holding the character [#] for blocked,
    and a board of two rows with one such cell. *)
Definition hash_boxes : BoardHeader :=
  {| isBox := fun board i j =>
       bool_decide (board !! i ≫= (fun row => row !! j) = Some x23);
     sort := fun l => l |}.

Definition boxed_board : crossword :=
  {| N := 2; M := 4;
     board := [[x41; x41; x23; x41]; [x41; x41; x41; x41]];
     areas := [] |}.

(** A board of [n] rows and [m] columns without any blocked cell. *)
Definition open_board : BoardHeader :=
  {| isBox := fun _ _ _ => false; sort := fun l => l |}.

Definition blank (n m : nat) : crossword :=
  {| N := n; M := m; board := replicate n (replicate m x00); areas := [] |}.

End Crossword.

(** ** Vocabulary of the further properties *)

(** A word matches a pattern at the positions [0 .. upto - 1] when it
    holds the character of the pattern wherever that character is not
    [wild]. *)
Definition matches_upto (wild : byte) (upto : nat) (pattern word : list byte)
  : Prop :=
  forall i c, (i < upto)%nat -> pattern !! i = Some c -> c <> wild ->
              word !! i = Some c.

(** The mask that shows the positions where the pattern holds something
    other than the null character. *)
Definition mask_of_pattern (pattern : list byte) : Z :=
  mask_of_bits (negb (pslot pattern 5 =? 0)) (negb (pslot pattern 4 =? 0))
               (negb (pslot pattern 3 =? 0)) (negb (pslot pattern 2 =? 0))
               (negb (pslot pattern 1 =? 0)) (negb (pslot pattern 0 =? 0)).

(** A dictionary file written from its entries: the word, a tab, the
    explanation, a newline. *)
Definition file_of_entries (entries : list (list byte * list byte)) : list byte :=
  e ← entries; e.1 ++ [TAB] ++ e.2 ++ [NEWLINE].

(** The recoding of both fields of an entry. *)
Definition recode_entry `{Header} (e : list byte * list byte)
  : list byte * list byte :=
  (dosToWinCode e.1, dosToWinCode e.2).

(** The path the constructors load the dictionary from. *)
Definition configured_path (tree : gmap (list byte) (list byte)) : list byte :=
  match tree !! lit "dictionary.dictionary_file_path" with
  | Some path => path
  | None => DEFAULT_DICTIONARY_PATH
  end.

(** The value the loops of [levenstein] leave in the cell [(i, j)] of the
    table. *)
Fixpoint lev_table (a b : list byte) (i : nat) : nat -> Z :=
  match i with
  | O => fun _ => 0
  | S i' =>
      fix row (j : nat) : Z :=
        match j with
        | O => 0
        | S j' =>
            Z.min (Z.min (lev_table a b i' (S j') + 1) (row j' + 1))
                  (lev_table a b i' j'
                   + (if decide (a !! i' ≠ b !! j') then 1 else 0))
        end
  end.

(** The cell [(i, j)] exists in the table. *)
Definition in_table (dp : list (list Z)) (i j : nat) : Prop :=
  exists row, dp !! i = Some row /\ (j < length row)%nat.

(** The state of the table when the loops of [levenstein] reach the cell
    [(i, j)]: every cell is there, and the cells before [(i, j)], row by
    row, hold their final value. *)
Definition filled (a b : list byte) (dp : list (list Z)) (i j : nat) : Prop :=
  (forall i' j', (i' <= length a)%nat -> (j' <= length b)%nat -> in_table dp i' j')
  /\ (forall i' j', (i' <= length a)%nat -> (j' <= length b)%nat ->
        (i' < i \/ (i' = i /\ j' < j))%nat ->
        dp_get dp i' j' = lev_table a b i' j').

(** The spellings and explanations on file go with the word table: a key
    has a spelling on file exactly when it is a word of the table and
    exactly when it has an explanation, and the spelling cleans and raises
    to the key. *)
Definition on_file `{Header} (d : Dictionary) : Prop :=
  (forall word, word ∈ _allWords d <-> is_Some (_dirtyDict d !! word))
  /\ (forall word, is_Some (_dirtyDict d !! word)
                   <-> is_Some (_explanationDict d !! word))
  /\ (forall word dirty, _dirtyDict d !! word = Some dirty ->
                         toupper (cleanString dirty) = word).

(** A query the small dictionary has not been asked, before and after the
    query and the shuffle of [sample_shuffled]. *)
Definition sample_query_before : Dictionary * Pattern :=
  match @findPossible cp1251 sample_dictionary [x00; xc1] with
  | Ok r => r
  | _ => (sample_dictionary, {| pat_size := 0; pat_begin := [] |})
  end.

Definition sample_query_after : Dictionary * Pattern :=
  match @findPossible cp1251 sample_shuffled [x00; xc1] with
  | Ok r => r
  | _ => (sample_shuffled, {| pat_size := 0; pat_begin := [] |})
  end.

(** A world with the default configuration file and no dictionary file. *)
Definition world_without_dictionary : World :=
  {| files := {[ DEFAULT_CONFIG_PATH := lit "" ]};
     ini_parse := fun _ => Some ∅ |}.

(** A dictionary file of [n + 1] entries: [n] times one word of seven
    letters, then a word that differs from it in the seventh letter. *)
Definition early_word : list byte := [xc0; xc1; xc2; xc3; xc4; xc5; xc6].
Definition late_word : list byte := [xc0; xc1; xc2; xc3; xc4; xc5; xc7].

Definition overfull_entries (n : nat) : list (list byte * list byte) :=
  replicate n (early_word, []) ++ [(late_word, [])].

Definition overfull_file (n : nat) : list byte :=
  file_of_entries (overfull_entries n).

(** * Part II: properties *)

(** ** The embedding at work *)

Example getKey_two_letters : getKey [x01; x02] = 513.
Proof. reflexivity. Qed.

Example getKey_mask_second_letter : getKey_mask 2 [x01; x02] = 512.
Proof. reflexivity. Qed.

Example getKey_seven_letters :
  getKey [x01; x02; x03; x04; x05; x06; x07] = 6618611909121
  /\ getKey_mask 63 [x01; x02; x03; x04; x05; x06; x07] = 6618611909121.
Proof. split; reflexivity. Qed.

Example toupper_cp1251 : @toupper cp1251 [xe0; x41; xff; xc0] = [xc0; x41; xdf; xc0].
Proof. reflexivity. Qed.

Example dosToWinCode_cp1251 :
  @dosToWinCode cp1251 [x80; xa0; x41; xbf; xc0] = [xc0; xe0; x41; xff; xc0].
Proof. reflexivity. Qed.

Example cleanString_cp1251 : @cleanString cp1251 [xc0; x20; x41; xe1] = [xc0; xe1].
Proof. reflexivity. Qed.

Example random_shuffle_zero_draws :
  random_shuffle (fun _ => 0%nat) [1; 2; 3; 4] = [4; 1; 2; 3].
Proof. reflexivity. Qed.

Example getline_tab :
  getline {| buf := [x41; x09; x42]; eofbit := false; failbit := false |} [] TAB
  = ({| buf := [x42]; eofbit := false; failbit := false |}, [x41]).
Proof. reflexivity. Qed.

(** A last line without a tab is read as a word, and the explanation of
    the line before stays in the variable. *)
Example entries_without_last_tab :
  @entries_of_file cp1251 [xc0; x09; x41; x0a; xc1] = [([xc0], [x41]); ([xc1], [x41])].
Proof. reflexivity. Qed.

Example loadWords_boxed_board :
  Crossword.areas (@Crossword.loadWords Crossword.hash_boxes Crossword.boxed_board)
  = [ {| Crossword.hor := 1;
         Crossword.letters := [((0, 0), 0); ((0, 1), 1)]%nat |};
      {| Crossword.hor := 1;
         Crossword.letters := [((1, 0), 4); ((1, 1), 5); ((1, 2), 6); ((1, 3), 7)]%nat |};
      {| Crossword.hor := 0;
         Crossword.letters := [((0, 0), 0); ((1, 0), 4)]%nat |};
      {| Crossword.hor := 0;
         Crossword.letters := [((0, 1), 1); ((1, 1), 5)]%nat |};
      {| Crossword.hor := 0;
         Crossword.letters := [((0, 3), 3); ((1, 3), 7)]%nat |} ].
Proof. reflexivity. Qed.

(** The two words of [long_file] share their first six letters: the key
    alone finds both, the seventh letter tells them apart. *)
Example findPossible_long_patterns :
  (r ← @findPossible cp1251 long_dictionary [xc0; xc1; xc2; xc3; xc4; xc5; x00];
   Ok (view_ids r.1 r.2)) = Ok [0; 1]
  /\ (r ← @findPossible cp1251 long_dictionary [x00; xc1; xc2; xc3; xc4; xc5; xc7];
      Ok (view_ids r.1 r.2)) = Ok [1].
Proof. split; vm_compute; reflexivity. Qed.

(** ** Characters *)

Lemma u8_range c : 0 <= u8 c < 256.
Proof. unfold u8. pose proof (Byte.to_N_bounded c). lia. Qed.

Lemma u8_char_of z : u8 (char_of z) = z mod 256.
Proof.
  unfold u8, char_of.
  assert (Hr : 0 <= z mod 256 < 256) by (apply Z.mod_pos_bound; lia).
  destruct (Byte.of_N (Z.to_N (z mod 256))) as [b|] eqn:E.
  - apply Byte.to_of_N in E. rewrite E. lia.
  - apply Byte.of_N_None_iff in E. lia.
Qed.

Lemma u8_inj c1 c2 : u8 c1 = u8 c2 -> c1 = c2.
Proof.
  unfold u8. intros E. apply N2Z.inj in E.
  assert (Some c1 = Some c2) as [= ->]; [|done].
  rewrite <- (Byte.of_to_N c1), <- (Byte.of_to_N c2). by rewrite E.
Qed.

(** ** The normaliser *)

Section Normaliser.
Context `{Header}.

Lemma is_upper_letter_spec c :
  is_upper_letter c <-> isalpha c = true /\ (CYRILLIC_A <=? u8 c) = false.
Proof. unfold is_upper_letter, isalpha. lia. Qed.

Lemma dosToWinCode_upper c : is_upper_letter c -> dosToWinCode_char c = c.
Proof.
  unfold is_upper_letter, dosToWinCode_char. intros Hc.
  destruct (u8 c <? CYRILLIC_A - 32) eqn:E; [lia|].
  by rewrite andb_false_r.
Qed.

Lemma toupper_upper c : is_upper_letter c -> toupper_char c = c.
Proof.
  unfold is_upper_letter, toupper_char. intros Hc.
  destruct (CYRILLIC_A <=? u8 c) eqn:E; [lia|done].
Qed.

Lemma cleanString_id s :
  Forall (fun c => isalpha c = true) s -> cleanString s = s.
Proof.
  induction 1 as [|c s Hc _ IH]; simpl; [done|]. by rewrite Hc, IH.
Qed.

(** C10.  Round trip of normalisation: a string whose bytes are all
    upper-case letters of the supported range goes through [dosToWinCode],
    [cleanString] and [toupper] unchanged. *)
Theorem canonical_of_upper_word (w : list byte) :
  Forall is_upper_letter w -> canonical w = w.
Proof.
  intros Hw. unfold canonical, dosToWinCode, toupper.
  assert (E1 : map dosToWinCode_char w = w).
  { induction Hw as [|c s Hc _ IH]; simpl; [done|].
    by rewrite (dosToWinCode_upper c Hc), IH. }
  rewrite E1, cleanString_id.
  - induction Hw as [|c s Hc _ IH]; simpl; [done|].
    rewrite toupper_upper by done. f_equal. apply IH.
    clear -E1. simpl in E1. by injection E1.
  - eapply Forall_impl; [exact Hw|]. intros c Hc.
    by apply is_upper_letter_spec in Hc as [? _].
Qed.

End Normaliser.

Lemma canonical_of_upper_word_witness :
  @canonical cp1251 [xc0; xc1; xdf] = [xc0; xc1; xdf].
Proof.
  apply (@canonical_of_upper_word cp1251).
  repeat constructor; unfold is_upper_letter; simpl; vm_compute; intuition discriminate.
Defined.

(** ** The edit distance *)

Lemma alter_replicate {A} (f : A -> A) (x : A) n i :
  f x = x -> alter f i (replicate n x) = replicate n x.
Proof.
  intros Hf. revert i. induction n as [|n IH]; intros i; [done|].
  destruct i as [|i]; simpl; [by rewrite Hf|]. f_equal. apply IH.
Qed.

(** Against the empty string the table never leaves zero. *)
Lemma levenstein_empty_r a : levenstein a [] = 0.
Proof.
  unfold levenstein. simpl length.
  assert (E : forall n rows,
             foldl (fun dp i => foldl (fun dp j => levenstein_cell a [] dp i j)
                                      dp (seq 0 1)) (replicate n [0]) rows
             = replicate n [0]).
  { intros n. induction rows as [|i rows IH]; [done|].
    cbn [foldl seq]. rewrite <- IH at 2. f_equal.
    unfold levenstein_cell. rewrite Nat.min_0_r. cbn [Nat.eqb].
    unfold dp_set. by apply alter_replicate. }
  change (replicate 1 0) with [0]. rewrite E. unfold dp_get.
  rewrite lookup_replicate_2 by lia. done.
Qed.

Lemma levenstein_empty_l b : levenstein [] b = 0.
Proof.
  unfold levenstein. simpl length.
  assert (E : forall n cols,
             foldl (fun dp j => levenstein_cell [] b dp 0 j) [replicate n 0] cols
             = [replicate n 0]).
  { intros n. induction cols as [|j cols IH]; [done|].
    cbn [foldl]. rewrite <- IH at 2. f_equal.
    unfold levenstein_cell. cbn [Nat.min Nat.eqb]. unfold dp_set. cbn [alter list_alter].
    by rewrite insert_replicate. }
  change (replicate 1 (replicate (S (length b)) 0)) with [replicate (S (length b)) 0].
  change (seq 0 1) with [0%nat]. cbn [foldl]. rewrite E. unfold dp_get.
  change ([replicate (S (length b)) 0] !! 0%nat) with (Some (replicate (S (length b)) 0)).
  cbn [mbind option_bind]. rewrite lookup_replicate_2 by lia. done.
Qed.

(** C6.  On KITTEN and SITTING the table gives 3, which is the classic
    distance; but the base row and the base column of the table hold 0 and
    not the index, so that against the empty string the result is always 0,
    where the classic distance is the length of the other string. *)
Theorem levenstein_base_is_zero :
  levenstein (lit "KITTEN") (lit "SITTING") = 3
  /\ (forall a, levenstein a [] = 0)
  /\ (forall b, levenstein [] b = 0)
  /\ levenstein (lit "") (lit "A") = 0
  /\ edit_distance_spec (lit "") (lit "A") = 1%nat
  /\ levenstein (lit "KITTEN") (lit "") = 0
  /\ edit_distance_spec (lit "KITTEN") (lit "") = 6%nat
  /\ levenstein (lit "AB") (lit "B") = 0
  /\ edit_distance_spec (lit "AB") (lit "B") = 1%nat.
Proof.
  split; [vm_compute; reflexivity|].
  split; [apply levenstein_empty_r|].
  split; [apply levenstein_empty_l|].
  vm_compute. repeat split.
Qed.

(** ** Construction from a configuration file *)

Section Construction.
Context `{Header}.

(** C5.  When the requested configuration cannot be read, the constructor
    throws in every world: with the default configuration present it throws
    the "nor the default" error, and without it the requested path is read
    a second time, which fails as it did before.  The default
    configuration is never read. *)
Theorem Dictionary_config_unreadable_throws (w : World) (rnd : Random)
  (configFilePath : list byte) (e : string) :
  read_ini w configFilePath = Throw e ->
  Dictionary_config w rnd configFilePath
  = Throw (if ifstream_opens w DEFAULT_CONFIG_PATH
           then "Could not open the given configuration path nor the default configuration path"%string
           else e).
Proof.
  intros He. unfold Dictionary_config. rewrite He.
  by destruct (ifstream_opens w DEFAULT_CONFIG_PATH).
Qed.

End Construction.

Lemma Dictionary_config_unreadable_throws_witness :
  ifstream_opens world_with_default DEFAULT_CONFIG_PATH = true
  /\ (exists d, @Dictionary_default cp1251 world_with_default zero_draws = Ok d)
  /\ @Dictionary_config cp1251 world_with_default zero_draws (lit "missing.ini")
     = Throw "Could not open the given configuration path nor the default configuration path".
Proof.
  split; [vm_compute; reflexivity|]. split; [vm_compute; eauto|].
  apply (@Dictionary_config_unreadable_throws cp1251 world_with_default zero_draws
           (lit "missing.ini") "cannot open file").
  vm_compute. reflexivity.
Defined.

(** ** Key packing *)

Lemma getKey_mask_pack mask word :
  getKey_mask mask word
  = pack6 (mslot mask word 5) (mslot mask word 4) (mslot mask word 3)
          (mslot mask word 2) (mslot mask word 1) (mslot mask word 0).
Proof.
  unfold getKey_mask, pack6, mslot.
  destruct word as [|c0 [|c1 [|c2 [|c3 [|c4 [|c5 rest]]]]]];
    cbn [length Nat.leb Nat.ltb andb];
    change (Z.of_nat 5) with 5; change (Z.of_nat 4) with 4;
    change (Z.of_nat 3) with 3; change (Z.of_nat 2) with 2;
    change (Z.of_nat 1) with 1; change (Z.of_nat 0) with 0;
    repeat match goal with
           | |- context [mbit mask ?i] => destruct (mbit mask i)
           end;
    reflexivity.
Qed.

Lemma getKey_pack word :
  getKey word
  = pack6 (pslot word 5) (pslot word 4) (pslot word 3)
          (pslot word 2) (pslot word 1) (pslot word 0).
Proof.
  unfold getKey, pack6, pslot.
  destruct word as [|c0 [|c1 [|c2 [|c3 [|c4 [|c5 rest]]]]]]; reflexivity.
Qed.

Lemma key_byte_lor i a b :
  key_byte i (Z.lor a b) = Z.lor (key_byte i a) (key_byte i b).
Proof. unfold key_byte. by rewrite Z.shiftr_lor, Z.land_lor_distr_l. Qed.

Lemma key_byte_shiftl i j v :
  0 <= v < 256 -> 0 <= i -> 0 <= j ->
  key_byte i (Z.shiftl v (8 * j)) = if i =? j then v else 0.
Proof.
  intros Hv Hi Hj. unfold key_byte.
  change 255 with (Z.ones 8). rewrite Z.land_ones by lia.
  destruct (Z.eqb_spec i j) as [->|Hne].
  - rewrite Z.shiftr_shiftl_l, Z.sub_diag, Z.shiftl_0_r by lia.
    apply Z.mod_small. lia.
  - destruct (Z.lt_ge_cases i j).
    + rewrite Z.shiftr_shiftl_l by lia.
      rewrite Z.shiftl_mul_pow2 by lia.
      replace (8 * j - 8 * i) with (8 + 8 * (j - i - 1)) by lia.
      rewrite Z.pow_add_r by lia.
      rewrite Z.mul_assoc, (Z.mul_comm v), <- Z.mul_assoc.
      by rewrite Z.mul_comm, Z.mod_mul.
    + rewrite Z.shiftr_shiftl_r by lia.
      rewrite Z.shiftr_div_pow2 by lia.
      rewrite Z.div_small; [done|].
      split; [lia|].
      apply Z.lt_le_trans with (2 ^ 8); [simpl; lia|].
      apply Z.pow_le_mono_r; lia.
Qed.

Lemma key_byte_pack6 i c5 c4 c3 c2 c1 c0 :
  0 <= c5 < 256 -> 0 <= c4 < 256 -> 0 <= c3 < 256 ->
  0 <= c2 < 256 -> 0 <= c1 < 256 -> 0 <= c0 < 256 -> 0 <= i ->
  key_byte i (pack6 c5 c4 c3 c2 c1 c0)
  = if i =? 5 then c5 else if i =? 4 then c4 else if i =? 3 then c3
    else if i =? 2 then c2 else if i =? 1 then c1 else if i =? 0 then c0 else 0.
Proof.
  intros H5 H4 H3 H2 H1 H0 Hi. unfold pack6.
  rewrite !key_byte_lor.
  change (Z.shiftl c5 40) with (Z.shiftl c5 (8 * 5)).
  change (Z.shiftl c4 32) with (Z.shiftl c4 (8 * 4)).
  change (Z.shiftl c3 24) with (Z.shiftl c3 (8 * 3)).
  change (Z.shiftl c2 16) with (Z.shiftl c2 (8 * 2)).
  change (Z.shiftl c1 8) with (Z.shiftl c1 (8 * 1)).
  change (Z.shiftl c0 0) with (Z.shiftl c0 (8 * 0)).
  rewrite (key_byte_shiftl i 5 c5), (key_byte_shiftl i 4 c4),
    (key_byte_shiftl i 3 c3), (key_byte_shiftl i 2 c2),
    (key_byte_shiftl i 1 c1), (key_byte_shiftl i 0 c0) by lia.
  replace (key_byte i 0) with 0 by (unfold key_byte; by rewrite Z.shiftr_0_l).
  repeat match goal with |- context [i =? ?k] => destruct (Z.eqb_spec i k) end;
    subst; try lia; rewrite ?Z.lor_0_l, ?Z.lor_0_r; reflexivity.
Qed.

Lemma pack6_inj c5 c4 c3 c2 c1 c0 e5 e4 e3 e2 e1 e0 :
  0 <= c5 < 256 -> 0 <= c4 < 256 -> 0 <= c3 < 256 ->
  0 <= c2 < 256 -> 0 <= c1 < 256 -> 0 <= c0 < 256 ->
  0 <= e5 < 256 -> 0 <= e4 < 256 -> 0 <= e3 < 256 ->
  0 <= e2 < 256 -> 0 <= e1 < 256 -> 0 <= e0 < 256 ->
  pack6 c5 c4 c3 c2 c1 c0 = pack6 e5 e4 e3 e2 e1 e0 ->
  c5 = e5 /\ c4 = e4 /\ c3 = e3 /\ c2 = e2 /\ c1 = e1 /\ c0 = e0.
Proof.
  intros ? ? ? ? ? ? ? ? ? ? ? ? E.
  pose proof (f_equal (key_byte 5) E) as E5.
  pose proof (f_equal (key_byte 4) E) as E4.
  pose proof (f_equal (key_byte 3) E) as E3.
  pose proof (f_equal (key_byte 2) E) as E2.
  pose proof (f_equal (key_byte 1) E) as E1.
  pose proof (f_equal (key_byte 0) E) as E0.
  rewrite !key_byte_pack6 in E5, E4, E3, E2, E1, E0 by lia.
  simpl in *. done.
Qed.

Lemma mslot_range mask word i : 0 <= mslot mask word i < 256.
Proof.
  unfold mslot. pose proof (u8_range (at_ word i)).
  destruct (_ && _); lia.
Qed.

Lemma pslot_range word i : 0 <= pslot word i < 256.
Proof.
  unfold pslot. pose proof (u8_range (at_ word i)).
  destruct (_ <? _)%nat; lia.
Qed.

Lemma mask_of_bits_range b5 b4 b3 b2 b1 b0 :
  0 <= mask_of_bits b5 b4 b3 b2 b1 b0 < 64.
Proof. destruct b5, b4, b3, b2, b1, b0; vm_compute; intuition discriminate. Qed.

Lemma mbit_mask_of_bits b5 b4 b3 b2 b1 b0 :
  let m := mask_of_bits b5 b4 b3 b2 b1 b0 in
  mbit m 5 = b5 /\ mbit m 4 = b4 /\ mbit m 3 = b3
  /\ mbit m 2 = b2 /\ mbit m 1 = b1 /\ mbit m 0 = b0.
Proof. destruct b5, b4, b3, b2, b1, b0; vm_compute; intuition. Qed.

(** With every bit set the masked key is the key of the whole word. *)
Lemma getKey_mask_63 word : getKey_mask 63 word = getKey word.
Proof.
  rewrite getKey_mask_pack, getKey_pack. unfold mslot, pslot.
  change (mbit 63 (Z.of_nat 5)) with true. change (mbit 63 (Z.of_nat 4)) with true.
  change (mbit 63 (Z.of_nat 3)) with true. change (mbit 63 (Z.of_nat 2)) with true.
  change (mbit 63 (Z.of_nat 1)) with true. change (mbit 63 (Z.of_nat 0)) with true.
  by rewrite !andb_true_r.
Qed.




Lemma at_lookup word i : at_ word i = default x00 (word !! i).
Proof. unfold at_. apply nth_lookup. Qed.

Lemma slot_weaken mask word pattern i j :
  length word = length pattern ->
  mslot mask word i = pslot pattern i ->
  (if (i <? length word)%nat && (mbit mask (Z.of_nat i) && negb (i =? j)%nat)
   then u8 (at_ word i) else 0)
  = pslot (<[j := x00]> pattern) i.
Proof.
  unfold mslot, pslot. intros Hlen E. rewrite length_insert, Hlen in *.
  destruct (Nat.eqb_spec i j) as [->|Hne]; simpl.
  - rewrite andb_false_r, (at_lookup (<[j := x00]> pattern)).
    destruct (Nat.ltb_spec j (length pattern)) as [Hj|Hj]; [|done].
    by rewrite list_lookup_insert_eq.
  - rewrite andb_true_r, (at_lookup (<[j := x00]> pattern)).
    rewrite list_lookup_insert_ne by done. by rewrite <- at_lookup.
Qed.

(** Turning a letter of the pattern into the null character keeps every
    word of the bucket: the mask that packed the word into the stricter key,
    with the bit of that position cleared, packs it into the looser key. *)
Lemma getKey_unknown_weakens mask word pattern j :
  length word = length pattern ->
  getKey_mask mask word = getKey pattern ->
  exists mask', 0 <= mask' < 64
    /\ getKey_mask mask' word = getKey (<[j := x00]> pattern).
Proof.
  intros Hlen E. rewrite getKey_mask_pack, getKey_pack in E.
  apply pack6_inj in E; auto using mslot_range, pslot_range.
  destruct E as (E5 & E4 & E3 & E2 & E1 & E0).
  set (b i := mbit mask (Z.of_nat i) && negb (i =? j)%nat).
  exists (mask_of_bits (b 5%nat) (b 4%nat) (b 3%nat) (b 2%nat) (b 1%nat) (b 0%nat)).
  split; [apply mask_of_bits_range|].
  rewrite getKey_mask_pack, getKey_pack.
  destruct (mbit_mask_of_bits (b 5%nat) (b 4%nat) (b 3%nat) (b 2%nat) (b 1%nat) (b 0%nat))
    as (B5 & B4 & B3 & B2 & B1 & B0).
  unfold mslot at 1 2 3 4 5 6.
  change (Z.of_nat 5) with 5; change (Z.of_nat 4) with 4;
    change (Z.of_nat 3) with 3; change (Z.of_nat 2) with 2;
    change (Z.of_nat 1) with 1; change (Z.of_nat 0) with 0.
  rewrite B5, B4, B3, B2, B1, B0. unfold b.
  by rewrite !(slot_weaken mask word pattern _ j Hlen) by done.
Qed.

(** ** What loading puts into the index *)

Lemma elem_of_registrations id word index key :
  id ∈ registrations word index key
  <-> id = index /\ exists mask, 0 <= mask < 64 /\ getKey_mask mask word = key.
Proof.
  unfold registrations. rewrite list_elem_of_bind. split.
  - intros (mask & Hid & Hmask). apply elem_of_seqZ in Hmask.
    destruct (decide _) as [E|]; [|by apply elem_of_nil in Hid].
    apply list_elem_of_singleton in Hid. split; [done|]. exists mask. split; [lia|done].
  - intros (-> & mask & Hmask & E). exists mask. split.
    + rewrite decide_True by done. by apply list_elem_of_singleton.
    + apply elem_of_seqZ. lia.
Qed.

Lemma expected_bucket_app len key start ws ws' :
  expected_bucket len key start (ws ++ ws')
  = expected_bucket len key start ws
    ++ expected_bucket len key (start + length ws) ws'.
Proof.
  revert start. induction ws as [|w ws IH]; intros start; simpl.
  - by rewrite Nat.add_0_r.
  - rewrite IH, <- app_assoc.
    by replace (S start + length ws)%nat with (start + S (length ws))%nat by lia.
Qed.

Lemma elem_of_expected_bucket id len key start ws :
  id ∈ expected_bucket len key start ws
  <-> exists k w, ws !! k = Some w /\ length w = len
        /\ id = u16 (Z.of_nat (start + k))
        /\ exists mask, 0 <= mask < 64 /\ getKey_mask mask w = key.
Proof.
  revert start. induction ws as [|w ws IH]; intros start; simpl.
  - split; [by intros ?%elem_of_nil | by intros (k & ? & ? & _)].
  - rewrite elem_of_app, IH. split.
    + intros [Hid|(k & w' & Hk & Hlen & -> & Hmask)].
      * destruct (decide (length w = len)) as [Hlen|]; [|by apply elem_of_nil in Hid].
        apply elem_of_registrations in Hid as [-> Hmask].
        exists 0%nat, w. by rewrite Nat.add_0_r.
      * exists (S k), w'. repeat split; try done. f_equal. lia.
    + intros (k & w' & Hk & Hlen & -> & Hmask). destruct k as [|k].
      * left. simpl in Hk. injection Hk as ->. rewrite decide_True by done.
        apply elem_of_registrations. by rewrite Nat.add_0_r.
      * right. exists k, w'. repeat split; try done. f_equal. lia.
Qed.

Lemma bucket_push table k index key :
  bucket (push_bucket table k index) key
  = bucket table key ++ (if decide (k = key) then [index] else []).
Proof.
  unfold push_bucket, bucket at 1. destruct (decide (k = key)) as [->|Hne].
  - by rewrite lookup_insert_eq.
  - rewrite lookup_insert_ne by done. by rewrite app_nil_r.
Qed.

Lemma bucket_add_masks word index table masks key :
  bucket (add_masks word index table masks) key
  = bucket table key
    ++ (mask ← masks; if decide (getKey_mask mask word = key) then [index] else []).
Proof.
  revert table. induction masks as [|mask masks IH]; intros table; simpl.
  - by rewrite app_nil_r.
  - unfold add_masks in *. simpl. rewrite IH, bucket_push. by rewrite <- app_assoc.
Qed.

(** ** Loading *)

#[local] Arguments add_masks : simpl never.
#[local] Arguments expected_bucket : simpl nomatch.
#[local] Arguments registrations : simpl never.

Section Loading.
Context `{Header}.

Lemma index_exact_empty tree path : index_exact (empty_dictionary tree path).
Proof.
  split; simpl.
  - apply length_replicate.
  - intros len table key [-> _]%lookup_replicate. reflexivity.
  - reflexivity.
  - constructor.
Qed.

Lemma index_exact_inv d : index_exact d -> index_inv d.
Proof.
  intros [Hs Hb Hc Hw]. split; try done.
  - intros len table key Ht. by rewrite (Hb len table key Ht).
  - intros pattern ids. rewrite Hc. by rewrite lookup_empty.
Qed.

(** [add_entry] succeeds exactly when the cleaned word indexes inside the
    array; it appends the word and registers its identifier. *)
Lemma add_entry_Ok d nextWord explanation :
  let clean := toupper (cleanString nextWord) in
  (length clean < length (_fastSearch d))%nat ->
  exists d', add_entry d nextWord explanation = Ok d'
    /\ _allWords d' = _allWords d ++ [clean]
    /\ _dirtyDict d' = emplace (_dirtyDict d) clean nextWord
    /\ _explanationDict d' = emplace (_explanationDict d) clean explanation
    /\ _cacheSearchMap d' = _cacheSearchMap d
    /\ exists table,
         _fastSearch d !! length clean = Some table
         /\ _fastSearch d' =
              <[length clean :=
                  add_masks clean (u16 (Z.of_nat (length (_allWords d))))
                            table (seqZ 0 64)]> (_fastSearch d).
Proof.
  intros clean Hlen. unfold add_entry, addToFastSearch. fold clean. simpl.
  destruct (lookup_lt_is_Some_2 (_fastSearch d) (length clean) Hlen) as [table Ht].
  rewrite Ht. simpl. eexists. split; [reflexivity|]. simpl. eauto 10.
Qed.

Lemma add_entry_Undefined d nextWord explanation :
  (length (_fastSearch d) <= length (toupper (cleanString nextWord)))%nat ->
  add_entry d nextWord explanation = Undefined.
Proof.
  intros Hlen. unfold add_entry, addToFastSearch. simpl.
  by rewrite (lookup_ge_None_2 _ _ Hlen).
Qed.

Lemma add_entry_inv d nextWord explanation d' :
  add_entry d nextWord explanation = Ok d' ->
  (length (toupper (cleanString nextWord)) < length (_fastSearch d))%nat.
Proof.
  intros E.
  destruct (Nat.lt_ge_cases (length (toupper (cleanString nextWord)))
              (length (_fastSearch d))) as [|Hge]; [done|].
  by rewrite add_entry_Undefined in E.
Qed.

Lemma add_entry_exact d nextWord explanation d' :
  index_exact d ->
  add_entry d nextWord explanation = Ok d' ->
  index_exact d'.
Proof.
  intros [Hs Hb Hc Hw] E.
  pose proof (add_entry_inv _ _ _ _ E) as Hlen.
  destruct (add_entry_Ok d nextWord explanation Hlen)
    as (d2 & E2 & Hwords & _ & _ & Hcache & table & Ht & Hfast).
  rewrite E in E2. injection E2 as <-.
  set (clean := toupper (cleanString nextWord)) in *.
  split.
  - by rewrite Hfast, length_insert.
  - intros len table' key Ht'. rewrite Hwords, expected_bucket_app. simpl.
    rewrite app_nil_r. rewrite Hfast in Ht'.
    destruct (decide (length clean = len)) as [<-|Hne].
    + rewrite list_lookup_insert_eq in Ht' by done. injection Ht' as <-.
      rewrite bucket_add_masks, (Hb _ _ key Ht). reflexivity.
    + rewrite list_lookup_insert_ne in Ht' by done.
      rewrite (Hb _ _ key Ht'). by rewrite app_nil_r.
  - by rewrite Hcache.
  - rewrite Hwords. apply Forall_app. split; [done|].
    constructor; [|constructor]. fold clean. lia.
Qed.

Lemma add_entries_exact entries d d' :
  index_exact d -> add_entries entries d = Ok d' -> index_exact d'.
Proof.
  revert d. induction entries as [|[w e] entries IH]; intros d Hd E; simpl in E.
  - by injection E as <-.
  - destruct (add_entry d w e) as [d1| |] eqn:E1; try discriminate.
    simpl in E. eauto using add_entry_exact.
Qed.

(** The loop is its body applied to the entries it reads. *)
Lemma load_loop_entries fuel fin nextWord explanation d :
  load_loop fuel fin nextWord explanation d
  = add_entries (read_entries fuel fin nextWord explanation) d.
Proof.
  revert fin nextWord explanation d.
  induction fuel as [|fuel IH]; intros fin nextWord explanation d; simpl; [done|].
  destruct (getline fin nextWord TAB) as [fin1 w].
  destruct (failbit fin1); [done|].
  destruct (getline fin1 explanation NEWLINE) as [fin2 e]. simpl.
  destruct (add_entry d (dosToWinCode w) (dosToWinCode e)); simpl; auto.
Qed.

Lemma loadDictionary_entries file d0 :
  loadDictionary file d0
  = add_entries (from_option entries_of_file [] file) (reset d0).
Proof.
  unfold loadDictionary, entries_of_file. destruct file as [content|]; [|done].
  apply load_loop_entries.
Qed.

Lemma loadDictionary_exact file d0 d :
  loadDictionary file d0 = Ok d -> index_exact d.
Proof.
  rewrite loadDictionary_entries. apply add_entries_exact, index_exact_empty.
Qed.

Lemma add_entry_effect d nextWord explanation d' :
  add_entry d nextWord explanation = Ok d' ->
  let clean := toupper (cleanString nextWord) in
  _allWords d' = _allWords d ++ [clean]
  /\ _dirtyDict d' = emplace (_dirtyDict d) clean nextWord
  /\ _explanationDict d' = emplace (_explanationDict d) clean explanation.
Proof.
  intros E. pose proof (add_entry_inv _ _ _ _ E) as Hlen.
  destruct (add_entry_Ok d nextWord explanation Hlen) as (d2 & E2 & Hw & Hd & He & _).
  rewrite E in E2. injection E2 as <-. done.
Qed.

(** The word table lists the cleaned word of every entry, in order. *)
Lemma add_entries_words entries d d' :
  add_entries entries d = Ok d' ->
  _allWords d' = _allWords d ++ map (fun e => toupper (cleanString e.1)) entries.
Proof.
  revert d. induction entries as [|[w e] entries IH]; intros d E; simpl in E.
  - injection E as <-. by rewrite app_nil_r.
  - destruct (add_entry d w e) as [d1| |] eqn:E1; try discriminate. simpl in E.
    apply add_entry_effect in E1 as (Hw & _). rewrite (IH _ E), Hw.
    by rewrite <- app_assoc.
Qed.

(** Loading returns when every cleaned word indexes inside the array. *)
Lemma add_entries_returns entries d :
  length (_fastSearch d) = LONGEST_WORD ->
  Forall (fun e => (length (toupper (cleanString e.1)) < LONGEST_WORD)%nat) entries ->
  exists d', add_entries entries d = Ok d'.
Proof.
  intros Hsize Hall. revert d Hsize.
  induction Hall as [|[w e] entries Hw _ IH]; intros d Hsize; simpl; [eauto|].
  simpl in Hw. rewrite <- Hsize in Hw.
  destruct (add_entry_Ok d w e Hw) as (d1 & -> & _ & _ & _ & _ & table & _ & Hfast).
  simpl. apply IH. by rewrite Hfast, length_insert.
Qed.

Lemma loadDictionary_returns file d0 :
  Forall (fun e => (length (toupper (cleanString e.1)) < LONGEST_WORD)%nat)
         (from_option entries_of_file [] file) ->
  exists d, loadDictionary file d0 = Ok d.
Proof.
  intros Hall. rewrite loadDictionary_entries.
  apply add_entries_returns; [|done]. simpl. apply length_replicate.
Qed.

(** *** The fuel of the loop is never used up *)

Lemma split_delim_length delim s line after :
  split_delim delim s = (line, after) ->
  match after with
  | Some rest => (length rest < length s)%nat
  | None => line = s
  end.
Proof.
  revert line after. induction s as [|c s IH]; intros line after; simpl.
  - by intros [= <- <-].
  - destruct (decide (c = delim)).
    + intros [= <- <-]. simpl. lia.
    + destruct (split_delim delim s) as [l a]. intros [= <- <-].
      specialize (IH l a eq_refl). destruct a; simpl; [lia | by f_equal].
Qed.

Lemma getline_length fin s delim fin' s' :
  getline fin s delim = (fin', s') ->
  (length (buf fin') <= length (buf fin))%nat
  /\ (failbit fin' = false -> good fin = true ->
      (length (buf fin') < length (buf fin))%nat).
Proof.
  unfold getline. destruct (good fin).
  - destruct (split_delim delim (buf fin)) as [line after] eqn:E.
    apply split_delim_length in E. destruct after as [rest|].
    + intros [= <- <-]. simpl. lia.
    + intros [= <- <-]. simpl. subst line. split; [lia|].
      intros Hf _. destruct (buf fin); [|simpl; lia].
      by rewrite bool_decide_eq_true_2 in Hf.
  - intros [= <- <-]. simpl. split; [lia | done].
Qed.

Lemma getline_not_good fin s delim :
  good fin = false -> failbit (getline fin s delim).1 = true.
Proof. unfold getline. by intros ->. Qed.

(** More fuel than characters left never changes what the loop reads. *)
Lemma read_entries_fuel fuel fuel' fin nextWord explanation :
  (length (buf fin) < fuel)%nat -> (length (buf fin) < fuel')%nat ->
  read_entries fuel fin nextWord explanation
  = read_entries fuel' fin nextWord explanation.
Proof.
  revert fuel' fin nextWord explanation.
  induction fuel as [|fuel IH]; intros fuel' fin nextWord explanation Hf Hf'; [lia|].
  destruct fuel' as [|fuel']; [lia|]. simpl.
  destruct (getline fin nextWord TAB) as [fin1 w] eqn:E1.
  destruct (failbit fin1) eqn:Hfail; [done|].
  destruct (getline fin1 explanation NEWLINE) as [fin2 e] eqn:E2.
  f_equal.
  pose proof (getline_length _ _ _ _ _ E1) as [_ H1].
  pose proof (getline_length _ _ _ _ _ E2) as [H2 _].
  assert (Hgood : good fin = true).
  { destruct (good fin) eqn:Hg; [done|].
    pose proof (getline_not_good fin nextWord TAB Hg) as Hn.
    rewrite E1 in Hn. simpl in Hn. congruence. }
  specialize (H1 Hfail Hgood). apply IH; lia.
Qed.

Lemma load_loop_fuel fuel content nextWord explanation d :
  (length content < fuel)%nat ->
  load_loop fuel {| buf := content; eofbit := false; failbit := false |}
            nextWord explanation d
  = load_loop (S (length content))
              {| buf := content; eofbit := false; failbit := false |}
              nextWord explanation d.
Proof.
  intros Hf. rewrite !load_loop_entries.
  f_equal. apply read_entries_fuel; simpl; lia.
Qed.

End Loading.

(** ** Shuffling only permutes *)

Lemma swap_Permutation {A} (l : list A) i j : swap l i j ≡ₚ l.
Proof.
  unfold swap. destruct (l !! i) as [x|] eqn:Ei; [|done].
  destruct (l !! j) as [y|] eqn:Ej; [|done].
  by apply Permutation_insert_swap.
Qed.

Lemma random_shuffle_Permutation {A} rand (l : list A) :
  random_shuffle rand l ≡ₚ l.
Proof.
  unfold random_shuffle. generalize (seq 1 (length l - 1)). intros steps.
  revert l. induction steps as [|i steps IH]; intros l; simpl; [done|].
  by rewrite IH, swap_Permutation.
Qed.

Lemma bucket_shuffled (g : Z -> nat -> nat) table key :
  bucket (map_imap (fun key ids => Some (random_shuffle (g key) ids)) table) key
  ≡ₚ bucket table key.
Proof.
  unfold bucket. rewrite map_lookup_imap.
  destruct (table !! key) as [ids|]; simpl; [|done].
  apply random_shuffle_Permutation.
Qed.

(** ** The comparison of the long branch *)

Lemma char_at_Ok s i c : char_at s i = Ok c -> c = default x00 (s !! i).
Proof.
  unfold char_at. destruct (s !! i); simpl.
  - by intros [= ->].
  - destruct (decide _); [by intros [= ->] | done].
Qed.

Lemma char_at_in_range s i : (i <= length s)%nat -> exists c, char_at s i = Ok c.
Proof.
  intros Hi. unfold char_at. destruct (s !! i) eqn:E; [eauto|].
  apply lookup_ge_None in E. rewrite decide_True by lia. eauto.
Qed.

Lemma isPossible_Ok pattern contender filledIndices b :
  isPossible pattern contender filledIndices = Ok b ->
  b = agrees pattern contender filledIndices.
Proof.
  induction filledIndices as [|i rest IH]; simpl.
  - by intros [= <-].
  - destruct (char_at pattern i) as [p| |] eqn:Ep; try done.
    destruct (char_at contender i) as [c| |] eqn:Ec; try done. simpl.
    apply char_at_Ok in Ep, Ec. rewrite <- Ep, <- Ec.
    destruct (decide (p ≠ c)) as [Hne|Heq].
    + intros [= <-]. by rewrite bool_decide_eq_false_2.
    + intros E. rewrite bool_decide_eq_true_2 by (by destruct (decide (p = c))).
      by apply IH.
Qed.

Lemma isPossible_in_range pattern contender filledIndices :
  Forall (fun i => (i <= length pattern)%nat /\ (i <= length contender)%nat)
         filledIndices ->
  exists b, isPossible pattern contender filledIndices = Ok b.
Proof.
  induction 1 as [|i rest [Hp Hc] _ IH]; simpl; [eauto|].
  destruct (char_at_in_range pattern i Hp) as [p ->].
  destruct (char_at_in_range contender i Hc) as [c ->]. simpl.
  destruct (decide (p ≠ c)); eauto.
Qed.

Section Queries.
Context `{Header}.

Lemma filled_indices_range pattern :
  Forall (fun i => (i < length pattern)%nat) (filled_indices pattern).
Proof.
  unfold filled_indices. apply Forall_forall. intros i Hi.
  apply list_elem_of_filter in Hi as [_ Hi]. apply elem_of_seq in Hi. lia.
Qed.


Lemma view_ids_cached d pattern ids :
  _cacheSearchMap d !! pattern = Some ids ->
  view_ids d {| pat_size := length ids; pat_begin := pattern |} = ids.
Proof. intros E. unfold view_ids. simpl. rewrite E. simpl. by apply take_ge. Qed.

Lemma verify_Ok d pattern candidates ids :
  verify d pattern (filled_indices pattern) candidates = Ok ids ->
  ids = filter (fun id => passes (_allWords d) pattern id) candidates.
Proof.
  revert ids. induction candidates as [|id rest IH]; intros ids; simpl.
  - by intros [= <-].
  - unfold getFromIndex. rewrite filter_cons.
    destruct (_allWords d !! Z.to_nat id) as [word|] eqn:Ew; simpl; [|done].
    destruct (isPossible pattern word (filled_indices pattern)) as [keep| |] eqn:Ek;
      simpl; try done.
    destruct (verify d pattern (filled_indices pattern) rest) as [kept| |] eqn:Ev;
      simpl; try done.
    intros [= <-]. apply isPossible_Ok in Ek.
    assert (Hp : passes (_allWords d) pattern id = keep)
      by (unfold passes; by rewrite Ew).
    rewrite (IH kept eq_refl), Hp.
    clear Ek Hp. by destruct keep.
Qed.

Lemma verify_in_range d pattern candidates :
  Forall (fun id => exists word,
            _allWords d !! Z.to_nat id = Some word
            /\ (filled_indices pattern = [] \/ length word = length pattern))
         candidates ->
  exists ids, verify d pattern (filled_indices pattern) candidates = Ok ids.
Proof.
  induction 1 as [|id rest (word & Ew & Hw) _ [kept IH]]; simpl; [eauto|].
  unfold getFromIndex. rewrite Ew. simpl.
  assert (exists keep, isPossible pattern word (filled_indices pattern) = Ok keep)
    as [keep ->].
  { destruct Hw as [->|Hlen]; [simpl; eauto|].
    apply isPossible_in_range. eapply Forall_impl; [apply filled_indices_range|].
    simpl. lia. }
  simpl. rewrite IH. simpl. eauto.
Qed.

(** Every registered identifier resolves to some word of the table; within
    the capacity of [uint16_t] it resolves to the very word it was given to,
    which has the length of its table. *)
Lemma candidate_resolves id len key words :
  id ∈ expected_bucket len key 0 words ->
  is_Some (words !! Z.to_nat id)
  /\ (Z.of_nat (length words) <= 65536 ->
      exists word, words !! Z.to_nat id = Some word /\ length word = len).
Proof.
  intros (k & word & Hk & Hlen & -> & _)%elem_of_expected_bucket.
  pose proof (lookup_lt_Some _ _ _ Hk) as Hlt. simpl. unfold u16. split.
  - apply lookup_lt_is_Some.
    pose proof (Z.mod_le (Z.of_nat k) 65536).
    pose proof (Z.mod_pos_bound (Z.of_nat k) 65536). lia.
  - intros Hcap. exists word. rewrite Z.mod_small by lia.
    by rewrite Nat2Z.id.
Qed.

Lemma bucket_insert_self table key key' :
  bucket (<[key := bucket table key]> table) key' = bucket table key'.
Proof.
  unfold bucket at 1. destruct (decide (key = key')) as [->|Hne].
  - by rewrite lookup_insert_eq.
  - by rewrite lookup_insert_ne.
Qed.

(** The invariant survives a query that adds the cache entry [ids]. *)
Lemma index_inv_cache_insert d pattern table ids :
  index_inv d ->
  _fastSearch d !! length pattern = Some table ->
  ids ≡ₚ expected_answer (_allWords d) pattern ->
  index_inv
    (with_tables d (<[pattern := ids]> (_cacheSearchMap d))
       (<[length pattern := <[getKey pattern := bucket table (getKey pattern)]> table]>
          (_fastSearch d))).
Proof.
  intros [Hs Hb Hc Hw] Ht Hids. split; simpl; try done.
  - by rewrite length_insert.
  - intros len table' key Ht'.
    destruct (decide (length pattern = len)) as [<-|Hne].
    + rewrite list_lookup_insert_eq in Ht' by eauto using lookup_lt_Some.
      injection Ht' as <-. rewrite bucket_insert_self. by apply Hb.
    + rewrite list_lookup_insert_ne in Ht' by done. by apply Hb.
  - intros pattern' ids' E. destruct (decide (pattern = pattern')) as [<-|Hne].
    + rewrite lookup_insert_eq in E. injection E as <-. split; [|done].
      rewrite <- Hs. eauto using lookup_lt_Some.
    + rewrite lookup_insert_ne in E by done. by apply Hc.
Qed.

(** What a query returns, whenever it returns. *)
Lemma findPossible_Ok d pattern d' v :
  index_inv d ->
  findPossible d pattern = Ok (d', v) ->
  index_inv d'
  /\ _allWords d' = _allWords d
  /\ _cacheSearchMap d' !! pattern = Some (view_ids d' v)
  /\ pat_begin v = pattern
  /\ pat_size v = length (view_ids d' v)
  /\ view_ids d' v ≡ₚ expected_answer (_allWords d) pattern
  /\ (length pattern < LONGEST_WORD)%nat.
Proof.
  intros Hinv. unfold findPossible.
  destruct (_cacheSearchMap d !! pattern) as [cached|] eqn:Ec.
  { intros [= <- <-]. rewrite (view_ids_cached _ _ _ Ec).
    destruct (inv_cache d Hinv _ _ Ec). done. }
  destruct (_fastSearch d !! length pattern) as [table|] eqn:Et; [|done].
  assert (Hlen : (length pattern < LONGEST_WORD)%nat).
  { rewrite <- (inv_size d Hinv). eauto using lookup_lt_Some. }
  assert (Hb : bucket table (getKey pattern)
               ≡ₚ expected_bucket (length pattern) (getKey pattern) 0 (_allWords d))
    by (by apply (inv_bucket d Hinv)).
  destruct (Nat.leb_spec (length pattern) 6) as [Hshort|Hlong].
  - intros [= <- <-].
    assert (Hans : bucket table (getKey pattern) ≡ₚ expected_answer (_allWords d) pattern).
    { unfold expected_answer. by rewrite (proj2 (Nat.leb_le _ _) Hshort). }
    rewrite view_ids_cached by (simpl; apply lookup_insert_eq).
    split_and!; try done.
    + by apply index_inv_cache_insert.
    + simpl. apply lookup_insert_eq.
  - destruct (verify d pattern (filled_indices pattern) (bucket table (getKey pattern)))
      as [ids| |] eqn:Ev; simpl; try done.
    intros [= <- <-]. apply verify_Ok in Ev.
    assert (Hans : ids ≡ₚ expected_answer (_allWords d) pattern).
    { unfold expected_answer. rewrite (proj2 (Nat.leb_gt _ _) Hlong).
      rewrite Ev. by rewrite Hb. }
    rewrite view_ids_cached by (simpl; apply lookup_insert_eq).
    split_and!; try done.
    + by apply index_inv_cache_insert.
    + simpl. apply lookup_insert_eq.
Qed.

(** A query returns for every pattern shorter than the array, provided that
    above six letters the identifiers resolve to words of the right length
    (the dictionary is within capacity) or nothing has to be compared. *)
Lemma findPossible_returns d pattern :
  index_inv d ->
  (length pattern < LONGEST_WORD)%nat ->
  ((6 < length pattern)%nat ->
   within_capacity d \/ filled_indices pattern = []) ->
  exists d' v, findPossible d pattern = Ok (d', v).
Proof.
  intros Hinv Hlen Hlong. unfold findPossible.
  destruct (_cacheSearchMap d !! pattern) as [cached|] eqn:Ec; [eauto|].
  rewrite <- (inv_size d Hinv) in Hlen.
  destruct (lookup_lt_is_Some_2 _ _ Hlen) as [table Et]. rewrite Et.
  destruct (Nat.leb_spec (length pattern) 6) as [Hshort|Hgt]; [eauto|].
  destruct (verify_in_range d pattern (bucket table (getKey pattern))) as [ids ->];
    [|simpl; eauto].
  apply Forall_forall. intros id Hid.
  rewrite (inv_bucket d Hinv _ _ (getKey pattern) Et) in Hid.
  apply candidate_resolves in Hid as [[word Ew] Hcap].
  destruct (Hlong Hgt) as [Hc| ->].
  - destruct (Hcap Hc) as (word' & Ew' & Hl). exists word'. auto.
  - exists word. auto.
Qed.

(** Beyond the array the access is out of bounds. *)
Lemma findPossible_out_of_bounds d pattern :
  index_inv d ->
  (LONGEST_WORD <= length pattern)%nat ->
  findPossible d pattern = Undefined.
Proof.
  intros Hinv Hlen. unfold findPossible.
  destruct (_cacheSearchMap d !! pattern) as [cached|] eqn:Ec.
  { destruct (inv_cache d Hinv _ _ Ec). lia. }
  rewrite lookup_ge_None_2; [done|]. by rewrite (inv_size d Hinv).
Qed.

Lemma shuffle_inv rnd d : index_inv d -> index_inv (shuffle rnd d).
Proof.
  intros [Hs Hb Hc Hw]. split; simpl; try done.
  - by rewrite length_imap.
  - intros len table' key Ht'. rewrite list_lookup_imap in Ht'.
    destruct (_fastSearch d !! len) as [table|] eqn:Et; [|done].
    simpl in Ht'. injection Ht' as <-. rewrite <- (Hb len table key Et).
    destruct (len <? LONGEST_WORD)%nat; [|done]. apply bucket_shuffled.
  - intros pattern ids E. rewrite map_lookup_imap in E.
    destruct (_cacheSearchMap d !! pattern) as [ids0|] eqn:E0; [|done].
    simpl in E. injection E as <-. destruct (Hc _ _ E0) as [Hl Hp].
    split; [done|]. by rewrite random_shuffle_Permutation.
Qed.

Lemma call_inv d d' : index_inv d -> call d d' -> index_inv d'.
Proof.
  intros Hinv Hc. revert Hinv. destruct Hc as [rnd d0|d0 pattern d1 v E]; intros Hinv.
  - by apply shuffle_inv.
  - by apply (findPossible_Ok d0 pattern d1 v).
Qed.

Lemma reachable_inv d : reachable d -> index_inv d.
Proof.
  induction 1 as [file d0 d E|d d' _ IH Hc].
  - by apply index_exact_inv, (loadDictionary_exact file d0).
  - by apply (call_inv d).
Qed.

End Queries.

Lemma sample_loaded :
  @loadDictionary cp1251 (Some sample_file) (@empty_dictionary cp1251 ∅ [])
  = Ok sample_dictionary.
Proof. vm_compute. reflexivity. Qed.

Lemma sample_reachable : @reachable cp1251 sample_dictionary.
Proof. exact (@reach_load cp1251 _ _ _ sample_loaded). Qed.

(** *** Short words are registered several times under one key *)





(** *** How often a word sits in the bucket of the key zero *)







(** ** Properties of the queries *)

Section QueryTheorems.
Context `{Header}.

Lemma agrees_refl pattern filledIndices : agrees pattern pattern filledIndices = true.
Proof.
  unfold agrees. apply forallb_forall. intros i _. by apply bool_decide_eq_true_2.
Qed.

(** C1.  In every state the dictionary goes through, a query whose pattern
    is a loaded word returns, and the returned view contains the identifier
    of that word.  Every loaded word is shorter than [LONGEST_WORD]; above
    six letters the verification resolves identifiers through the word
    table, which needs the table to stay within the capacity of a 16-bit
    identifier. *)
Theorem findPossible_word_itself (d : Dictionary) (k : nat) (word : list byte) :
  reachable d ->
  _allWords d !! k = Some word ->
  ((6 < length word)%nat -> within_capacity d) ->
  (length word < LONGEST_WORD)%nat
  /\ exists d' v, findPossible d word = Ok (d', v)
       /\ u16 (Z.of_nat k) ∈ view_ids d' v.
Proof.
  intros Hinv%reachable_inv Hk Hcap.
  assert (Hlen : (length word < LONGEST_WORD)%nat).
  { pose proof (inv_words d Hinv) as Hw.
    by apply (proj1 (Forall_lookup _ _) Hw k word). }
  split; [done|].
  destruct (findPossible_returns d word Hinv Hlen) as (d' & v & E).
  { intros Hl. left. auto. }
  exists d', v. split; [done|].
  destruct (findPossible_Ok d word d' v Hinv E) as (_ & _ & _ & _ & _ & Hans & _).
  rewrite Hans. unfold expected_answer.
  assert (Hb : u16 (Z.of_nat k)
               ∈ expected_bucket (length word) (getKey word) 0 (_allWords d)).
  { apply elem_of_expected_bucket. exists k, word. split_and!; try done.
    exists 63. split; [lia|]. apply getKey_mask_63. }
  destruct (Nat.leb_spec (length word) 6) as [Hshort|Hlong]; [done|].
  apply list_elem_of_filter. split; [|done].
  specialize (Hcap Hlong). unfold within_capacity in Hcap.
  pose proof (lookup_lt_Some _ _ _ Hk).
  unfold passes, u16. rewrite Z.mod_small by lia. rewrite Nat2Z.id, Hk.
  by rewrite agrees_refl.
Qed.

(** Cleaned words hold no null character, as soon as the null character is
    not alphabetic. *)
Lemma canonical_without_null nextWord :
  32 < CYRILLIC_A -> x00 ∉ toupper (cleanString nextWord).
Proof.
  intros HA. unfold toupper. intros Hin.
  apply list_elem_of_fmap in Hin as (c & Hc & Hin).
  assert (Halpha : isalpha c = true).
  { clear Hc. induction nextWord as [|c' rest IH]; simpl in Hin.
    - by apply elem_of_nil in Hin.
    - destruct (isalpha c') eqn:E; [|auto].
      apply elem_of_cons in Hin as [->|Hin]; auto. }
  unfold isalpha in Halpha. unfold toupper_char in Hc.
  pose proof (u8_range c). apply (f_equal u8) in Hc. change (u8 x00) with 0 in Hc.
  destruct (CYRILLIC_A <=? u8 c) eqn:E.
  - rewrite u8_char_of, Z.mod_small in Hc by lia. lia.
  - lia.
Qed.

Lemma reachable_words d :
  reachable d ->
  exists entries : list (list byte * list byte),
    _allWords d = map (fun e => toupper (cleanString e.1)) entries.
Proof.
  induction 1 as [file d0 d E|d d' Hd [entries IH] Hc].
  - rewrite loadDictionary_entries in E. apply add_entries_words in E.
    simpl in E. eauto.
  - exists entries. rewrite <- IH. apply reachable_inv in Hd. revert Hd.
    destruct Hc as [rnd d0|d0 pattern d1 v E]; intros Hd; [done|].
    by apply (findPossible_Ok d0 pattern d1 v).
Qed.

Lemma loaded_words_without_null d :
  reachable d -> 32 < CYRILLIC_A ->
  Forall (fun word => x00 ∉ word) (_allWords d).
Proof.
  intros [entries ->]%reachable_words HA. apply Forall_fmap, Forall_forall.
  intros e _. by apply canonical_without_null.
Qed.


(** The hypothesis on the placeholder cannot be dropped: [findPossible]
    packs every character of the pattern into the key, placeholders
    included, while [addToFastSearch] leaves a zero in the positions a mask
    hides.  With a question mark as placeholder the all-unknown query on
    the sample dictionary finds the table of length 2 but no bucket. *)
Lemma placeholder_other_than_null :
  @loadDictionary with_question_mark (Some sample_file)
    (@empty_dictionary with_question_mark ∅ []) = Ok question_dictionary
  /\ _allWords question_dictionary = [[xc0; xc1]; [xc0; xc1]; [xc2]]
  /\ (view_ids question_query.1 question_query.2 = []
      /\ @findPossible with_question_mark question_dictionary
           (replicate 2 (@ANY_CHAR with_question_mark))
         = Ok question_query).
Proof. split_and!; vm_compute; reflexivity. Qed.

(** C3.  Monotonicity: with the null character as placeholder, for a
    pattern of at most six positions, putting a letter where the pattern had
    a placeholder can only shrink the answer.  The two queries may be made
    in either order and in any two states of the same loaded dictionary. *)
Theorem findPossible_monotone (d d' : Dictionary) (pattern : list byte)
  (j : nat) (letter : byte) :
  reachable d -> reachable d' -> _allWords d = _allWords d' ->
  ANY_CHAR = x00 ->
  (length pattern <= 6)%nat ->
  (length pattern < LONGEST_WORD)%nat ->
  pattern !! j = Some ANY_CHAR ->
  exists d1 v1 d2 v2,
    findPossible d pattern = Ok (d1, v1)
    /\ findPossible d' (<[j := letter]> pattern) = Ok (d2, v2)
    /\ forall id, id ∈ view_ids d2 v2 -> id ∈ view_ids d1 v1.
Proof.
  intros Hinv%reachable_inv Hinv'%reachable_inv Hwords Hany Hshort Hlen Hj.
  destruct (findPossible_returns d pattern Hinv Hlen) as (d1 & v1 & E1); [lia|].
  destruct (findPossible_returns d' (<[j := letter]> pattern) Hinv')
    as (d2 & v2 & E2); rewrite ?length_insert; [done|lia|].
  exists d1, v1, d2, v2. split_and!; try done.
  destruct (findPossible_Ok _ _ _ _ Hinv E1) as (_ & _ & _ & _ & _ & Hans1 & _).
  destruct (findPossible_Ok _ _ _ _ Hinv' E2) as (_ & _ & _ & _ & _ & Hans2 & _).
  intros id. rewrite Hans1, Hans2, <- Hwords. unfold expected_answer.
  rewrite length_insert, (proj2 (Nat.leb_le _ _) Hshort).
  rewrite !elem_of_expected_bucket.
  intros (k & word & Hk & Hl & -> & mask & _ & Hkey).
  exists k, word. split_and!; try done.
  destruct (getKey_unknown_weakens mask word (<[j := letter]> pattern) j)
    as (mask' & Hm & Hkey'); [by rewrite length_insert|done|].
  exists mask'. split; [done|].
  rewrite Hkey', list_insert_insert_eq, <- Hany. by rewrite list_insert_id.
Qed.

(** C4 (as amended).  A query stays inside the array [_fastSearch] exactly
    for the patterns shorter than [LONGEST_WORD]: there it returns what the
    index holds for the pattern (above six letters, with the dictionary
    within capacity).  For a pattern of [LONGEST_WORD] positions or more the
    access [_fastSearch[pattern.size()]] is past the end of the array:
    undefined behaviour, no empty result and no fallback. *)
Theorem findPossible_bounds (d : Dictionary) (pattern : list byte) :
  reachable d ->
  ((length pattern < LONGEST_WORD)%nat ->
   ((6 < length pattern)%nat -> within_capacity d) ->
   exists d' v, findPossible d pattern = Ok (d', v)
     /\ view_ids d' v ≡ₚ expected_answer (_allWords d) pattern)
  /\ ((LONGEST_WORD <= length pattern)%nat ->
      findPossible d pattern = Undefined).
Proof.
  intros Hinv%reachable_inv. split.
  - intros Hlen Hcap.
    destruct (findPossible_returns d pattern Hinv Hlen) as (d' & v & E); [auto|].
    exists d', v. split; [done|].
    by destruct (findPossible_Ok _ _ _ _ Hinv E) as (_ & _ & _ & _ & _ & Hans & _).
  - by apply findPossible_out_of_bounds.
Qed.

(** *** Asking again *)

Lemma findPossible_caches d pattern d' v :
  findPossible d pattern = Ok (d', v) ->
  _cacheSearchMap d' !! pattern = Some (view_ids d' v).
Proof.
  unfold findPossible.
  destruct (_cacheSearchMap d !! pattern) as [cached|] eqn:Ec.
  { intros [= <- <-]. by rewrite (view_ids_cached _ _ _ Ec). }
  destruct (_fastSearch d !! length pattern) as [table|]; [|done].
  destruct (length pattern <=? 6)%nat.
  - intros [= <- <-].
    rewrite view_ids_cached by (simpl; apply lookup_insert_eq).
    simpl. apply lookup_insert_eq.
  - destruct (verify _ _ _ _) as [ids| |]; simpl; try done.
    intros [= <- <-].
    rewrite view_ids_cached by (simpl; apply lookup_insert_eq).
    simpl. apply lookup_insert_eq.
Qed.

Lemma findPossible_hit d pattern ids :
  _cacheSearchMap d !! pattern = Some ids ->
  exists v, findPossible d pattern = Ok (d, v) /\ view_ids d v = ids.
Proof.
  intros Ec. unfold findPossible. rewrite Ec. eexists. split; [done|].
  by apply view_ids_cached.
Qed.

(** A cache entry, once made, is only ever permuted. *)
Lemma call_cache d d' pattern ids :
  call d d' ->
  _cacheSearchMap d !! pattern = Some ids ->
  exists ids', _cacheSearchMap d' !! pattern = Some ids' /\ ids ≡ₚ ids'.
Proof.
  intros [rnd d0|d0 q d1 v E] Ec.
  - simpl. rewrite map_lookup_imap, Ec. simpl. eexists. split; [done|].
    by rewrite random_shuffle_Permutation.
  - revert E. unfold findPossible.
    destruct (_cacheSearchMap d0 !! q) as [cached|] eqn:Eq.
    { intros [= <- <-]. eauto. }
    assert (q <> pattern) by congruence.
    destruct (_fastSearch d0 !! length q) as [table|]; [|done].
    destruct (length q <=? 6)%nat.
    + intros [= <- <-]. simpl. rewrite lookup_insert_ne by done. eauto.
    + destruct (verify _ _ _ _) as [ids1| |]; simpl; try done.
      intros [= <- <-]. simpl. rewrite lookup_insert_ne by done. eauto.
Qed.

Lemma calls_cache d d' pattern ids :
  rtc call d d' ->
  _cacheSearchMap d !! pattern = Some ids ->
  exists ids', _cacheSearchMap d' !! pattern = Some ids' /\ ids ≡ₚ ids'.
Proof.
  intros Hcalls. revert ids.
  induction Hcalls as [d|d d1 d2 Hc _ IH]; intros ids Ec; [eauto|].
  destruct (call_cache _ _ _ _ Hc Ec) as (ids1 & E1 & Hp1).
  destruct (IH _ E1) as (ids2 & E2 & Hp2).
  exists ids2. split; [done|]. by rewrite Hp1.
Qed.

(** C8.  Once a query for a pattern has returned, every later query for the
    same pattern returns too, whatever shuffles and other queries were made
    in between, and the two views hold the same identifiers up to order. *)
Theorem findPossible_again (d d1 d2 : Dictionary) (pattern : list byte)
  (v1 : Pattern) :
  findPossible d pattern = Ok (d1, v1) ->
  rtc call d1 d2 ->
  exists v2, findPossible d2 pattern = Ok (d2, v2)
    /\ view_ids d1 v1 ≡ₚ view_ids d2 v2.
Proof.
  intros E Hcalls. apply findPossible_caches in E.
  destruct (calls_cache _ _ _ _ Hcalls E) as (ids' & E' & Hp).
  destruct (findPossible_hit _ _ _ E') as (v2 & E2 & Hv).
  exists v2. split; [done|]. by rewrite Hv.
Qed.

End QueryTheorems.

Lemma findPossible_word_itself_witness :
  (length [xc0; xc1; xc2; xc3; xc4; xc5; xc7] < @LONGEST_WORD cp1251)%nat
  /\ exists d' v,
       @findPossible cp1251 long_dictionary [xc0; xc1; xc2; xc3; xc4; xc5; xc7]
       = Ok (d', v)
       /\ u16 (Z.of_nat 1) ∈ view_ids d' v.
Proof.
  apply (@findPossible_word_itself cp1251 long_dictionary 1%nat
           [xc0; xc1; xc2; xc3; xc4; xc5; xc7]).
  - apply (@reach_load cp1251 (Some long_file) (@empty_dictionary cp1251 ∅ [])).
    vm_compute. reflexivity.
  - vm_compute. reflexivity.
  - intros _. unfold within_capacity. vm_compute. discriminate.
Defined.


Lemma findPossible_monotone_witness :
  exists d1 v1 d2 v2,
    @findPossible cp1251 sample_dictionary [xc0; x00] = Ok (d1, v1)
    /\ @findPossible cp1251 sample_dictionary (<[1%nat := xc1]> [xc0; x00]) = Ok (d2, v2)
    /\ forall id, id ∈ view_ids d2 v2 -> id ∈ view_ids d1 v1.
Proof.
  apply (@findPossible_monotone cp1251 sample_dictionary sample_dictionary
           [xc0; x00] 1%nat xc1).
  - apply (@reach_load cp1251 (Some sample_file) (@empty_dictionary cp1251 ∅ [])).
    vm_compute. reflexivity.
  - apply (@reach_load cp1251 (Some sample_file) (@empty_dictionary cp1251 ∅ [])).
    vm_compute. reflexivity.
  - reflexivity.
  - reflexivity.
  - simpl. lia.
  - simpl. lia.
  - reflexivity.
Defined.

Lemma findPossible_bounds_witness :
  ((length [xc0; xc1] < @LONGEST_WORD cp1251)%nat ->
   ((6 < length [xc0; xc1])%nat -> within_capacity sample_dictionary) ->
   exists d' v, @findPossible cp1251 sample_dictionary [xc0; xc1] = Ok (d', v)
     /\ view_ids d' v ≡ₚ @expected_answer cp1251 (_allWords sample_dictionary) [xc0; xc1])
  /\ ((@LONGEST_WORD cp1251 <= length [xc0; xc1])%nat ->
      @findPossible cp1251 sample_dictionary [xc0; xc1] = Undefined).
Proof.
  apply (@findPossible_bounds cp1251 sample_dictionary [xc0; xc1]).
  apply (@reach_load cp1251 (Some sample_file) (@empty_dictionary cp1251 ∅ [])).
  vm_compute. reflexivity.
Defined.

(** C4, as stated, fails: on the loaded sample dictionary a pattern of
    [LONGEST_WORD] positions does not come back with a view, empty or
    not; the access is out of bounds. *)
Lemma findPossible_too_long_counterexample :
  @reachable cp1251 sample_dictionary
  /\ (@LONGEST_WORD cp1251 <= length (replicate 32 xc0))%nat
  /\ @findPossible cp1251 sample_dictionary (replicate 32 xc0) = Undefined
  /\ ~ exists d' v, @findPossible cp1251 sample_dictionary (replicate 32 xc0) = Ok (d', v).
Proof.
  split; [exact sample_reachable|]. split; [simpl; lia|].
  assert (E : @findPossible cp1251 sample_dictionary (replicate 32 xc0) = Undefined)
    by (vm_compute; reflexivity).
  split; [exact E|]. intros (d' & v & E'). rewrite E in E'. discriminate.
Qed.

Lemma findPossible_again_witness :
  exists v2,
    @findPossible cp1251 sample_shuffled [xc0; x00] = Ok (sample_shuffled, v2)
    /\ view_ids sample_query.1 sample_query.2 ≡ₚ view_ids sample_shuffled v2.
Proof.
  apply (@findPossible_again cp1251 sample_dictionary sample_query.1 sample_shuffled
           [xc0; x00] sample_query.2).
  - vm_compute. reflexivity.
  - apply rtc_once. apply (@call_shuffle cp1251).
Defined.

(** ** Duplicate entries *)

Section Duplicates.
Context `{Header}.

Lemma emplace_lookup m k v k' :
  emplace m k v !! k'
  = match m !! k' with
    | Some old => Some old
    | None => if decide (k = k') then Some v else None
    end.
Proof.
  unfold emplace. destruct (m !! k) as [old|] eqn:Ek.
  - destruct (m !! k') eqn:Ek'; [done|]. by rewrite decide_False by congruence.
  - destruct (decide (k = k')) as [<-|Hne].
    + by rewrite lookup_insert_eq, Ek.
    + rewrite lookup_insert_ne by done. by destruct (m !! k').
Qed.

(** What is on file under a key stays. *)
Lemma add_entries_keeps entries d d' key :
  add_entries entries d = Ok d' ->
  (forall v, _dirtyDict d !! key = Some v -> _dirtyDict d' !! key = Some v)
  /\ (forall v, _explanationDict d !! key = Some v ->
                _explanationDict d' !! key = Some v).
Proof.
  revert d. induction entries as [|[w e] entries IH]; intros d E; simpl in E.
  - by injection E as <-.
  - destruct (add_entry d w e) as [d1| |] eqn:E1; try discriminate. simpl in E.
    apply add_entry_effect in E1 as (_ & Hd & He).
    destruct (IH _ E) as [IHd IHe]. split; intros v Hv.
    + apply IHd. rewrite Hd, emplace_lookup. by rewrite Hv.
    + apply IHe. rewrite He, emplace_lookup. by rewrite Hv.
Qed.

(** The first entry of a key is the one on file. *)
Lemma add_entries_first entries d d' k nextWord explanation :
  add_entries entries d = Ok d' ->
  entries !! k = Some (nextWord, explanation) ->
  let clean := toupper (cleanString nextWord) in
  (forall k' other, (k' < k)%nat -> entries !! k' = Some other ->
                    toupper (cleanString other.1) <> clean) ->
  _dirtyDict d !! clean = None ->
  _explanationDict d !! clean = None ->
  _dirtyDict d' !! clean = Some nextWord
  /\ _explanationDict d' !! clean = Some explanation.
Proof.
  intros E Hk clean. revert d k E Hk.
  induction entries as [|[w e] entries IH]; intros d k E Hk Hfirst Hd He; [done|].
  simpl in E. destruct (add_entry d w e) as [d1| |] eqn:E1; try discriminate.
  simpl in E. apply add_entry_effect in E1 as (_ & Hd1 & He1).
  destruct k as [|k]; simpl in Hk.
  - injection Hk as -> ->. destruct (add_entries_keeps _ _ _ clean E) as [Kd Ke].
    split; [apply Kd | apply Ke].
    + rewrite Hd1, emplace_lookup. fold clean. by rewrite Hd, decide_True.
    + rewrite He1, emplace_lookup. fold clean. by rewrite He, decide_True.
  - assert (Hne : toupper (cleanString w) <> clean).
    { apply (Hfirst 0%nat (w, e)); [lia|done]. }
    apply (IH d1 k E Hk).
    + intros k' other Hlt Hk'. apply (Hfirst (S k') other); [lia|done].
    + rewrite Hd1, emplace_lookup. by rewrite Hd, decide_False.
    + rewrite He1, emplace_lookup. by rewrite He, decide_False.
Qed.

(** C7 (as amended).  After loading a file, for every entry read from it:
    the cleaned word sits in the word table at the position of the entry,
    and the identifier of that position is registered in the index under
    each of the 64 masks, whether or not an earlier entry has the same key;
    and when no earlier entry has the same key, [getDirty] and
    [getExplanation] give the recoded word and explanation of this
    entry. *)
Theorem loadDictionary_duplicates (content : list byte) (d0 d : Dictionary)
  (k : nat) (nextWord explanation : list byte) :
  loadDictionary (Some content) d0 = Ok d ->
  entries_of_file content !! k = Some (nextWord, explanation) ->
  let clean := toupper (cleanString nextWord) in
  _allWords d !! k = Some clean
  /\ (forall mask, 0 <= mask < 64 ->
        exists table, _fastSearch d !! length clean = Some table
          /\ u16 (Z.of_nat k) ∈ bucket table (getKey_mask mask clean))
  /\ ((forall k' other, (k' < k)%nat ->
         entries_of_file content !! k' = Some other ->
         toupper (cleanString other.1) <> clean) ->
      getDirty d clean = nextWord /\ getExplanation d clean = explanation).
Proof.
  intros E Hk clean.
  pose proof (loadDictionary_exact _ _ _ E) as Hexact.
  rewrite loadDictionary_entries in E. simpl in E.
  pose proof (add_entries_words _ _ _ E) as Hwords. simpl in Hwords.
  assert (Hword : _allWords d !! k = Some clean).
  { rewrite Hwords, list_lookup_fmap, Hk. done. }
  split; [done|]. split.
  - intros mask Hmask.
    pose proof (exact_words d Hexact) as Hshort.
    pose proof (proj1 (Forall_lookup _ _) Hshort k clean Hword) as Hlen.
    simpl in Hlen. rewrite <- (exact_size d Hexact) in Hlen.
    destruct (lookup_lt_is_Some_2 _ _ Hlen) as [table Ht].
    exists table. split; [done|].
    rewrite (exact_bucket d Hexact _ _ _ Ht). apply elem_of_expected_bucket.
    exists k, clean. split_and!; try done. by exists mask.
  - intros Hfirst.
    destruct (add_entries_first _ _ _ k nextWord explanation E Hk Hfirst)
      as [Hd He]; try done.
    unfold getDirty, getExplanation. fold clean in Hd, He. by rewrite Hd, He.
Qed.

End Duplicates.

Lemma loadDictionary_duplicates_witness :
  let clean := @toupper cp1251 (@cleanString cp1251 [xe0; xe1]) in
  _allWords sample_dictionary !! 1%nat = Some clean
  /\ (forall mask, 0 <= mask < 64 ->
        exists table, _fastSearch sample_dictionary !! length clean = Some table
          /\ u16 (Z.of_nat 1) ∈ bucket table (getKey_mask mask clean))
  /\ ((forall k' other, (k' < 1)%nat ->
         @entries_of_file cp1251 sample_file !! k' = Some other ->
         @toupper cp1251 (@cleanString cp1251 other.1) <> clean) ->
      getDirty sample_dictionary clean = [xe0; xe1]
      /\ getExplanation sample_dictionary clean = [x79]).
Proof.
  apply (@loadDictionary_duplicates cp1251 sample_file
           (@empty_dictionary cp1251 ∅ []) sample_dictionary 1%nat [xe0; xe1] [x79]).
  - vm_compute. reflexivity.
  - vm_compute. reflexivity.
Defined.

(** C7, as stated, fails: the second entry of [duplicate_file] normalises
    to the key of the first; [getDirty] and [getExplanation] keep the first
    entry, but the duplicate leaves a trace: a second row of the word table,
    with identifier 1 registered in the index, so that the state differs
    from the one the first entry alone gives. *)
Lemma duplicate_leaves_trace_counterexample :
  @loadDictionary cp1251 (Some first_only_file) (@empty_dictionary cp1251 ∅ [])
  = Ok first_only_dictionary
  /\ @loadDictionary cp1251 (Some duplicate_file) (@empty_dictionary cp1251 ∅ [])
     = Ok duplicate_dictionary
  /\ @entries_of_file cp1251 duplicate_file
     = [([xc0; xc1], [x78]); ([xe0; xe1], [x79])]
  /\ @canonical cp1251 [xe0; xe1] = @canonical cp1251 [xc0; xc1]
  /\ getDirty duplicate_dictionary [xc0; xc1] = [xc0; xc1]
  /\ getExplanation duplicate_dictionary [xc0; xc1] = [x78]
  /\ _allWords first_only_dictionary = [[xc0; xc1]]
  /\ _allWords duplicate_dictionary = [[xc0; xc1]; [xc0; xc1]]
  /\ (exists table, _fastSearch duplicate_dictionary !! 2%nat = Some table
        /\ 1 ∈ bucket table (getKey [xc0; xc1]))
  /\ (exists table, _fastSearch first_only_dictionary !! 2%nat = Some table
        /\ 1 ∉ bucket table (getKey [xc0; xc1]))
  /\ duplicate_dictionary <> first_only_dictionary.
Proof.
  split_and!; try (vm_compute; reflexivity).
  - eexists. split; [vm_compute; reflexivity|].
    apply (bool_decide_unpack _). vm_compute. exact I.
  - eexists. split; [vm_compute; reflexivity|].
    apply (bool_decide_unpack _). vm_compute. exact I.
  - intros E. apply (f_equal _allWords) in E. vm_compute in E. discriminate.
Qed.

(** ** Slot extraction *)

Module CrosswordFacts.
Import Crossword.
Local Open Scope nat_scope.

Section ScanFacts.
Variable open : nat -> bool.
Variable len : nat.

Lemma skip_spec fuel j :
  len - j <= fuel ->
  j <= skip open len fuel j
  /\ (j <= len -> skip open len fuel j <= len)
  /\ (forall c, j <= c < skip open len fuel j -> open c = true)
  /\ (skip open len fuel j < len -> open (skip open len fuel j) = false).
Proof.
  revert j. induction fuel as [|fuel IH]; intros j Hfuel; simpl.
  - split_and!; intros; lia.
  - destruct (Nat.ltb_spec j len) as [Hlt|Hge]; simpl.
    + destruct (open j) eqn:Ej.
      * destruct (IH (S j)) as (H1 & H2 & H3 & H4); [lia|].
        split_and!; try lia; try done.
        intros c Hc. destruct (decide (c = j)) as [->|]; [done|]. apply H3. lia.
      * split_and!; intros; try lia; done.
    + split_and!; intros; lia.
Qed.

Lemma at_boundary_next j :
  j < len -> at_boundary open len (S (skip open len len j)).
Proof.
  intros Hj. destruct (skip_spec len j) as (H1 & H2 & H3 & H4); [lia|].
  unfold at_boundary.
  destruct (Nat.lt_ge_cases (skip open len len j) len) as [Hlt|Hge].
  - right. right. replace (S (skip open len len j) - 1) with (skip open len len j) by lia.
    auto.
  - left. lia.
Qed.

Lemma scan_lt fuel j s e :
  (s, e) ∈ scan open len fuel j -> j <= s /\ s + 2 <= e.
Proof.
  revert j. induction fuel as [|fuel IH]; intros j; simpl.
  - by intros ?%elem_of_nil.
  - destruct (Nat.ltb_spec j len) as [Hlt|Hge]; [|by intros ?%elem_of_nil].
    destruct (skip_spec len j) as (H1 & _); [lia|].
    destruct (Nat.leb_spec (skip open len len j - j) 1) as [Hshort|Hlong].
    + intros [? ?]%IH. lia.
    + intros [[= -> ->]|[? ?]%IH]%elem_of_cons; lia.
Qed.

Lemma scan_sound fuel j s e :
  at_boundary open len j ->
  (s, e) ∈ scan open len fuel j ->
  maximal_run open len s e.
Proof.
  revert j. induction fuel as [|fuel IH]; intros j Hb; simpl.
  - by intros ?%elem_of_nil.
  - destruct (Nat.ltb_spec j len) as [Hlt|Hge]; [|by intros ?%elem_of_nil].
    destruct (skip_spec len j) as (H1 & H2 & H3 & H4); [lia|].
    pose proof (at_boundary_next j Hlt) as Hnext.
    destruct (Nat.leb_spec (skip open len len j - j) 1) as [Hshort|Hlong].
    + by apply IH.
    + intros [[= -> ->]|Hin]%elem_of_cons; [|by apply (IH _ Hnext)].
      unfold maximal_run. split_and!; try lia; try done.
      * destruct Hb as [?|[?|?]]; [lia|by left|by right].
      * destruct (Nat.lt_ge_cases (skip open len len j) len); [right; auto|left; lia].
Qed.

Lemma scan_complete fuel j s e :
  at_boundary open len j ->
  len - j <= fuel ->
  maximal_run open len s e -> 2 <= e - s -> j <= s ->
  (s, e) ∈ scan open len fuel j.
Proof.
  intros Hb Hfuel (Hse & Hel & Hopen & Hstart & Hend) Hlong.
  revert j Hb Hfuel. induction fuel as [|fuel IH]; intros j Hb Hfuel Hjs; [lia|].
  simpl. rewrite (proj2 (Nat.ltb_lt j len)) by lia.
  destruct (skip_spec len j) as (H1 & H2 & H3 & H4); [lia|].
  pose proof (at_boundary_next j ltac:(lia)) as Hnext.
  set (j' := skip open len len j) in *.
  destruct (decide (s = j)) as [->|Hne].
  - assert (e = j') as ->.
    { destruct (Nat.lt_trichotomy e j') as [Hlt|[->|Hgt]]; [|done|].
      - destruct Hend as [->|He]; [lia|]. rewrite H3 in He by lia. done.
      - rewrite Hopen in H4 by lia. by specialize (H4 ltac:(lia)). }
    rewrite (proj2 (Nat.leb_gt _ _)) by lia. by left.
  - assert (S j' <= s).
    { destruct Hstart as [->|Hbox]; [lia|].
      destruct (Nat.lt_ge_cases (s - 1) j') as [Hlt|Hge]; [|lia].
      rewrite H3 in Hbox by lia. done. }
    assert (Hin : (s, e) ∈ scan open len fuel (S j')) by (apply IH; [done|lia|done]).
    destruct (j' - j <=? 1); [done|by right].
Qed.

(** More fuel than cells left never changes the scan. *)
Lemma scan_fuel fuel fuel' j :
  len - j <= fuel -> len - j <= fuel' ->
  scan open len fuel j = scan open len fuel' j.
Proof.
  revert fuel' j. induction fuel as [|fuel IH]; intros fuel' j Hf Hf'.
  - destruct fuel' as [|fuel']; [done|]. simpl.
    by rewrite (proj2 (Nat.ltb_ge j len)) by lia.
  - destruct fuel' as [|fuel']; simpl.
    + by rewrite (proj2 (Nat.ltb_ge j len)) by lia.
    + destruct (Nat.ltb_spec j len) as [Hlt|Hge]; [|done].
      destruct (skip_spec len j) as (H1 & _); [lia|].
      rewrite (IH fuel' (S (skip open len len j))) by lia. done.
Qed.

Lemma scan_NoDup fuel j : NoDup (scan open len fuel j).
Proof.
  revert j. induction fuel as [|fuel IH]; intros j; simpl; [constructor|].
  destruct (j <? len); [|constructor].
  destruct (skip_spec len j) as (H1 & _); [lia|].
  destruct (_ <=? 1); [done|].
  constructor; [|done]. intros [? ?]%scan_lt. lia.
Qed.

End ScanFacts.

Lemma foldl_append {A B} (f : list A -> B -> list A) (g : B -> list A)
  (acc : list A) (l : list B) :
  (forall acc x, f acc x = acc ++ g x) ->
  foldl f acc l = acc ++ (l ≫= g).
Proof.
  intros Hf. revert acc. induction l as [|x l IH]; intros acc.
  - simpl. by rewrite app_nil_r.
  - rewrite bind_cons. simpl. by rewrite IH, Hf, <- app_assoc.
Qed.

Lemma NoDup_singleton_iff {A} (l : list A) (a : A) :
  NoDup l -> (forall x, x ∈ l <-> x = a) -> l = [a].
Proof.
  intros Hnd Hl. destruct l as [|x l].
  - exfalso. apply (elem_of_nil a). by apply Hl.
  - assert (x = a) as -> by (apply Hl; by left).
    apply NoDup_cons in Hnd as [Hx _]. destruct l as [|y l]; [done|].
    assert (y = a) as -> by (apply Hl; right; by left).
    destruct Hx. by left.
Qed.

Section Passes.
Context `{BoardHeader}.
Variable cw : crossword.

Lemma skip_open_row_scan fuel i j :
  skip_open_row cw fuel i j = skip (row_open cw i) (M cw) fuel j.
Proof.
  revert j. induction fuel as [|fuel IH]; intros j; simpl; [done|].
  unfold row_open at 1. by rewrite IH.
Qed.

Lemma skip_open_col_scan fuel j i :
  skip_open_col cw fuel j i = skip (col_open cw j) (N cw) fuel i.
Proof.
  revert i. induction fuel as [|fuel IH]; intros i; simpl; [done|].
  unfold col_open at 1. by rewrite IH.
Qed.

(** Each pass appends the slots of the runs its scan reports. *)
Lemma row_loop_scan fuel i j areas :
  row_loop cw fuel i j areas
  = areas ++ map (fun se => row_position cw i se.1 se.2)
                 (scan (row_open cw i) (M cw) fuel j).
Proof.
  revert j areas. induction fuel as [|fuel IH]; intros j areas; simpl.
  - by rewrite app_nil_r.
  - destruct (j <? M cw); [|by rewrite app_nil_r].
    rewrite skip_open_row_scan.
    destruct (_ <=? 1); rewrite IH; [done|].
    by rewrite <- app_assoc.
Qed.

Lemma col_loop_scan fuel j i areas :
  col_loop cw fuel j i areas
  = areas ++ map (fun se => col_position cw j se.1 se.2)
                 (scan (col_open cw j) (N cw) fuel i).
Proof.
  revert i areas. induction fuel as [|fuel IH]; intros i areas; simpl.
  - by rewrite app_nil_r.
  - destruct (i <? N cw); [|by rewrite app_nil_r].
    rewrite skip_open_col_scan.
    destruct (_ <=? 1); rewrite IH; [done|].
    by rewrite <- app_assoc.
Qed.

Lemma loadWords_areas : areas (loadWords cw) = sort (row_slots cw ++ col_slots cw).
Proof.
  unfold loadWords. simpl. f_equal.
  rewrite (foldl_append (fun areas j => col_loop cw (N cw) j 0 areas)
    (fun j => map (fun se => col_position cw j se.1 se.2)
                  (scan (col_open cw j) (N cw) (N cw) 0))) by (intros; apply col_loop_scan).
  rewrite (foldl_append (fun areas i => row_loop cw (M cw) i 0 areas)
    (fun i => map (fun se => row_position cw i se.1 se.2)
                  (scan (row_open cw i) (M cw) (M cw) 0))) by (intros; apply row_loop_scan).
  done.
Qed.

Lemma scan_spec open len s e :
  (s, e) ∈ scan open len len 0 <-> maximal_run open len s e /\ 2 <= e - s.
Proof.
  assert (Hb : at_boundary open len 0) by (right; by left).
  split.
  - intros Hin. split; [by apply (scan_sound open len len 0)|].
    apply scan_lt in Hin. lia.
  - intros [Hrun Hlong]. apply scan_complete; try done; lia.
Qed.

Lemma elem_of_row_slots slot :
  slot ∈ row_slots cw
  <-> exists i s e, i < N cw /\ maximal_run (row_open cw i) (M cw) s e
        /\ 2 <= e - s /\ slot = row_position cw i s e.
Proof.
  unfold row_slots. rewrite list_elem_of_bind. split.
  - intros (i & Hslot & Hi). apply elem_of_seq in Hi.
    apply list_elem_of_fmap in Hslot as ([s e] & -> & Hse).
    apply scan_spec in Hse as [Hrun Hlong]. exists i, s, e. split_and!; try done; lia.
  - intros (i & s & e & Hi & Hrun & Hlong & ->). exists i. split.
    + apply list_elem_of_fmap. exists (s, e). split; [done|]. by apply scan_spec.
    + apply elem_of_seq. lia.
Qed.

Lemma elem_of_col_slots slot :
  slot ∈ col_slots cw
  <-> exists j s e, j < M cw /\ maximal_run (col_open cw j) (N cw) s e
        /\ 2 <= e - s /\ slot = col_position cw j s e.
Proof.
  unfold col_slots. rewrite list_elem_of_bind. split.
  - intros (j & Hslot & Hj). apply elem_of_seq in Hj.
    apply list_elem_of_fmap in Hslot as ([s e] & -> & Hse).
    apply scan_spec in Hse as [Hrun Hlong]. exists j, s, e. split_and!; try done; lia.
  - intros (j & s & e & Hj & Hrun & Hlong & ->). exists j. split.
    + apply list_elem_of_fmap. exists (s, e). split; [done|]. by apply scan_spec.
    + apply elem_of_seq. lia.
Qed.

Lemma row_position_inj i s e i' s' e' :
  s < e -> s' < e' ->
  row_position cw i s e = row_position cw i' s' e' ->
  i = i' /\ s = s' /\ e = e'.
Proof.
  intros Hse Hse' E. apply (f_equal letters) in E. simpl in E.
  pose proof (f_equal length E) as El. rewrite !length_map, !length_seq in El.
  destruct (e - s) as [|n] eqn:En; [lia|].
  destruct (e' - s') as [|n'] eqn:En'; [lia|].
  simpl in E. injection E as -> -> _. lia.
Qed.

Lemma col_position_inj j s e j' s' e' :
  s < e -> s' < e' ->
  col_position cw j s e = col_position cw j' s' e' ->
  j = j' /\ s = s' /\ e = e'.
Proof.
  intros Hse Hse' E. apply (f_equal letters) in E. simpl in E.
  pose proof (f_equal length E) as El. rewrite !length_map, !length_seq in El.
  destruct (e - s) as [|n] eqn:En; [lia|].
  destruct (e' - s') as [|n'] eqn:En'; [lia|].
  simpl in E. injection E as -> -> _. lia.
Qed.

Lemma row_slots_NoDup : NoDup (row_slots cw).
Proof.
  unfold row_slots. apply NoDup_bind; [| |apply NoDup_seq].
  - intros i1 i2 slot _ _ ([s e] & -> & Hse)%list_elem_of_fmap
      ([s' e'] & E & Hse')%list_elem_of_fmap.
    apply scan_lt in Hse, Hse'. simpl in *.
    apply row_position_inj in E as (? & _); [done|lia|lia].
  - intros i _. apply NoDup_fmap_2_strong; [|apply scan_NoDup].
    intros [s e] [s' e'] Hse Hse' E. apply scan_lt in Hse, Hse'. simpl in *.
    apply row_position_inj in E as (_ & -> & ->); [done|lia|lia].
Qed.

Lemma col_slots_NoDup : NoDup (col_slots cw).
Proof.
  unfold col_slots. apply NoDup_bind; [| |apply NoDup_seq].
  - intros j1 j2 slot _ _ ([s e] & -> & Hse)%list_elem_of_fmap
      ([s' e'] & E & Hse')%list_elem_of_fmap.
    apply scan_lt in Hse, Hse'. simpl in *.
    apply col_position_inj in E as (? & _); [done|lia|lia].
  - intros j _. apply NoDup_fmap_2_strong; [|apply scan_NoDup].
    intros [s e] [s' e'] Hse Hse' E. apply scan_lt in Hse, Hse'. simpl in *.
    apply col_position_inj in E as (_ & -> & ->); [done|lia|lia].
Qed.

Lemma all_slots_NoDup : NoDup (row_slots cw ++ col_slots cw).
Proof.
  apply NoDup_app. split_and!; [apply row_slots_NoDup| |apply col_slots_NoDup].
  intros slot (i & s & e & _ & _ & _ & ->)%elem_of_row_slots
    (j & s' & e' & _ & _ & _ & E)%elem_of_col_slots.
  apply (f_equal hor) in E. discriminate.
Qed.

(** C9.  Whatever order the final sort gives the slots: the slots of a
    board are exactly the maximal runs of at least two open cells of its
    rows (marked horizontal) and of its columns, each run giving one slot
    and no slot arising otherwise, in particular none from a run of a
    single cell.  A board of one cell has no slot; a board of one row of
    at least two cells, all open, has the one horizontal slot made of the
    whole row and no vertical slot. *)
Theorem loadWords_slots :
  (forall l, sort l ≡ₚ l) ->
  let slots := areas (loadWords cw) in
  (forall slot, slot ∈ slots <->
     (exists i s e, i < N cw /\ maximal_run (row_open cw i) (M cw) s e
        /\ 2 <= e - s /\ slot = row_position cw i s e)
     \/ (exists j s e, j < M cw /\ maximal_run (col_open cw j) (N cw) s e
        /\ 2 <= e - s /\ slot = col_position cw j s e))
  /\ NoDup slots
  /\ (N cw = 1 -> M cw = 1 -> slots = [])
  /\ (N cw = 1 -> 2 <= M cw ->
      (forall c, c < M cw -> isBox (board cw) 0 c = false) ->
      slots = [row_position cw 0 0 (M cw)]
      /\ hor (row_position cw 0 0 (M cw)) = 1%Z
      /\ length (letters (row_position cw 0 0 (M cw))) = M cw).
Proof.
  intros Hsort slots.
  assert (Hmem : forall slot, slot ∈ slots <->
     (exists i s e, i < N cw /\ maximal_run (row_open cw i) (M cw) s e
        /\ 2 <= e - s /\ slot = row_position cw i s e)
     \/ (exists j s e, j < M cw /\ maximal_run (col_open cw j) (N cw) s e
        /\ 2 <= e - s /\ slot = col_position cw j s e)).
  { intros slot. unfold slots. rewrite loadWords_areas, Hsort, elem_of_app.
    by rewrite elem_of_row_slots, elem_of_col_slots. }
  assert (Hnd : NoDup slots).
  { unfold slots. rewrite loadWords_areas, Hsort. apply all_slots_NoDup. }
  split_and!; try done.
  - intros HN HM. apply elem_of_nil_inv. intros slot Hslot.
    apply Hmem in Hslot
      as [(i & s & e & _ & (_ & He & _) & Hl & _)|(j & s & e & _ & (_ & He & _) & Hl & _)];
      lia.
  - intros HN HM Hopen. split; [|split; [done|]].
    + apply NoDup_singleton_iff; [done|]. intros slot. rewrite Hmem. split.
      * intros [(i & s & e & Hi & (Hse & He & _ & Hs & Hend) & Hl & ->)
               |(j & s & e & _ & (_ & He & _) & Hl & _)]; [|lia].
        assert (i = 0) as -> by lia.
        assert (s = 0) as ->.
        { destruct Hs as [->|Hbox]; [done|]. unfold row_open in Hbox.
          rewrite Hopen in Hbox by lia. done. }
        assert (e = M cw) as ->.
        { destruct Hend as [->|Hbox]; [done|]. unfold row_open in Hbox.
          destruct (Nat.lt_ge_cases e (M cw)); [|lia].
          rewrite Hopen in Hbox by lia. done. }
        done.
      * intros ->. left. exists 0, 0, (M cw). split_and!; try lia; try done.
        unfold maximal_run. split_and!; try lia; auto.
        intros c Hc. unfold row_open. rewrite Hopen by lia. done.
    + simpl. rewrite length_map, length_seq. lia.
Qed.

End Passes.

Lemma loadWords_slots_witness :
  let slots := areas (@loadWords open_board (blank 1 3)) in
  slots = [@row_position (blank 1 3) 0 0 3]
  /\ NoDup slots
  /\ areas (@loadWords open_board (blank 1 1)) = [].
Proof.
  assert (Hsort : forall l, @sort open_board l ≡ₚ l) by (intros l; reflexivity).
  destruct (@loadWords_slots open_board (blank 1 3) Hsort) as (_ & Hnd & _ & Hrow).
  destruct (@loadWords_slots open_board (blank 1 1) Hsort) as (_ & _ & Hone & _).
  split_and!.
  - apply Hrow; [reflexivity|simpl; lia|reflexivity].
  - exact Hnd.
  - apply Hone; reflexivity.
Defined.

End CrosswordFacts.

(** ** Further properties *)

(** ** What a query answers *)

Lemma pslot_lookup word i c :
  word !! i = Some c -> pslot word i = u8 c.
Proof.
  intros Hc. unfold pslot. rewrite (proj2 (Nat.ltb_lt _ _)) by eauto using lookup_lt_Some.
  by rewrite at_lookup, Hc.
Qed.

Lemma pslot_beyond word i : word !! i = None -> pslot word i = 0.
Proof.
  intros Hc. unfold pslot. apply lookup_ge_None in Hc.
  by rewrite (proj2 (Nat.ltb_ge _ _)).
Qed.

Lemma u8_nonzero c : c <> x00 -> u8 c <> 0.
Proof. intros Hc E. apply Hc, u8_inj. by rewrite E. Qed.

(** One slot of the key agrees with the pattern exactly when the mask hides
    the position and the pattern holds a null character there, or shows it
    and the word holds the character of the pattern. *)
Lemma slots_agree_matches mask word pattern :
  length word = length pattern ->
  (forall i, (i < 6)%nat -> mslot mask word i = pslot pattern i) ->
  matches_upto x00 6 pattern word.
Proof.
  intros Hlen Hslot i c Hi Hc Hne. specialize (Hslot i Hi).
  rewrite (pslot_lookup _ _ _ Hc) in Hslot. unfold mslot in Hslot.
  destruct (_ && _) eqn:E; [|by apply u8_nonzero in Hne].
  apply andb_true_iff in E as [Hw%Nat.ltb_lt _].
  destruct (lookup_lt_is_Some_2 word i Hw) as [c' Hc'].
  rewrite at_lookup, Hc' in Hslot. simpl in Hslot. apply u8_inj in Hslot. by subst.
Qed.

Lemma mslot_mask_of_pattern word pattern i :
  length word = length pattern ->
  matches_upto x00 6 pattern word ->
  (i < 6)%nat ->
  (if (i <? length word)%nat && negb (pslot pattern i =? 0)
   then u8 (at_ word i) else 0) = pslot pattern i.
Proof.
  intros Hlen Hm Hi. destruct (pattern !! i) as [c|] eqn:Hc.
  - rewrite (pslot_lookup _ _ _ Hc).
    rewrite (proj2 (Nat.ltb_lt _ _)) by (rewrite Hlen; eauto using lookup_lt_Some).
    destruct (Z.eqb_spec (u8 c) 0) as [E|E]; [done|]. simpl.
    assert (c <> x00) by (by intros ->).
    by rewrite at_lookup, (Hm i c Hi Hc).
  - rewrite (pslot_beyond _ _ Hc). simpl. by rewrite andb_false_r.
Qed.

(** Some mask packs the word into the key of the pattern exactly when the
    word holds, among its first six characters, the characters of the
    pattern other than the null character. *)
Lemma masked_key_matches word pattern :
  length word = length pattern ->
  (exists mask, 0 <= mask < 64 /\ getKey_mask mask word = getKey pattern)
  <-> matches_upto x00 6 pattern word.
Proof.
  intros Hlen. split.
  - intros (mask & _ & E). rewrite getKey_mask_pack, getKey_pack in E.
    apply pack6_inj in E; auto using mslot_range, pslot_range.
    destruct E as (E5 & E4 & E3 & E2 & E1 & E0).
    apply (slots_agree_matches mask); [done|].
    intros i Hi. destruct i as [|[|[|[|[|[|i]]]]]]; try done; lia.
  - intros Hm. exists (mask_of_pattern pattern). unfold mask_of_pattern.
    split; [apply mask_of_bits_range|].
    rewrite getKey_mask_pack, getKey_pack.
    match goal with |- context [mask_of_bits ?b5 ?b4 ?b3 ?b2 ?b1 ?b0] =>
      destruct (mbit_mask_of_bits b5 b4 b3 b2 b1 b0) as (B5 & B4 & B3 & B2 & B1 & B0)
    end.
    unfold mslot.
    change (Z.of_nat 5) with 5; change (Z.of_nat 4) with 4;
      change (Z.of_nat 3) with 3; change (Z.of_nat 2) with 2;
      change (Z.of_nat 1) with 1; change (Z.of_nat 0) with 0.
    rewrite B5, B4, B3, B2, B1, B0.
    by rewrite !(mslot_mask_of_pattern word pattern _ Hlen Hm) by lia.
Qed.

Lemma agrees_matches `{Header} pattern word :
  length word = length pattern ->
  agrees pattern word (filled_indices pattern) = true
  <-> matches_upto ANY_CHAR (length pattern) pattern word.
Proof.
  intros Hlen. unfold agrees. rewrite forallb_forall. split.
  - intros Hall i c Hi Hc Hne.
    assert (Hin : In i (filled_indices pattern)).
    { apply list_elem_of_In. unfold filled_indices. apply list_elem_of_filter.
      split; [rewrite Hc; congruence|]. apply elem_of_seq. lia. }
    apply Hall, bool_decide_eq_true in Hin. rewrite Hc in Hin. simpl in Hin.
    destruct (lookup_lt_is_Some_2 word i ltac:(lia)) as [c' Hc'].
    rewrite Hc' in Hin. simpl in Hin. by subst.
  - intros Hm i Hin. apply bool_decide_eq_true.
    apply list_elem_of_In in Hin. unfold filled_indices in Hin.
    apply list_elem_of_filter in Hin as [Hne Hi]. apply elem_of_seq in Hi.
    destruct (lookup_lt_is_Some_2 pattern i ltac:(lia)) as [c Hc].
    rewrite Hc in *. rewrite (Hm i c); [done|lia|done|congruence].
Qed.


Section Answers.
Context `{Header}.


(** X2.  Above six positions, in a dictionary within the capacity of the
    identifiers, the view holds the identifier of a loaded word if and only
    if the word has the length of the pattern, holds among its first six
    characters those of the pattern other than the null character (the
    index), and holds at every position the character of the pattern
    wherever that is not [ANY_CHAR] (the verification). *)
Theorem findPossible_long_answer (d : Dictionary) (pattern : list byte) :
  reachable d ->
  (6 < length pattern)%nat ->
  (length pattern < LONGEST_WORD)%nat ->
  within_capacity d ->
  exists d' v, findPossible d pattern = Ok (d', v)
    /\ forall id, id ∈ view_ids d' v
         <-> exists k word, _allWords d !! k = Some word
               /\ length word = length pattern
               /\ id = Z.of_nat k
               /\ matches_upto x00 6 pattern word
               /\ matches_upto ANY_CHAR (length pattern) pattern word.
Proof.
  intros Hinv%reachable_inv Hlong Hlen Hcap.
  destruct (findPossible_returns d pattern Hinv Hlen) as (d' & v & E); [auto|].
  exists d', v. split; [done|].
  destruct (findPossible_Ok _ _ _ _ Hinv E) as (_ & _ & _ & _ & _ & Hans & _).
  intros id. rewrite Hans. unfold expected_answer.
  rewrite (proj2 (Nat.leb_gt _ _) Hlong), list_elem_of_filter, elem_of_expected_bucket.
  unfold within_capacity in Hcap.
  assert (Hid : forall k word, _allWords d !! k = Some word ->
            u16 (Z.of_nat k) = Z.of_nat k).
  { intros k word Hk%lookup_lt_Some. unfold u16. apply Z.mod_small. lia. }
  split.
  - intros (Hpass & k & word & Hk & Hl & Eid & Hmask).
    simpl in Eid. rewrite (Hid k word Hk) in Eid. subst id.
    exists k, word. split_and!; try done.
    + by apply masked_key_matches.
    + unfold passes in Hpass. rewrite Nat2Z.id, Hk in Hpass.
      apply agrees_matches; [done|]. by apply Is_true_true.
  - intros (k & word & Hk & Hl & Eid & Hm6 & Hm). subst id. split.
    + unfold passes. rewrite Nat2Z.id, Hk. apply Is_true_true.
      by apply agrees_matches.
    + exists k, word. split_and!; try done.
      * simpl. by rewrite (Hid k word Hk).
      * by apply masked_key_matches.
Qed.

Lemma calls_inv d d' :
  index_inv d -> rtc call d d' -> index_inv d' /\ _allWords d' = _allWords d.
Proof.
  intros Hinv Hcalls. induction Hcalls as [d|d d1 d2 Hc _ IH]; [done|].
  assert (Hw : _allWords d1 = _allWords d).
  { revert Hinv. destruct Hc as [rnd d0|d0 pattern d1 v E]; intros Hinv; [done|].
    by apply (findPossible_Ok d0 pattern d1 v). }
  destruct (IH (call_inv _ _ Hinv Hc)) as [Hinv2 Hw2].
  split; [done|]. by rewrite Hw2.
Qed.

(** X3.  Shuffles and queries never change the answer a pattern gets: two
    queries for one pattern, made in two states of a dictionary that any
    number of shuffles and queries lie between, return the same identifiers
    up to order, whether or not the pattern had been asked before. *)
Theorem findPossible_stable (d d' d1 d2 : Dictionary) (pattern : list byte)
  (v1 v2 : Pattern) :
  reachable d -> rtc call d d' ->
  findPossible d pattern = Ok (d1, v1) ->
  findPossible d' pattern = Ok (d2, v2) ->
  view_ids d1 v1 ≡ₚ view_ids d2 v2.
Proof.
  intros Hinv%reachable_inv Hcalls E1 E2.
  destruct (calls_inv _ _ Hinv Hcalls) as [Hinv' Hw].
  destruct (findPossible_Ok _ _ _ _ Hinv E1) as (_ & _ & _ & _ & _ & Hans1 & _).
  destruct (findPossible_Ok _ _ _ _ Hinv' E2) as (_ & _ & _ & _ & _ & Hans2 & _).
  by rewrite Hans1, Hans2, Hw.
Qed.

End Answers.

(** ** More on loading *)

Section MoreLoading.
Context `{Header}.

Lemma add_entries_out_of_bounds entries d :
  length (_fastSearch d) = LONGEST_WORD ->
  Exists (fun e => (LONGEST_WORD <= length (toupper (cleanString e.1)))%nat) entries ->
  add_entries entries d = Undefined.
Proof.
  intros Hsize Hex. revert d Hsize.
  induction entries as [|[w e] entries IH]; intros d Hsize; [by apply Exists_nil in Hex|].
  simpl.
  destruct (Nat.lt_ge_cases (length (toupper (cleanString w))) LONGEST_WORD) as [Hlt|Hge].
  - rewrite <- Hsize in Hlt.
    destruct (add_entry_Ok d w e Hlt) as (d1 & -> & _ & _ & _ & _ & table & _ & Hfast).
    simpl. apply IH.
    + apply Exists_cons in Hex as [Hw|Hex]; [simpl in Hw; lia|done].
    + by rewrite Hfast, length_insert.
  - rewrite add_entry_Undefined; [done|]. by rewrite Hsize.
Qed.

(** X4.  Loading writes into the array of tables at the length of every
    cleaned word, unchecked: it returns, with one word per entry in the
    order of the file, when every cleaned word is shorter than
    [LONGEST_WORD], and it is undefined behaviour as soon as one entry has
    [LONGEST_WORD] alphabetic characters or more. *)
Theorem loadDictionary_in_bounds (file : option (list byte)) (d0 : Dictionary) :
  let entries := from_option entries_of_file [] file in
  let clean (e : list byte * list byte) := toupper (cleanString e.1) in
  (Forall (fun e => (length (clean e) < LONGEST_WORD)%nat) entries ->
   exists d, loadDictionary file d0 = Ok d /\ _allWords d = map clean entries)
  /\ (Exists (fun e => (LONGEST_WORD <= length (clean e))%nat) entries ->
      loadDictionary file d0 = Undefined).
Proof.
  intros entries clean. split.
  - intros Hall. destruct (loadDictionary_returns file d0 Hall) as [d E].
    exists d. split; [done|].
    rewrite loadDictionary_entries in E. by apply add_entries_words in E.
  - intros Hex. rewrite loadDictionary_entries.
    apply add_entries_out_of_bounds; [|done]. simpl. apply length_replicate.
Qed.

Lemma expected_answer_nil pattern : expected_answer [] pattern = [].
Proof. unfold expected_answer. simpl. by destruct (_ <=? _)%nat. Qed.

(** X5.  A dictionary file that cannot be opened is no error: loading
    returns the empty dictionary, in which every query within the array
    returns an empty view. *)
Theorem loadDictionary_missing_file (d0 : Dictionary) (pattern : list byte) :
  (length pattern < LONGEST_WORD)%nat ->
  exists d, loadDictionary None d0 = Ok d
    /\ _allWords d = []
    /\ _dirtyDict d = ∅
    /\ exists d' v, findPossible d pattern = Ok (d', v) /\ view_ids d' v = [].
Proof.
  intros Hlen. exists (reset d0). split_and!; try done.
  assert (Hinv : index_inv (reset d0)) by apply index_exact_inv, index_exact_empty.
  destruct (findPossible_returns (reset d0) pattern Hinv Hlen) as (d' & v & E).
  { intros _. left. unfold within_capacity. simpl. lia. }
  exists d', v. split; [done|].
  destruct (findPossible_Ok _ _ _ _ Hinv E) as (_ & _ & _ & _ & _ & Hans & _).
  simpl in Hans. rewrite expected_answer_nil in Hans.
  by apply Permutation_nil_r in Hans.
Qed.

(** *** Loading again *)

Lemma add_entries_config entries d d' :
  add_entries entries d = Ok d' ->
  _iniPropertyTree d' = _iniPropertyTree d
  /\ _dictionaryFilePath d' = _dictionaryFilePath d.
Proof.
  revert d. induction entries as [|[w e] entries IH]; intros d E; simpl in E.
  - by injection E as <-.
  - destruct (add_entry d w e) as [d1| |] eqn:E1; try discriminate. simpl in E.
    destruct (IH _ E) as [-> ->].
    unfold add_entry, addToFastSearch in E1. simpl in E1.
    destruct (_fastSearch d !! _); [|done]. simpl in E1. by injection E1 as <-.
Qed.

Lemma call_config d d' :
  call d d' ->
  _iniPropertyTree d' = _iniPropertyTree d
  /\ _dictionaryFilePath d' = _dictionaryFilePath d.
Proof.
  intros [rnd d0|d0 pattern d1 v E]; [done|].
  revert E. unfold findPossible.
  destruct (_cacheSearchMap d0 !! pattern); [by intros [= <- <-]|].
  destruct (_fastSearch d0 !! length pattern); [|done].
  destruct (length pattern <=? 6)%nat; [by intros [= <- <-]|].
  destruct (verify _ _ _ _); simpl; try done. by intros [= <- <-].
Qed.

Lemma calls_config d d' :
  rtc call d d' ->
  _iniPropertyTree d' = _iniPropertyTree d
  /\ _dictionaryFilePath d' = _dictionaryFilePath d.
Proof.
  induction 1 as [d|d d1 d2 Hc _ [IH1 IH2]]; [done|].
  destruct (call_config _ _ Hc) as [E1 E2]. by rewrite IH1, IH2, E1, E2.
Qed.

(** X6.  Loading the same file again gives back the freshly loaded state,
    whatever shuffles and queries were made in between: the cache is
    emptied and the buckets are back in the order of the file. *)
Theorem loadDictionary_again (file : option (list byte)) (d0 d d' : Dictionary) :
  loadDictionary file d0 = Ok d ->
  rtc call d d' ->
  loadDictionary file d' = Ok d.
Proof.
  intros E Hcalls. rewrite loadDictionary_entries in E |- *.
  destruct (add_entries_config _ _ _ E) as [Et Ep]. simpl in Et, Ep.
  destruct (calls_config _ _ Hcalls) as [Et' Ep'].
  unfold reset in *. by rewrite Et', Ep', Et, Ep.
Qed.

(** *** Reading a file written from its entries *)

Lemma split_delim_found delim line rest :
  delim ∉ line ->
  split_delim delim (line ++ delim :: rest) = (line, Some rest).
Proof.
  induction line as [|c line IH]; intros Hnot; simpl.
  - by rewrite decide_True.
  - apply not_elem_of_cons in Hnot as [Hne Hnot].
    rewrite decide_False by done. by rewrite IH.
Qed.

Lemma split_delim_not_found delim line :
  delim ∉ line -> split_delim delim line = (line, None).
Proof.
  induction line as [|c line IH]; intros Hnot; simpl; [done|].
  apply not_elem_of_cons in Hnot as [Hne Hnot].
  rewrite decide_False by done. by rewrite IH.
Qed.

Lemma file_of_entries_cons e entries :
  file_of_entries (e :: entries)
  = e.1 ++ TAB :: e.2 ++ NEWLINE :: file_of_entries entries.
Proof.
  unfold file_of_entries. rewrite bind_cons. by rewrite <- !app_assoc.
Qed.

Lemma length_file_of_entries_cons e entries :
  (length (file_of_entries entries) < length (file_of_entries (e :: entries)))%nat.
Proof.
  rewrite file_of_entries_cons, !length_app. simpl. rewrite length_app. simpl. lia.
Qed.

(** One turn of the loop on a well-formed line. *)
Lemma read_entries_line fuel word expl rest nextWord explanation :
  TAB ∉ word -> NEWLINE ∉ expl ->
  read_entries (S fuel)
    {| buf := word ++ TAB :: expl ++ NEWLINE :: rest;
       eofbit := false; failbit := false |}
    nextWord explanation
  = (dosToWinCode word, dosToWinCode expl)
    :: read_entries fuel {| buf := rest; eofbit := false; failbit := false |}
         (dosToWinCode word) (dosToWinCode expl).
Proof.
  intros Hw He. cbn [read_entries]. unfold getline. cbn [good eofbit failbit buf negb andb].
  rewrite (split_delim_found TAB word _ Hw). cbn [good eofbit failbit buf negb andb].
  by rewrite (split_delim_found NEWLINE expl _ He).
Qed.

Lemma read_entries_written fuel entries nextWord explanation :
  Forall (fun e => (TAB ∉ e.1) /\ (NEWLINE ∉ e.2)) entries ->
  (length (file_of_entries entries) < fuel)%nat ->
  read_entries fuel
    {| buf := file_of_entries entries; eofbit := false; failbit := false |}
    nextWord explanation
  = map recode_entry entries.
Proof.
  intros Hall. revert fuel nextWord explanation.
  induction Hall as [|[w e] entries [Hw He] _ IH]; intros fuel nextWord explanation Hfuel.
  - destruct fuel as [|fuel]; [done|]. reflexivity.
  - destruct fuel as [|fuel]; [lia|].
    pose proof (length_file_of_entries_cons (w, e) entries).
    rewrite file_of_entries_cons. simpl in Hw, He.
    rewrite read_entries_line by done. rewrite IH by lia. done.
Qed.

(** X7.  Round trip of the file format: a file written from entries whose
    words hold no tab and whose explanations hold no newline is read back
    as these entries, both fields recoded. *)
Theorem entries_of_file_written (entries : list (list byte * list byte)) :
  Forall (fun e => (TAB ∉ e.1) /\ (NEWLINE ∉ e.2)) entries ->
  entries_of_file (file_of_entries entries) = map recode_entry entries.
Proof.
  intros Hall. unfold entries_of_file. apply read_entries_written; [done|lia].
Qed.

Lemma dosToWinCode_char_idemp c :
  dosToWinCode_char (dosToWinCode_char c) = dosToWinCode_char c.
Proof.
  unfold dosToWinCode_char. pose proof (u8_range c).
  destruct ((CYRILLIC_A - 96 <=? u8 c) && (u8 c <? CYRILLIC_A - 32)) eqn:E;
    [|by rewrite E].
  apply andb_true_iff in E as [E1%Z.leb_le E2%Z.ltb_lt].
  rewrite u8_char_of.
  destruct (Z.lt_ge_cases (u8 c + 64) 256).
  - rewrite Z.mod_small by lia.
    rewrite (proj2 (Z.ltb_ge _ _)) by lia. by rewrite andb_false_r.
  - replace ((u8 c + 64) mod 256) with (u8 c + 64 - 256).
    + by rewrite (proj2 (Z.leb_gt _ _)) by lia.
    + apply Z.mod_unique with 1; lia.
Qed.

Lemma dosToWinCode_idemp w : dosToWinCode (dosToWinCode w) = dosToWinCode w.
Proof.
  unfold dosToWinCode. rewrite map_map. apply map_ext.
  intros c. apply dosToWinCode_char_idemp.
Qed.

Lemma read_entries_failed fuel fin nextWord explanation :
  good fin = false -> read_entries fuel fin nextWord explanation = [].
Proof.
  intros Hg. destruct fuel as [|fuel]; [done|]. simpl.
  pose proof (getline_not_good fin nextWord TAB Hg) as Hf.
  destruct (getline fin nextWord TAB) as [fin1 w]. simpl in Hf. by rewrite Hf.
Qed.

Lemma read_entries_last_word fuel entries word nextWord explanation :
  Forall (fun e => (TAB ∉ e.1) /\ (NEWLINE ∉ e.2)) entries ->
  word <> [] -> TAB ∉ word ->
  (length (file_of_entries entries ++ word) < fuel)%nat ->
  read_entries fuel
    {| buf := file_of_entries entries ++ word; eofbit := false; failbit := false |}
    nextWord explanation
  = map recode_entry entries
    ++ [(dosToWinCode word,
         dosToWinCode (from_option (fun e => dosToWinCode e.2) explanation
                         (last entries)))].
Proof.
  intros Hall Hne Hw. revert fuel nextWord explanation.
  induction Hall as [|[w e] entries [Hw1 He1] _ IH]; intros fuel nextWord explanation Hfuel.
  - destruct fuel as [|fuel]; [simpl in Hfuel; lia|].
    change (file_of_entries [] ++ word) with word.
    cbn [read_entries]. unfold getline at 1. cbn [good eofbit failbit buf negb andb].
    rewrite (split_delim_not_found TAB word Hw).
    rewrite bool_decide_eq_false_2 by done. cbn [failbit].
    unfold getline at 1. cbn [good eofbit failbit buf negb andb].
    rewrite read_entries_failed by done. done.
  - destruct fuel as [|fuel]; [lia|].
    pose proof (length_file_of_entries_cons (w, e) entries).
    rewrite length_app in Hfuel.
    rewrite file_of_entries_cons. simpl in Hw1, He1. cbn [fst snd].
    rewrite <- app_assoc. cbn [app]. rewrite <- app_assoc. cbn [app].
    rewrite read_entries_line by done. rewrite IH by (rewrite length_app; lia).
    assert (Hl : from_option (fun e0 : list byte * list byte => dosToWinCode e0.2)
                   (dosToWinCode e) (last entries)
                 = from_option (fun e0 : list byte * list byte => dosToWinCode e0.2)
                     explanation (last ((w, e) :: entries))).
    { destruct entries as [|e' entries]; [done|]. rewrite last_cons_cons.
      destruct (last (e' :: entries)) eqn:El; [done|]. by apply last_None in El. }
    by rewrite Hl.
Qed.

(** X8.  A last line that holds a word but no tab is loaded all the same,
    and with the explanation of the entry before it (with none when it is
    the only line): the second [getline] finds the stream at its end and
    leaves the variable [explanation] as the turn before left it. *)
Theorem entries_of_file_last_word (entries : list (list byte * list byte))
  (word : list byte) :
  Forall (fun e => (TAB ∉ e.1) /\ (NEWLINE ∉ e.2)) entries ->
  word <> [] -> TAB ∉ word ->
  entries_of_file (file_of_entries entries ++ word)
  = map recode_entry entries
    ++ [(dosToWinCode word,
         from_option (fun e => dosToWinCode e.2) [] (last entries))].
Proof.
  intros Hall Hne Hw. unfold entries_of_file.
  rewrite read_entries_last_word by (try done; lia). do 3 f_equal.
  destruct (last entries) as [e|]; simpl; [|done]. apply dosToWinCode_idemp.
Qed.

(** *** The default constructor *)

Lemma add_entries_never_throws entries d what :
  add_entries entries d <> Throw what.
Proof.
  revert d. induction entries as [|[w e] entries IH]; intros d; simpl; [done|].
  unfold add_entry at 1, addToFastSearch. simpl.
  destruct (_fastSearch d !! _); simpl; [apply IH|done].
Qed.

Lemma construct_never_throws w rnd tree what : construct w rnd tree <> Throw what.
Proof.
  unfold construct. rewrite loadDictionary_entries.
  match goal with |- context [add_entries ?es ?d] =>
    pose proof (add_entries_never_throws es d what) as Hn;
    destruct (add_entries es d) end; simpl; congruence.
Qed.

(** X9.  The default constructor throws exactly when the default
    configuration cannot be read or parsed, and then what [read_ini] threw:
    neither a configuration without [dictionary.dictionary_file_path] nor a
    dictionary file that cannot be opened makes it throw. *)
Theorem Dictionary_default_throws (w : World) (rnd : Random) (what : string) :
  Dictionary_default w rnd = Throw what
  <-> read_ini w DEFAULT_CONFIG_PATH = Throw what.
Proof.
  unfold Dictionary_default.
  destruct (read_ini w DEFAULT_CONFIG_PATH) as [tree|e|] eqn:E; simpl.
  - split; [|done]. intros Ht. by apply construct_never_throws in Ht.
  - split; by intros [= ->].
  - split; intros Hd; discriminate Hd.
Qed.

Lemma shuffle_empty rnd tree path :
  shuffle rnd (empty_dictionary tree path) = empty_dictionary tree path.
Proof.
  unfold shuffle, empty_dictionary, with_tables. simpl. f_equal.
  apply list_eq. intros i. rewrite list_lookup_imap.
  destruct (replicate LONGEST_WORD ∅ !! i) as [t|] eqn:Et; [|done].
  apply lookup_replicate in Et as [-> _]. simpl. f_equal.
  destruct (i <? LONGEST_WORD)%nat; [|done].
  apply map_imap_empty.
Qed.

(** X10.  When the configuration is read but the dictionary file it names
    (or, without the key, the default dictionary file) cannot be opened, the
    default constructor builds the empty dictionary. *)
Theorem Dictionary_default_without_dictionary (w : World) (rnd : Random)
  (tree : gmap (list byte) (list byte)) :
  read_ini w DEFAULT_CONFIG_PATH = Ok tree ->
  files w !! configured_path tree = None ->
  Dictionary_default w rnd = Ok (empty_dictionary tree (configured_path tree)).
Proof.
  intros Et Ef. unfold Dictionary_default. rewrite Et. simpl.
  unfold construct. fold (configured_path tree). rewrite Ef. simpl.
  unfold reset. simpl. by rewrite shuffle_empty.
Qed.

End MoreLoading.

Lemma sample_calls : rtc (@call cp1251) sample_dictionary sample_shuffled.
Proof.
  apply rtc_l with (y := sample_query.1).
  - apply (@call_findPossible cp1251 sample_dictionary [xc0; x00] _ sample_query.2).
    vm_compute. reflexivity.
  - apply rtc_once. apply (@call_shuffle cp1251).
Qed.

Lemma long_reachable : @reachable cp1251 long_dictionary.
Proof.
  apply (@reach_load cp1251 (Some long_file) (@empty_dictionary cp1251 ∅ [])).
  vm_compute. reflexivity.
Qed.


Lemma findPossible_long_answer_witness :
  exists d' v,
    @findPossible cp1251 long_dictionary [xc0; xc1; xc2; xc3; xc4; xc5; x00] = Ok (d', v)
    /\ forall id, id ∈ view_ids d' v
         <-> exists k word, _allWords long_dictionary !! k = Some word
               /\ length word = length [xc0; xc1; xc2; xc3; xc4; xc5; x00]
               /\ id = Z.of_nat k
               /\ matches_upto x00 6 [xc0; xc1; xc2; xc3; xc4; xc5; x00] word
               /\ matches_upto (@ANY_CHAR cp1251)
                    (length [xc0; xc1; xc2; xc3; xc4; xc5; x00])
                    [xc0; xc1; xc2; xc3; xc4; xc5; x00] word.
Proof.
  apply (@findPossible_long_answer cp1251 long_dictionary
           [xc0; xc1; xc2; xc3; xc4; xc5; x00]).
  - exact long_reachable.
  - simpl. lia.
  - simpl. lia.
  - unfold within_capacity. vm_compute. discriminate.
Defined.

Lemma findPossible_stable_witness :
  view_ids sample_query_before.1 sample_query_before.2
  ≡ₚ view_ids sample_query_after.1 sample_query_after.2.
Proof.
  apply (@findPossible_stable cp1251 sample_dictionary sample_shuffled
           sample_query_before.1 sample_query_after.1 [x00; xc1]
           sample_query_before.2 sample_query_after.2).
  - exact sample_reachable.
  - exact sample_calls.
  - vm_compute. reflexivity.
  - vm_compute. reflexivity.
Defined.

Lemma loadDictionary_missing_file_witness :
  exists d, @loadDictionary cp1251 None sample_dictionary = Ok d
    /\ _allWords d = []
    /\ _dirtyDict d = ∅
    /\ exists d' v, @findPossible cp1251 d [xc0; x00] = Ok (d', v) /\ view_ids d' v = [].
Proof.
  apply (@loadDictionary_missing_file cp1251 sample_dictionary [xc0; x00]).
  simpl. lia.
Defined.

Lemma loadDictionary_again_witness :
  @loadDictionary cp1251 (Some sample_file) sample_shuffled = Ok sample_dictionary.
Proof.
  apply (@loadDictionary_again cp1251 (Some sample_file) (@empty_dictionary cp1251 ∅ [])
           sample_dictionary sample_shuffled).
  - exact sample_loaded.
  - exact sample_calls.
Defined.

Lemma entries_of_file_written_witness :
  @entries_of_file cp1251 (file_of_entries [([x80; x20; xc1], [x78]); ([xc2], [])])
  = map (@recode_entry cp1251) [([x80; x20; xc1], [x78]); ([xc2], [])].
Proof.
  apply (@entries_of_file_written cp1251 [([x80; x20; xc1], [x78]); ([xc2], [])]).
  repeat constructor; simpl; rewrite list_elem_of_In; simpl; intuition discriminate.
Defined.

Lemma entries_of_file_last_word_witness :
  @entries_of_file cp1251 (file_of_entries [([xc0], [x41])] ++ [xc1])
  = map (@recode_entry cp1251) [([xc0], [x41])]
    ++ [(@dosToWinCode cp1251 [xc1],
         from_option (fun e => @dosToWinCode cp1251 e.2) [] (last [([xc0], [x41])]))].
Proof.
  apply (@entries_of_file_last_word cp1251 [([xc0], [x41])] [xc1]).
  - repeat constructor; simpl; rewrite list_elem_of_In; simpl; intuition discriminate.
  - discriminate.
  - rewrite list_elem_of_In; simpl; intuition discriminate.
Defined.

Lemma Dictionary_default_without_dictionary_witness :
  @Dictionary_default cp1251 world_without_dictionary zero_draws
  = Ok (@empty_dictionary cp1251 ∅ (configured_path ∅)).
Proof.
  apply (@Dictionary_default_without_dictionary cp1251 world_without_dictionary
           zero_draws ∅).
  - vm_compute. reflexivity.
  - vm_compute. reflexivity.
Defined.

(** ** More on the normaliser *)

Section MoreNormaliser.
Context `{Header}.

Lemma elem_of_cleanString c w :
  c ∈ cleanString w <-> c ∈ w /\ isalpha c = true.
Proof.
  induction w as [|c' w IH]; simpl.
  - split; [by intros ?%elem_of_nil|by intros [?%elem_of_nil _]].
  - destruct (isalpha c') eqn:E; rewrite ?elem_of_cons, IH, ?elem_of_cons.
    + split; [intros [->|[? ?]]; auto|intros [[->|?] ?]; auto].
    + split; [intros [? ?]; auto|intros [[->|?] ?]; [congruence|auto]].
Qed.

Lemma cleanString_app a b : cleanString (a ++ b) = cleanString a ++ cleanString b.
Proof.
  induction a as [|c a IH]; simpl; [done|].
  destruct (isalpha c); simpl; by rewrite IH.
Qed.

Lemma toupper_char_upper c :
  224 <= CYRILLIC_A -> isalpha c = true -> is_upper_letter (toupper_char c).
Proof.
  unfold isalpha, is_upper_letter, toupper_char. intros HA Hc%Z.leb_le.
  pose proof (u8_range c).
  destruct (Z.leb_spec CYRILLIC_A (u8 c)); [|lia].
  rewrite u8_char_of, Z.mod_small; lia.
Qed.

Lemma upper_word_fixed w : Forall is_upper_letter w -> canonical w = w.
Proof.
  intros Hw. unfold canonical, dosToWinCode, toupper.
  assert (E1 : map dosToWinCode_char w = w).
  { induction Hw as [|c s Hc _ IH]; simpl; [done|].
    by rewrite (dosToWinCode_upper c Hc), IH. }
  rewrite E1, cleanString_id.
  - induction Hw as [|c s Hc _ IH]; simpl; [done|].
    rewrite toupper_upper by done. f_equal. apply IH.
    clear -E1. simpl in E1. by injection E1.
  - eapply Forall_impl; [exact Hw|]. intros c Hc.
    by apply is_upper_letter_spec in Hc as [? _].
Qed.

Lemma toupper_cleanString_upper w :
  224 <= CYRILLIC_A -> Forall is_upper_letter (toupper (cleanString w)).
Proof.
  intros HA. unfold toupper. apply Forall_fmap, Forall_forall.
  intros c [_ Hc]%elem_of_cleanString. by apply toupper_char_upper.
Qed.

(** X11.  When the small letters start at 224 or above (so that a small
    letter lowered by 32 is a capital letter), the canonical key of any
    string consists of capital letters only, and normalising a key again
    gives the same key. *)
Theorem canonical_upper (raw : list byte) :
  224 <= CYRILLIC_A ->
  Forall is_upper_letter (canonical raw)
  /\ canonical (canonical raw) = canonical raw.
Proof.
  intros HA.
  assert (Hu : Forall is_upper_letter (canonical raw))
    by (by apply toupper_cleanString_upper).
  split; [done|]. by apply upper_word_fixed.
Qed.

Lemma canonical_char_toupper c :
  224 <= CYRILLIC_A ->
  canonical [toupper_char c] = canonical [c].
Proof.
  intros HA. pose proof (u8_range c) as Hr.
  destruct (Z.leb_spec CYRILLIC_A (u8 c)) as [Hc|Hc].
  - assert (Et : toupper_char c = char_of (u8 c - 32)).
    { unfold toupper_char. destruct (Z.leb_spec CYRILLIC_A (u8 c)); [done|lia]. }
    assert (Hup : is_upper_letter (char_of (u8 c - 32))).
    { unfold is_upper_letter. rewrite u8_char_of, Z.mod_small; lia. }
    rewrite Et at 1. rewrite (upper_word_fixed [char_of (u8 c - 32)])
      by (constructor; [exact Hup|constructor]).
    assert (Ed : dosToWinCode_char c = c).
    { unfold dosToWinCode_char.
      destruct (Z.ltb_spec (u8 c) (CYRILLIC_A - 32)); [lia|].
      by rewrite andb_false_r. }
    assert (Ea : isalpha c = true) by (unfold isalpha; lia).
    unfold canonical, dosToWinCode, toupper. simpl. rewrite Ed. simpl.
    rewrite Ea. simpl. by rewrite Et.
  - assert (Et : toupper_char c = c).
    { unfold toupper_char. destruct (Z.leb_spec CYRILLIC_A (u8 c)); [lia|done]. }
    by rewrite Et.
Qed.

Lemma canonical_app a b : canonical (a ++ b) = canonical a ++ canonical b.
Proof.
  unfold canonical, dosToWinCode, toupper.
  by rewrite map_app, cleanString_app, map_app.
Qed.

Lemma canonical_cons c w : canonical (c :: w) = canonical [c] ++ canonical w.
Proof. apply (canonical_app [c] w). Qed.

(** X12.  The key does not tell a small letter from its capital, nor the DOS
    code page from Windows-1251: raising a string, or recoding it, before
    it is normalised changes nothing. *)
Theorem canonical_insensitive (raw : list byte) :
  224 <= CYRILLIC_A ->
  canonical (toupper raw) = canonical raw
  /\ canonical (dosToWinCode raw) = canonical raw.
Proof.
  intros HA. split.
  - induction raw as [|c raw IH]; [done|].
    change (toupper (c :: raw)) with (toupper_char c :: toupper raw).
    rewrite (canonical_cons c), (canonical_cons (toupper_char c)), IH.
    by rewrite canonical_char_toupper.
  - unfold canonical. by rewrite dosToWinCode_idemp.
Qed.

(** X13.  A character below [CYRILLIC_A - 96] (in Windows-1251: every ASCII
    character, so blanks, digits, hyphens and Latin letters) never reaches
    the key, wherever it stands; and no key is longer than the string it
    is made from. *)
Theorem canonical_drops (before after : list byte) (c : byte) :
  u8 c < CYRILLIC_A - 96 ->
  canonical (before ++ c :: after) = canonical (before ++ after)
  /\ (length (canonical (before ++ c :: after)) <= length (before ++ after))%nat.
Proof.
  intros Hc.
  assert (E : canonical [c] = []).
  { unfold canonical, dosToWinCode. simpl. unfold dosToWinCode_char.
    destruct (Z.leb_spec (CYRILLIC_A - 96) (u8 c)); [lia|]. simpl.
    unfold isalpha. destruct (Z.leb_spec (CYRILLIC_A - 32) (u8 c)); [lia|done]. }
  assert (Hlen : forall w, (length (canonical w) <= length w)%nat).
  { intros w. unfold canonical, toupper, dosToWinCode. rewrite length_map.
    rewrite <- (length_map dosToWinCode_char w).
    generalize (map dosToWinCode_char w). intros l.
    induction l as [|x l IH]; simpl; [lia|]. destruct (isalpha x); simpl; lia. }
  assert (E' : canonical (before ++ c :: after) = canonical (before ++ after)).
  { by rewrite !canonical_app, (canonical_cons c), E. }
  split; [done|]. rewrite E'. apply Hlen.
Qed.

(** X14.  In every state reached by loading, shuffling and querying, each
    word of the table consists of capital letters only and is its own
    canonical key (for [CYRILLIC_A] at 224 or above). *)
Theorem loaded_words_upper (d : Dictionary) (word : list byte) :
  reachable d -> 224 <= CYRILLIC_A -> word ∈ _allWords d ->
  Forall is_upper_letter word /\ canonical word = word.
Proof.
  intros [entries ->]%reachable_words HA Hin.
  apply list_elem_of_fmap in Hin as (e & -> & _).
  assert (Hu : Forall is_upper_letter (toupper (cleanString e.1)))
    by (by apply toupper_cleanString_upper).
  split; [done|]. by apply upper_word_fixed.
Qed.

End MoreNormaliser.

Lemma canonical_upper_witness :
  Forall (@is_upper_letter cp1251) (@canonical cp1251 [xe0; x20; x80; x41; xff])
  /\ @canonical cp1251 (@canonical cp1251 [xe0; x20; x80; x41; xff])
     = @canonical cp1251 [xe0; x20; x80; x41; xff].
Proof.
  apply (@canonical_upper cp1251 [xe0; x20; x80; x41; xff]).
  vm_compute. discriminate.
Defined.

Lemma canonical_insensitive_witness :
  @canonical cp1251 (@toupper cp1251 [xe0; x80; xa0; xff]) = @canonical cp1251 [xe0; x80; xa0; xff]
  /\ @canonical cp1251 (@dosToWinCode cp1251 [xe0; x80; xa0; xff])
     = @canonical cp1251 [xe0; x80; xa0; xff].
Proof.
  apply (@canonical_insensitive cp1251 [xe0; x80; xa0; xff]).
  vm_compute. discriminate.
Defined.

Lemma canonical_drops_witness :
  @canonical cp1251 ([xc0] ++ x2d :: [xc1]) = @canonical cp1251 ([xc0] ++ [xc1])
  /\ (length (@canonical cp1251 ([xc0] ++ x2d :: [xc1])) <= length ([xc0] ++ [xc1]))%nat.
Proof.
  apply (@canonical_drops cp1251 [xc0] [xc1] x2d).
  vm_compute. reflexivity.
Defined.

Lemma loaded_words_upper_witness :
  Forall (@is_upper_letter cp1251) [xc0; xc1]
  /\ @canonical cp1251 [xc0; xc1] = [xc0; xc1].
Proof.
  apply (@loaded_words_upper cp1251 sample_dictionary [xc0; xc1]).
  - apply (@reach_load cp1251 (Some sample_file) (@empty_dictionary cp1251 ∅ [])).
    vm_compute. reflexivity.
  - vm_compute. discriminate.
  - vm_compute. apply list_elem_of_here.
Defined.

(** ** More on the keys *)

Lemma lor_below_pow2 a b n :
  0 < n -> 0 <= a < 2 ^ n -> 0 <= b < 2 ^ n -> 0 <= Z.lor a b < 2 ^ n.
Proof.
  intros Hn Ha Hb.
  assert (H0 : 0 <= Z.lor a b) by (apply Z.lor_nonneg; lia).
  split; [done|].
  destruct (decide (Z.lor a b = 0)) as [->|Hne]; [lia|].
  apply Z.log2_lt_pow2; [lia|]. rewrite Z.log2_lor by lia.
  assert (La : Z.log2 a < n).
  { destruct (decide (a = 0)) as [->|]; [by simpl|]. apply Z.log2_lt_pow2; lia. }
  assert (Lb : Z.log2 b < n).
  { destruct (decide (b = 0)) as [->|]; [by simpl|]. apply Z.log2_lt_pow2; lia. }
  lia.
Qed.

Lemma shiftl_byte_below c k :
  0 <= c < 256 -> 0 <= k <= 40 -> 0 <= Z.shiftl c k < 2 ^ 48.
Proof.
  intros Hc Hk. rewrite Z.shiftl_mul_pow2 by lia.
  assert (Hp : 0 < 2 ^ k) by (apply Z.pow_pos_nonneg; lia).
  assert (Hle : 2 ^ k <= 2 ^ 40) by (apply Z.pow_le_mono_r; lia).
  change (2 ^ 48) with (256 * 2 ^ 40). nia.
Qed.

Lemma pack6_below c5 c4 c3 c2 c1 c0 :
  0 <= c5 < 256 -> 0 <= c4 < 256 -> 0 <= c3 < 256 ->
  0 <= c2 < 256 -> 0 <= c1 < 256 -> 0 <= c0 < 256 ->
  0 <= pack6 c5 c4 c3 c2 c1 c0 < 2 ^ 48.
Proof.
  intros H5 H4 H3 H2 H1 H0. unfold pack6.
  repeat (apply lor_below_pow2; [lia| |by apply shiftl_byte_below; [|lia]]).
  lia.
Qed.

Lemma at_take n word i : (i < n)%nat -> at_ (take n word) i = at_ word i.
Proof. intros Hi. rewrite !at_lookup. by rewrite lookup_take_lt. Qed.

Lemma pslot_take word i : (i < 6)%nat -> pslot (take 6 word) i = pslot word i.
Proof.
  intros Hi. unfold pslot. rewrite length_take, at_take by done.
  destruct (Nat.ltb_spec i (length word)), (Nat.ltb_spec i (6 `min` length word));
    try done; lia.
Qed.

Lemma mslot_take mask word i :
  (i < 6)%nat -> mslot mask (take 6 word) i = mslot mask word i.
Proof.
  intros Hi. unfold mslot. rewrite length_take, at_take by done.
  destruct (Nat.ltb_spec i (length word)), (Nat.ltb_spec i (6 `min` length word));
    try done; lia.
Qed.

(** X15.  Both overloads of [getKey] give a key below [2^48] (so the
    64-bit arithmetic of the source never wraps), and the key depends on
    the first six characters only: longer words that start alike share a
    key. *)
Theorem getKey_first_six (mask : Z) (word : list byte) :
  0 <= getKey_mask mask word < 2 ^ 48
  /\ 0 <= getKey word < 2 ^ 48
  /\ getKey_mask mask word = getKey_mask mask (take 6 word)
  /\ getKey word = getKey (take 6 word).
Proof.
  rewrite !getKey_mask_pack, !getKey_pack. split; [|split; [|split]].
  - apply pack6_below; apply mslot_range.
  - apply pack6_below; apply pslot_range.
  - by rewrite !mslot_take by lia.
  - by rewrite !pslot_take by lia.
Qed.

Lemma pslot_inj a b i :
  length a = length b -> pslot a i = pslot b i -> a !! i = b !! i.
Proof.
  intros Hlen E. destruct (a !! i) as [x|] eqn:Ea.
  - destruct (b !! i) as [y|] eqn:Eb.
    + rewrite (pslot_lookup _ _ _ Ea), (pslot_lookup _ _ _ Eb) in E.
      by rewrite (u8_inj _ _ E).
    + apply lookup_lt_Some in Ea. apply lookup_ge_None in Eb. lia.
  - destruct (b !! i) as [y|] eqn:Eb; [|done].
    apply lookup_lt_Some in Eb. apply lookup_ge_None in Ea. lia.
Qed.

(** X16.  Among the words of one length of at most six characters the
    key tells the words apart: two different words of that length never
    have the same key. *)
Theorem getKey_injective (a b : list byte) :
  length a = length b -> (length a <= 6)%nat -> a <> b -> getKey a <> getKey b.
Proof.
  intros Hlen H6 Hne E. apply Hne. rewrite !getKey_pack in E.
  apply pack6_inj in E as (E5 & E4 & E3 & E2 & E1 & E0); try apply pslot_range.
  apply list_eq. intros i.
  destruct (decide (i < 6)%nat) as [Hi|Hi].
  - destruct i as [|[|[|[|[|[|i]]]]]]; try (by apply pslot_inj); lia.
  - rewrite !(proj2 (lookup_ge_None _ _)); [done|lia|lia].
Qed.

Lemma getKey_injective_witness :
  length [xc0; xc1] = length [xc1; xc0]
  /\ getKey [xc0; xc1] <> getKey [xc1; xc0].
Proof.
  split; [reflexivity|].
  apply (getKey_injective [xc0; xc1] [xc1; xc0]).
  - reflexivity.
  - simpl. lia.
  - discriminate.
Defined.

(** ** The table of the edit distance *)

Lemma lev_table_0_r a b i : lev_table a b i 0 = 0.
Proof. by destruct i. Qed.

Lemma lev_table_S a b i j :
  lev_table a b (S i) (S j)
  = Z.min (Z.min (lev_table a b i (S j) + 1) (lev_table a b (S i) j + 1))
          (lev_table a b i j + (if decide (a !! i ≠ b !! j) then 1 else 0)).
Proof. reflexivity. Qed.

Lemma dp_get_set_eq dp i j v :
  in_table dp i j -> dp_get (dp_set dp i j v) i j = v.
Proof.
  intros (row & Hrow & Hj). unfold dp_get, dp_set.
  rewrite list_lookup_alter_eq, Hrow. simpl.
  by rewrite list_lookup_insert_eq.
Qed.

Lemma dp_get_set_ne dp i j v i' j' :
  (i', j') <> (i, j) -> dp_get (dp_set dp i j v) i' j' = dp_get dp i' j'.
Proof.
  intros Hne. unfold dp_get, dp_set.
  destruct (decide (i' = i)) as [->|Hi].
  - rewrite list_lookup_alter_eq. destruct (dp !! i) as [row|]; [|done]. simpl.
    rewrite list_lookup_insert_ne; [done|]. intros ->. by apply Hne.
  - by rewrite list_lookup_alter_ne.
Qed.

Lemma in_table_set dp i j v i' j' :
  in_table dp i' j' -> in_table (dp_set dp i j v) i' j'.
Proof.
  intros (row & Hrow & Hj). unfold in_table, dp_set.
  destruct (decide (i' = i)) as [->|Hi].
  - exists (<[j:=v]> row). rewrite list_lookup_alter_eq, Hrow. simpl.
    by rewrite length_insert.
  - exists row. by rewrite list_lookup_alter_ne.
Qed.

Lemma filled_cell a b dp i j :
  (i <= length a)%nat -> (j <= length b)%nat ->
  filled a b dp i j -> filled a b (levenstein_cell a b dp i j) i (S j).
Proof.
  intros Hi Hj [Hin Hval].
  assert (Hother : forall v i' j', (i' < i \/ (i' = i /\ j' < j))%nat ->
            dp_get (dp_set dp i j v) i' j' = dp_get dp i' j').
  { intros v i' j' Hb. apply dp_get_set_ne. intros [= -> ->]. lia. }
  unfold levenstein_cell.
  destruct (Nat.eqb_spec (Nat.min i j) 0) as [Hmin|Hmin].
  - split; [intros; by apply in_table_set, Hin|].
    intros i' j' Hi' Hj' Hb.
    destruct (decide ((i', j') = (i, j))) as [[= -> ->]|Hne].
    + rewrite dp_get_set_eq by (by apply Hin).
      destruct i as [|i]; [done|]. destruct j as [|j]; [by rewrite lev_table_0_r|].
      simpl in Hmin. lia.
    + rewrite dp_get_set_ne by done. apply Hval; try done.
      assert (~ (i' = i /\ j' = j)) by (intros [-> ->]; by apply Hne). lia.
  - destruct i as [|i]; [simpl in Hmin; lia|].
    destruct j as [|j]; [rewrite Nat.min_0_r in Hmin; lia|].
    replace (S i - 1)%nat with i by lia. replace (S j - 1)%nat with j by lia.
    split; [intros; by apply in_table_set, in_table_set, Hin|].
    intros i' j' Hi' Hj' Hb.
    destruct (decide ((i', j') = (S i, S j))) as [[= -> ->]|Hne].
    + rewrite dp_get_set_eq by (by apply in_table_set, Hin).
      rewrite dp_get_set_eq by (by apply Hin).
      rewrite dp_get_set_ne by (intros [= ? ?]; lia).
      rewrite lev_table_S.
      rewrite !Hval by lia. done.
    + rewrite !dp_get_set_ne by done. apply Hval; try done.
      assert (~ (i' = S i /\ j' = S j)) by (intros [-> ->]; by apply Hne). lia.
Qed.

Lemma filled_row a b dp i j n :
  (i <= length a)%nat -> (j + n <= S (length b))%nat ->
  filled a b dp i j ->
  filled a b (foldl (fun dp j => levenstein_cell a b dp i j) dp (seq j n)) i (j + n).
Proof.
  revert dp j. induction n as [|n IH]; intros dp j Hi Hj Hf; simpl.
  - by rewrite Nat.add_0_r.
  - replace (j + S n)%nat with (S j + n)%nat by lia.
    apply IH; [done|lia|]. apply filled_cell; [done|lia|done].
Qed.

Lemma filled_next_row a b dp i :
  filled a b dp i (S (length b)) -> filled a b dp (S i) 0.
Proof.
  intros [Hin Hval]. split; [done|].
  intros i' j' Hi' Hj' Hb. apply Hval; try done. lia.
Qed.

Lemma filled_rows a b dp i n :
  (i + n <= S (length a))%nat ->
  filled a b dp i 0 ->
  filled a b
    (foldl (fun dp i => foldl (fun dp j => levenstein_cell a b dp i j)
                              dp (seq 0 (S (length b))))
           dp (seq i n))
    (i + n) 0.
Proof.
  revert dp i. induction n as [|n IH]; intros dp i Hi Hf.
  - simpl. by rewrite Nat.add_0_r.
  - cbn [seq foldl]. replace (i + S n)%nat with (S i + n)%nat by lia.
    apply IH; [lia|]. apply filled_next_row.
    apply (filled_row a b dp i 0 (S (length b))); [lia|lia|done].
Qed.

Lemma filled_start a b :
  filled a b (replicate (S (length a)) (replicate (S (length b)) 0)) 0 0.
Proof.
  split.
  - intros i j Hi Hj. exists (replicate (S (length b)) 0). split.
    + apply lookup_replicate_2. lia.
    + rewrite length_replicate. lia.
  - intros i j _ _ Hb. lia.
Qed.

Lemma levenstein_table a b :
  levenstein a b = lev_table a b (length a) (length b).
Proof.
  unfold levenstein.
  pose proof (filled_rows a b _ 0 (S (length a)) (le_n _) (filled_start a b))
    as [_ Hval].
  apply Hval; lia.
Qed.

Lemma lev_table_ext a b a' b' i j :
  (forall k, (k < i)%nat -> a !! k = a' !! k) ->
  (forall k, (k < j)%nat -> b !! k = b' !! k) ->
  lev_table a b i j = lev_table a' b' i j.
Proof.
  revert j. induction i as [|i IHi]; intros j Ha Hb; [done|].
  induction j as [|j IHj]; [done|].
  rewrite !lev_table_S.
  rewrite (IHi (S j)), IHj, (IHi j), (Ha i), (Hb j); auto with lia.
Qed.

Lemma levenstein_snoc a b x y :
  levenstein (a ++ [x]) (b ++ [y])
  = Z.min (Z.min (levenstein a (b ++ [y]) + 1) (levenstein (a ++ [x]) b + 1))
          (levenstein a b + (if decide (x = y) then 0 else 1)).
Proof.
  rewrite !levenstein_table, !length_app. simpl length.
  rewrite !Nat.add_1_r, lev_table_S.
  assert (Ea : forall k, (k < length a)%nat -> (a ++ [x]) !! k = a !! k)
    by (intros; by apply lookup_app_l).
  assert (Eb : forall k, (k < length b)%nat -> (b ++ [y]) !! k = b !! k)
    by (intros; by apply lookup_app_l).
  rewrite (lev_table_ext (a ++ [x]) (b ++ [y]) a (b ++ [y]) (length a) (S (length b)))
    by auto.
  rewrite (lev_table_ext (a ++ [x]) (b ++ [y]) (a ++ [x]) b (S (length a)) (length b))
    by auto.
  rewrite (lev_table_ext (a ++ [x]) (b ++ [y]) a b (length a) (length b)) by auto.
  rewrite !list_lookup_middle by done.
  repeat f_equal. destruct (decide (x = y)) as [->|Hne].
  - by rewrite decide_False by (intros Hn; by apply Hn).
  - rewrite decide_True; [done|]. intros [= ?]. by apply Hne.
Qed.

(** X17.  The recurrence [levenstein] computes: zero against the empty
    string on either side, and for two strings that end in [x] and [y] the
    least of: one more than the value without [x], one more than the value
    without [y], and the value without both, plus one when [x] and [y]
    differ. *)
Theorem levenstein_recurrence (a b : list byte) (x y : byte) :
  levenstein a [] = 0
  /\ levenstein [] b = 0
  /\ levenstein (a ++ [x]) (b ++ [y])
     = Z.min (Z.min (levenstein a (b ++ [y]) + 1) (levenstein (a ++ [x]) b + 1))
             (levenstein a b + (if decide (x = y) then 0 else 1)).
Proof.
  split; [apply levenstein_empty_r|]. split; [apply levenstein_empty_l|].
  apply levenstein_snoc.
Qed.

Lemma levenstein_range a b :
  0 <= levenstein a b <= Z.of_nat (Nat.min (length a) (length b)).
Proof.
  revert b. induction a as [|x a IHa] using rev_ind; intros b.
  - rewrite levenstein_empty_l. simpl. lia.
  - induction b as [|y b IHb] using rev_ind.
    + rewrite levenstein_empty_r. lia.
    + rewrite levenstein_snoc.
      pose proof (IHa b) as H1. pose proof (IHa (b ++ [y])) as H2.
      rewrite !length_app in *. simpl length in *.
      destruct (decide (x = y)); lia.
Qed.

(** X18.  The result is never negative and never above the length of the
    shorter string. *)
Theorem levenstein_bounds (a b : list byte) :
  0 <= levenstein a b <= Z.of_nat (Nat.min (length a) (length b)).
Proof. apply levenstein_range. Qed.

Lemma levenstein_comm a b : levenstein a b = levenstein b a.
Proof.
  revert b. induction a as [|x a IHa] using rev_ind; intros b.
  - by rewrite levenstein_empty_l, levenstein_empty_r.
  - induction b as [|y b IHb] using rev_ind.
    + by rewrite levenstein_empty_l, levenstein_empty_r.
    + rewrite !levenstein_snoc, (IHa b), (IHa (b ++ [y])), IHb.
      destruct (decide (x = y)) as [->|Hne].
      * rewrite decide_True by done. lia.
      * rewrite decide_False by (intros ->; by apply Hne). lia.
Qed.

(** X19.  The result does not depend on the order of the two strings. *)
Theorem levenstein_symmetric (a b : list byte) : levenstein a b = levenstein b a.
Proof. apply levenstein_comm. Qed.

Lemma levenstein_suffix p s : levenstein (p ++ s) s = 0.
Proof.
  induction s as [|y s IH] using rev_ind.
  - apply levenstein_empty_r.
  - rewrite app_assoc, levenstein_snoc, IH, decide_True by done.
    pose proof (levenstein_range (p ++ s) (s ++ [y])).
    pose proof (levenstein_range ((p ++ s) ++ [y]) s). lia.
Qed.

Lemma levenstein_zero_suffix a b :
  levenstein a b = 0 -> a `suffix_of` b \/ b `suffix_of` a.
Proof.
  revert b. induction a as [|x a IHa] using rev_ind; intros b E.
  - left. apply suffix_nil.
  - induction b as [|y b IHb] using rev_ind.
    + right. apply suffix_nil.
    + rewrite levenstein_snoc in E.
      pose proof (levenstein_range a (b ++ [y])).
      pose proof (levenstein_range (a ++ [x]) b).
      pose proof (levenstein_range a b).
      destruct (decide (x = y)) as [->|Hne]; [|lia].
      destruct (IHa b) as [Hs|Hs]; [lia| |].
      * left. by apply suffix_app.
      * right. by apply suffix_app.
Qed.

(** X20.  The result is zero exactly when one of the two strings is an
    ending of the other one (and not only when they are equal): leading
    characters that one string has in excess cost nothing. *)
Theorem levenstein_zero_iff_suffix (a b : list byte) :
  levenstein a b = 0 <-> a `suffix_of` b \/ b `suffix_of` a.
Proof.
  split; [apply levenstein_zero_suffix|].
  intros [[p ->]|[p ->]].
  - rewrite levenstein_comm. apply levenstein_suffix.
  - apply levenstein_suffix.
Qed.

(** ** Shuffling *)

Section Shuffling.
Context `{Header}.

(** X24.  [shuffle] changes the order inside the buckets and inside the
    cached answers and nothing else: the words, the spellings and the
    explanations stay, the array keeps its tables, and every bucket and
    every cached answer holds after the shuffle what it held before, up to
    order, whatever numbers are drawn. *)
Theorem shuffle_permutes (rnd : Random) (d : Dictionary) :
  _allWords (shuffle rnd d) = _allWords d
  /\ _dirtyDict (shuffle rnd d) = _dirtyDict d
  /\ _explanationDict (shuffle rnd d) = _explanationDict d
  /\ length (_fastSearch (shuffle rnd d)) = length (_fastSearch d)
  /\ (forall len table, _fastSearch d !! len = Some table ->
        exists table', _fastSearch (shuffle rnd d) !! len = Some table'
          /\ (forall key, is_Some (table' !! key) <-> is_Some (table !! key))
          /\ forall key, bucket table' key ≡ₚ bucket table key)
  /\ (forall pattern ids, _cacheSearchMap d !! pattern = Some ids ->
        exists ids', _cacheSearchMap (shuffle rnd d) !! pattern = Some ids'
          /\ ids' ≡ₚ ids)
  /\ (forall pattern, _cacheSearchMap d !! pattern = None ->
        _cacheSearchMap (shuffle rnd d) !! pattern = None).
Proof.
  split_and!; try done.
  - simpl. by rewrite length_imap.
  - intros len table Ht. simpl. rewrite list_lookup_imap, Ht. simpl.
    destruct (len <? LONGEST_WORD)%nat.
    + eexists. split; [done|]. split.
      * intros key. rewrite map_lookup_imap.
        destruct (table !! key); simpl; [|done]. split; eauto.
      * intros key. apply (bucket_shuffled (rand_bucket rnd len)).
    + exists table. by split_and!.
  - intros pattern ids Hc. simpl. rewrite map_lookup_imap, Hc. simpl.
    eexists. split; [done|]. apply random_shuffle_Permutation.
  - intros pattern Hc. simpl. by rewrite map_lookup_imap, Hc.
Qed.

End Shuffling.

(** ** What a query and a load leave behind *)

Section Frame.
Context `{Header}.

(** The state a query that was not in the cache leaves. *)
Lemma findPossible_miss d pattern d' v :
  findPossible d pattern = Ok (d', v) ->
  _cacheSearchMap d !! pattern = None ->
  exists table ids,
    _fastSearch d !! length pattern = Some table
    /\ d' = with_tables d (<[pattern := ids]> (_cacheSearchMap d))
              (<[length pattern := <[getKey pattern := bucket table (getKey pattern)]> table]>
                 (_fastSearch d)).
Proof.
  unfold findPossible. intros E Hc. rewrite Hc in E.
  destruct (_fastSearch d !! length pattern) as [table|]; [|done].
  destruct (length pattern <=? 6)%nat.
  - injection E as <- <-. eauto.
  - destruct (verify _ _ _ _) as [ids| |]; simpl in E; try done.
    injection E as <- <-. eauto.
Qed.

Lemma findPossible_hit_state d pattern d' v ids :
  findPossible d pattern = Ok (d', v) ->
  _cacheSearchMap d !! pattern = Some ids -> d' = d.
Proof. unfold findPossible. intros E Hc. rewrite Hc in E. by injection E as <- <-. Qed.

Lemma findPossible_dicts d pattern d' v :
  findPossible d pattern = Ok (d', v) ->
  _allWords d' = _allWords d
  /\ _dirtyDict d' = _dirtyDict d
  /\ _explanationDict d' = _explanationDict d.
Proof.
  intros E. destruct (_cacheSearchMap d !! pattern) as [ids|] eqn:Ec.
  - by rewrite (findPossible_hit_state _ _ _ _ _ E Ec).
  - by destruct (findPossible_miss _ _ _ _ E Ec) as (table & ids & _ & ->).
Qed.

(** X25.  What a query changes: never the words, the spellings or the
    explanations, never the cached answer of another pattern, never the
    size of the array nor what any bucket holds.  But a query that is not
    answered from the cache writes to the index all the same: it leaves a
    bucket under the key of its pattern, an empty one when there was none
    (the effect of [operator[]] on the table). *)
Theorem findPossible_frame (d d' : Dictionary) (pattern : list byte) (v : Pattern) :
  findPossible d pattern = Ok (d', v) ->
  _allWords d' = _allWords d
  /\ _dirtyDict d' = _dirtyDict d
  /\ _explanationDict d' = _explanationDict d
  /\ (forall other, other <> pattern ->
        _cacheSearchMap d' !! other = _cacheSearchMap d !! other)
  /\ length (_fastSearch d') = length (_fastSearch d)
  /\ (forall len key,
        bucket (default ∅ (_fastSearch d' !! len)) key
        = bucket (default ∅ (_fastSearch d !! len)) key)
  /\ (_cacheSearchMap d !! pattern = None ->
      exists table', _fastSearch d' !! length pattern = Some table'
                     /\ is_Some (table' !! getKey pattern)).
Proof.
  intros E. destruct (findPossible_dicts _ _ _ _ E) as (Hw & Hd & He).
  split; [done|]. split; [done|]. split; [done|].
  destruct (_cacheSearchMap d !! pattern) as [ids|] eqn:Ec.
  { rewrite (findPossible_hit_state _ _ _ _ _ E Ec). by split_and!. }
  destruct (findPossible_miss _ _ _ _ E Ec) as (table & ids & Ht & ->). simpl.
  split_and!.
  - intros other Hne. by rewrite lookup_insert_ne.
  - by rewrite length_insert.
  - intros len key. destruct (decide (len = length pattern)) as [->|Hne].
    + rewrite list_lookup_insert_eq by eauto using lookup_lt_Some.
      rewrite Ht. simpl. apply bucket_insert_self.
    + by rewrite list_lookup_insert_ne.
  - intros _. eexists. split.
    + apply list_lookup_insert_eq. eauto using lookup_lt_Some.
    + rewrite lookup_insert_eq. eauto.
Qed.

(** Every word of the table has a spelling and an explanation on file
    under it, nothing else has, and the spelling on file cleans to the
    word. *)
Lemma add_entry_on_file d nextWord explanation d' :
  add_entry d nextWord explanation = Ok d' ->
  on_file d -> on_file d'.
Proof.
  intros (Hw & Hd & He)%add_entry_effect (Hin & Hex & Hclean).
  split_and!.
  - intros word. rewrite Hw, Hd, emplace_lookup, elem_of_app, list_elem_of_singleton, Hin.
    destruct (_dirtyDict d !! word) eqn:Ed.
    + split; [eauto|]. intros _. left. eauto.
    + destruct (decide (toupper (cleanString nextWord) = word)) as [<-|Hne].
      * split; [eauto|]. by right.
      * split; [|by intros [? ?]]. intros [[? ?]|?]; [done|congruence].
  - intros word. rewrite Hd, He, !emplace_lookup.
    specialize (Hex word).
    destruct (_dirtyDict d !! word) eqn:Ed, (_explanationDict d !! word) eqn:Ee;
      try done.
    + destruct Hex as [Hex _]. destruct Hex as [? ?]; [eauto|done].
    + destruct Hex as [_ Hex]. destruct Hex as [? ?]; [eauto|done].
    + by destruct (decide _).
  - intros word dirty. rewrite Hd, emplace_lookup.
    destruct (_dirtyDict d !! word) eqn:Ed.
    + intros [= <-]. by apply Hclean.
    + destruct (decide _) as [<-|]; [|done]. by intros [= <-].
Qed.

Lemma add_entries_on_file entries d d' :
  add_entries entries d = Ok d' -> on_file d -> on_file d'.
Proof.
  revert d. induction entries as [|[w e] entries IH]; intros d E Hd; simpl in E.
  - by injection E as <-.
  - destruct (add_entry d w e) as [d1| |] eqn:E1; try discriminate. simpl in E.
    apply (IH d1 E). by apply (add_entry_on_file d w e).
Qed.

Lemma reset_on_file d : on_file (reset d).
Proof.
  split_and!; simpl.
  - intros word. rewrite lookup_empty. split; [by intros ?%elem_of_nil|by intros [? ?]].
  - intros word. by rewrite !lookup_empty.
  - intros word dirty. by rewrite lookup_empty.
Qed.

Lemma call_on_file d d' : call d d' -> on_file d -> on_file d'.
Proof.
  intros [rnd d0|d0 pattern d1 v E]; [done|].
  destruct (findPossible_dicts _ _ _ _ E) as (Hw & Hd & He).
  unfold on_file. by rewrite Hw, Hd, He.
Qed.

(** X26.  In every state reached by loading, shuffling and querying, the
    words of the table are exactly the keys that have a spelling on file,
    each of them has an explanation too, and the spelling on file cleans
    and raises to the word: [getDirty] and [getExplanation] never take
    their fallback for a word an identifier resolves to. *)
Theorem loaded_words_on_file (d : Dictionary) (word : list byte) :
  reachable d ->
  (word ∈ _allWords d <-> is_Some (_dirtyDict d !! word))
  /\ (is_Some (_dirtyDict d !! word) <-> is_Some (_explanationDict d !! word))
  /\ (word ∈ _allWords d ->
      _dirtyDict d !! word = Some (getDirty d word)
      /\ _explanationDict d !! word = Some (getExplanation d word)
      /\ toupper (cleanString (getDirty d word)) = word).
Proof.
  intros Hr.
  assert (Hof : on_file d).
  { induction Hr as [file d0 d E|d d' _ IH Hc].
    - rewrite loadDictionary_entries in E.
      apply (add_entries_on_file _ _ _ E), reset_on_file.
    - by apply (call_on_file d). }
  destruct Hof as (Hin & Hex & Hclean).
  split; [apply Hin|]. split; [apply Hex|].
  intros Hw. apply Hin in Hw as [dirty Hd].
  destruct (proj1 (Hex word)) as [expl He]; [eauto|].
  unfold getDirty, getExplanation. rewrite Hd, He.
  split_and!; try done. by apply Hclean.
Qed.

End Frame.

Lemma findPossible_frame_witness :
  _allWords sample_query.1 = _allWords sample_dictionary
  /\ _dirtyDict sample_query.1 = _dirtyDict sample_dictionary
  /\ _explanationDict sample_query.1 = _explanationDict sample_dictionary
  /\ (forall other, other <> [xc0; x00] ->
        _cacheSearchMap sample_query.1 !! other = _cacheSearchMap sample_dictionary !! other)
  /\ length (_fastSearch sample_query.1) = length (_fastSearch sample_dictionary)
  /\ (forall len key,
        bucket (default ∅ (_fastSearch sample_query.1 !! len)) key
        = bucket (default ∅ (_fastSearch sample_dictionary !! len)) key)
  /\ (_cacheSearchMap sample_dictionary !! [xc0; x00] = None ->
      exists table', _fastSearch sample_query.1 !! length [xc0; x00] = Some table'
                     /\ is_Some (table' !! getKey [xc0; x00])).
Proof.
  apply (@findPossible_frame cp1251 sample_dictionary sample_query.1 [xc0; x00]
           sample_query.2).
  vm_compute. reflexivity.
Defined.

Lemma loaded_words_on_file_witness :
  ([xc0; xc1] ∈ _allWords sample_dictionary
   <-> is_Some (_dirtyDict sample_dictionary !! [xc0; xc1]))
  /\ (is_Some (_dirtyDict sample_dictionary !! [xc0; xc1])
      <-> is_Some (_explanationDict sample_dictionary !! [xc0; xc1]))
  /\ ([xc0; xc1] ∈ _allWords sample_dictionary ->
      _dirtyDict sample_dictionary !! [xc0; xc1]
      = Some (getDirty sample_dictionary [xc0; xc1])
      /\ _explanationDict sample_dictionary !! [xc0; xc1]
         = Some (getExplanation sample_dictionary [xc0; xc1])
      /\ @toupper cp1251 (@cleanString cp1251 (getDirty sample_dictionary [xc0; xc1]))
         = [xc0; xc1]).
Proof.
  apply (@loaded_words_on_file cp1251 sample_dictionary [xc0; xc1]).
  exact sample_reachable.
Defined.

(** ** Beyond the capacity of the identifiers *)

Section Capacity.
Context `{Header}.

(** A query returns as soon as every identifier of the bucket resolves to a
    word of the length of the pattern: here because the table holds at
    least [2^16] words, all of that length. *)
Lemma findPossible_returns_uniform d pattern :
  index_inv d ->
  (length pattern < LONGEST_WORD)%nat ->
  65536 <= Z.of_nat (length (_allWords d)) ->
  Forall (fun word => length word = length pattern) (_allWords d) ->
  exists d' v, findPossible d pattern = Ok (d', v).
Proof.
  intros Hinv Hlen Hfull Hall. unfold findPossible.
  destruct (_cacheSearchMap d !! pattern) as [cached|] eqn:Ec; [eauto|].
  rewrite <- (inv_size d Hinv) in Hlen.
  destruct (lookup_lt_is_Some_2 _ _ Hlen) as [table Et]. rewrite Et.
  destruct (Nat.leb_spec (length pattern) 6) as [Hshort|Hgt]; [eauto|].
  destruct (verify_in_range d pattern (bucket table (getKey pattern))) as [ids ->];
    [|simpl; eauto].
  apply Forall_forall. intros id Hid.
  rewrite (inv_bucket d Hinv _ _ (getKey pattern) Et) in Hid.
  apply candidate_resolves in Hid as [[word Ew] _].
  exists word. split; [done|]. right.
  by apply (proj1 (Forall_lookup _ _) Hall (Z.to_nat id) word).
Qed.

End Capacity.

Lemma map_replicate {A B} (f : A -> B) n x :
  map f (replicate n x) = replicate n (f x).
Proof. induction n as [|n IH]; simpl; [done|]. by rewrite IH. Qed.

Lemma overfull_entries_read n :
  @entries_of_file cp1251 (overfull_file n) = overfull_entries n.
Proof.
  unfold entries_of_file, overfull_file.
  rewrite read_entries_written; [| |lia].
  - unfold overfull_entries. rewrite map_app, map_replicate.
    reflexivity.
  - unfold overfull_entries. apply Forall_app. split.
    + apply Forall_replicate. split; simpl; rewrite list_elem_of_In; simpl;
        intuition discriminate.
    + repeat constructor; simpl; rewrite list_elem_of_In; simpl;
        intuition discriminate.
Qed.

Lemma overfull_words n :
  map (fun e : list byte * list byte => @toupper cp1251 (@cleanString cp1251 e.1))
      (overfull_entries n)
  = replicate n early_word ++ [late_word].
Proof.
  unfold overfull_entries. rewrite map_app, map_replicate.
  reflexivity.
Qed.

(** With [2^16] copies of a word before it, the last word of the file is
    registered under the identifier 0, and the query for it finds
    nothing. *)
Lemma overfull_query n :
  Z.of_nat n = 65536 ->
  exists d d' v,
    @loadDictionary cp1251 (Some (overfull_file n)) (@empty_dictionary cp1251 ∅ []) = Ok d
    /\ @reachable cp1251 d
    /\ Z.of_nat (length (_allWords d)) = 65537
    /\ _allWords d !! n = Some late_word
    /\ (length late_word < @LONGEST_WORD cp1251)%nat
    /\ @findPossible cp1251 d late_word = Ok (d', v)
    /\ view_ids d' v = []
    /\ (u16 (Z.of_nat n) ∉ view_ids d' v)
    /\ (Z.of_nat n ∉ view_ids d' v).
Proof.
  intros Hn65. set (d0 := @empty_dictionary cp1251 ∅ []).
  assert (Hshort : (length early_word < @LONGEST_WORD cp1251)%nat
                   /\ (length late_word < @LONGEST_WORD cp1251)%nat)
    by (split; vm_compute; lia).
  destruct (@loadDictionary_returns cp1251 (Some (overfull_file n)) d0) as [d E].
  { change (from_option (@entries_of_file cp1251) [] (Some (overfull_file n)))
      with (@entries_of_file cp1251 (overfull_file n)).
    rewrite overfull_entries_read. unfold overfull_entries.
    apply Forall_app. split; [apply Forall_replicate|apply Forall_singleton];
      apply Hshort. }
  assert (Hr : @reachable cp1251 d) by exact (@reach_load cp1251 _ _ _ E).
  assert (Hw : _allWords d = replicate n early_word ++ [late_word]).
  { pose proof E as E'. rewrite loadDictionary_entries in E'.
    change (from_option (@entries_of_file cp1251) [] (Some (overfull_file n)))
      with (@entries_of_file cp1251 (overfull_file n)) in E'.
    rewrite overfull_entries_read in E'.
    apply (@add_entries_words cp1251) in E'. rewrite E'.
    change (_allWords (@reset cp1251 d0)) with (@nil (list byte)).
    rewrite app_nil_l. apply overfull_words. }
  assert (Hn : Z.of_nat (length (_allWords d)) = 65537).
  { rewrite Hw, length_app, length_replicate.
    change (length [late_word]) with 1%nat. lia. }
  assert (Hlate : _allWords d !! n = Some late_word).
  { rewrite Hw. apply list_lookup_middle. symmetry. apply length_replicate. }
  pose proof (@reachable_inv cp1251 d Hr) as Hinv.
  destruct (@findPossible_returns_uniform cp1251 d late_word Hinv) as (d' & v & Eq).
  { apply Hshort. }
  { lia. }
  { rewrite Hw. apply Forall_app.
    split; [apply Forall_replicate|apply Forall_singleton]; reflexivity. }
  assert (Hv : view_ids d' v = []).
  { destruct (@findPossible_Ok cp1251 d late_word d' v Hinv Eq)
      as (_ & _ & _ & _ & _ & Hans & _).
    apply Permutation_nil_r. rewrite Hans. unfold expected_answer.
    change (length late_word <=? 6)%nat with false. cbv iota.
    match goal with |- ?l ≡ₚ [] => assert (Hnil : l = []); [|by rewrite Hnil] end.
    apply elem_of_nil_inv. intros id [Hpass Hid]%list_elem_of_filter.
    apply elem_of_expected_bucket in Hid as (k & w & _ & _ & -> & _).
    revert Hpass. unfold passes. rewrite Hw.
    assert (Hlt : (Z.to_nat (u16 (Z.of_nat (0 + k))) < n)%nat).
    { unfold u16. pose proof (Z.mod_pos_bound (Z.of_nat (0 + k)) 65536). lia. }
    rewrite lookup_app_l by (rewrite length_replicate; exact Hlt).
    rewrite lookup_replicate_2 by exact Hlt.
    change (@agrees late_word early_word (@filled_indices cp1251 late_word))
      with false.
    intros Hf. exact Hf. }
  exists d, d', v. rewrite Hv.
  split; [exact E|]. split; [exact Hr|]. split; [exact Hn|]. split; [exact Hlate|].
  split; [apply Hshort|]. split; [exact Eq|]. split; [reflexivity|].
  split; apply not_elem_of_nil.
Qed.

(** C1, as stated, fails beyond the capacity of the identifiers: after
    loading a file of [2^16 + 1] words of seven letters, the word at the
    index [2^16] is a loaded word shorter than [LONGEST_WORD], and the query
    for it returns an empty view.  Its index was narrowed to [uint16_t]
    when it was registered, which gives 0, and the verification resolves 0
    to the first word of the table, which differs from the pattern. *)
Lemma findPossible_beyond_capacity_counterexample :
  exists d d' v,
    @loadDictionary cp1251 (Some (overfull_file (Z.to_nat 65536)))
      (@empty_dictionary cp1251 ∅ []) = Ok d
    /\ @reachable cp1251 d
    /\ Z.of_nat (length (_allWords d)) = 65537
    /\ _allWords d !! Z.to_nat 65536 = Some late_word
    /\ (length late_word < @LONGEST_WORD cp1251)%nat
    /\ @findPossible cp1251 d late_word = Ok (d', v)
    /\ view_ids d' v = []
    /\ (u16 (Z.of_nat (Z.to_nat 65536)) ∉ view_ids d' v)
    /\ (Z.of_nat (Z.to_nat 65536) ∉ view_ids d' v).
Proof.
  apply (overfull_query (Z.to_nat 65536)). apply Z2Nat.id. discriminate.
Qed.

(** ** More on the slots *)

Module SlotFacts.
Import Crossword.
Local Open Scope nat_scope.

Section Runs.
Variable open : nat -> bool.
Variable len : nat.

(** Two maximal runs that share a cell are the same run. *)
Lemma maximal_run_unique s e s' e' c :
  maximal_run open len s e -> maximal_run open len s' e' ->
  s <= c < e -> s' <= c < e' -> s = s' /\ e = e'.
Proof.
  intros (_ & He & Hopen & Hs & Hend) (_ & He' & Hopen' & Hs' & Hend') Hc Hc'.
  assert (E1 : ~ s < s').
  { intros Hlt. destruct Hs' as [->|Hb]; [lia|].
    rewrite Hopen in Hb by lia. discriminate. }
  assert (E2 : ~ s' < s).
  { intros Hlt. destruct Hs as [->|Hb]; [lia|].
    rewrite Hopen' in Hb by lia. discriminate. }
  assert (E3 : ~ e < e').
  { intros Hlt. destruct Hend as [->|Hb]; [lia|].
    rewrite Hopen' in Hb by lia. discriminate. }
  assert (E4 : ~ e' < e).
  { intros Hlt. destruct Hend' as [->|Hb]; [lia|].
    rewrite Hopen in Hb by lia. discriminate. }
  lia.
Qed.

Lemma run_start c :
  open c = true ->
  exists s, s <= c /\ (forall k, s <= k <= c -> open k = true)
            /\ (s = 0 \/ open (s - 1) = false).
Proof.
  induction c as [|c IH]; intros Hc.
  - exists 0. split_and!; [lia| |by left].
    intros k Hk. by replace k with 0 by lia.
  - destruct (open c) eqn:Ec.
    + destruct (IH eq_refl) as (s & Hs & Hopen & Hb). exists s.
      split_and!; [lia| |done].
      intros k Hk. destruct (decide (k = S c)) as [->|]; [done|]. apply Hopen. lia.
    + exists (S c). split_and!; [lia| |].
      * intros k Hk. by replace k with (S c) by lia.
      * right. by replace (S c - 1) with c by lia.
Qed.

(** Every open cell of the line lies in a maximal run. *)
Lemma run_around c :
  c < len -> open c = true ->
  exists s e, maximal_run open len s e /\ s <= c < e.
Proof.
  intros Hlen Hc.
  destruct (run_start c Hc) as (s & Hs & Hopen & Hb).
  destruct (CrosswordFacts.skip_spec open len len c) as (H1 & H2 & H3 & H4); [lia|].
  set (e := skip open len len c) in *.
  assert (He : c < e).
  { destruct (decide (e = c)) as [E|]; [|lia].
    rewrite E in H4. rewrite H4 in Hc by done. discriminate. }
  exists s, e. split; [|lia]. split_and!; try lia.
  - intros k Hk. destruct (decide (k <= c)); [apply Hopen|apply H3]; lia.
  - done.
  - destruct (decide (e = len)); [by left|right]. apply H4. lia.
Qed.

(** An open cell lies in a maximal run of at least two cells exactly when
    the cell before it or the cell after it is open. *)
Lemma long_run_around c :
  c < len -> open c = true ->
  (exists s e, maximal_run open len s e /\ 2 <= e - s /\ s <= c < e)
  <-> (0 < c /\ open (c - 1) = true) \/ (c + 1 < len /\ open (c + 1) = true).
Proof.
  intros Hlen Hc. split.
  - intros (s & e & (_ & He & Hopen & _) & Hlong & Hin).
    destruct (decide (s < c)).
    + left. split; [lia|]. apply Hopen. lia.
    + right. split; [lia|]. apply Hopen. lia.
  - intros Hn. destruct (run_around c Hlen Hc) as (s & e & Hrun & Hin).
    exists s, e. split_and!; try done; try lia.
    destruct Hrun as (_ & He & Hopen & Hs & Hend).
    destruct Hn as [[Hpos Hl]|[Hlt Hr]].
    + destruct (decide (s = c)) as [->|]; [|lia].
      destruct Hs as [->|Hb]; [lia|]. rewrite Hl in Hb. discriminate.
    + destruct (decide (e = c + 1)) as [->|]; [|lia].
      destruct Hend as [->|Hb]; [lia|]. rewrite Hr in Hb. discriminate.
Qed.

End Runs.

Section Letters.
Context `{BoardHeader}.
Variable cw : crossword.

Lemma elem_of_row_letters i s e r c id :
  ((r, c), id) ∈ letters (row_position cw i s e)
  <-> r = i /\ s <= c < e /\ id = i * M cw + c.
Proof.
  unfold row_position. simpl. rewrite list_elem_of_fmap. split.
  - intros (k & [= -> -> ->] & Hk%elem_of_seq). split_and!; try done; lia.
  - intros (-> & Hc & ->). exists c. split; [done|]. apply elem_of_seq. lia.
Qed.

Lemma elem_of_col_letters j s e r c id :
  ((r, c), id) ∈ letters (col_position cw j s e)
  <-> c = j /\ s <= r < e /\ id = r * M cw + j.
Proof.
  unfold col_position. simpl. rewrite list_elem_of_fmap. split.
  - intros (k & [= -> -> ->] & Hk%elem_of_seq). split_and!; try done; lia.
  - intros (-> & Hc & ->). exists r. split; [done|]. apply elem_of_seq. lia.
Qed.

Lemma elem_of_areas slot :
  (forall l, sort l ≡ₚ l) ->
  slot ∈ areas (loadWords cw) <-> slot ∈ row_slots cw \/ slot ∈ col_slots cw.
Proof.
  intros Hsort. by rewrite CrosswordFacts.loadWords_areas, Hsort, elem_of_app.
Qed.

(** X21.  Whatever order the final sort gives the slots: every letter of
    every slot is a cell of the board that is not blocked, paired with the
    row-major number of that cell; a slot has at least two letters, and
    its orientation mark is 1 or 0. *)
Theorem loadWords_letters (slot : position) (r c id : nat) :
  (forall l, sort l ≡ₚ l) ->
  slot ∈ areas (loadWords cw) -> ((r, c), id) ∈ letters slot ->
  r < N cw /\ c < M cw /\ isBox (board cw) r c = false /\ id = r * M cw + c
  /\ 2 <= length (letters slot) /\ (hor slot = 1%Z \/ hor slot = 0%Z).
Proof.
  intros Hsort Hslot Hin. apply (elem_of_areas _ Hsort) in Hslot as [Hslot|Hslot].
  - apply CrosswordFacts.elem_of_row_slots in Hslot
      as (i & s & e & Hi & (Hse & He & Hopen & _) & Hlong & ->).
    apply elem_of_row_letters in Hin as (-> & Hc & ->).
    split_and!; try done; try lia.
    + specialize (Hopen c Hc). unfold row_open in Hopen.
      by apply negb_true_iff in Hopen.
    + simpl. by rewrite length_map, length_seq.
    + by left.
  - apply CrosswordFacts.elem_of_col_slots in Hslot
      as (j & s & e & Hj & (Hse & He & Hopen & _) & Hlong & ->).
    apply elem_of_col_letters in Hin as (-> & Hr & ->).
    split_and!; try done; try lia.
    + specialize (Hopen r Hr). unfold col_open in Hopen.
      by apply negb_true_iff in Hopen.
    + simpl. by rewrite length_map, length_seq.
    + by right.
Qed.

(** X22.  Two different slots of the same orientation never overlap: a
    cell of one is no cell of the other. *)
Theorem loadWords_disjoint (slot1 slot2 : position) (cell : nat * nat)
  (id1 id2 : nat) :
  (forall l, sort l ≡ₚ l) ->
  slot1 ∈ areas (loadWords cw) -> slot2 ∈ areas (loadWords cw) ->
  hor slot1 = hor slot2 -> slot1 <> slot2 ->
  (cell, id1) ∈ letters slot1 -> (cell, id2) ∉ letters slot2.
Proof.
  intros Hsort H1 H2 Hhor Hne Hin1 Hin2. apply Hne. destruct cell as [r c].
  apply (elem_of_areas _ Hsort) in H1 as [H1|H1];
    apply (elem_of_areas _ Hsort) in H2 as [H2|H2].
  - apply CrosswordFacts.elem_of_row_slots in H1 as (i & s & e & _ & Hrun & _ & ->).
    apply CrosswordFacts.elem_of_row_slots in H2 as (i' & s' & e' & _ & Hrun' & _ & ->).
    apply elem_of_row_letters in Hin1 as (-> & Hc & _).
    apply elem_of_row_letters in Hin2 as (-> & Hc' & _).
    by destruct (maximal_run_unique _ _ _ _ _ _ c Hrun Hrun' Hc Hc') as [-> ->].
  - apply CrosswordFacts.elem_of_row_slots in H1 as (i & s & e & _ & _ & _ & ->).
    apply CrosswordFacts.elem_of_col_slots in H2 as (j & s' & e' & _ & _ & _ & ->).
    discriminate Hhor.
  - apply CrosswordFacts.elem_of_col_slots in H1 as (j & s & e & _ & _ & _ & ->).
    apply CrosswordFacts.elem_of_row_slots in H2 as (i & s' & e' & _ & _ & _ & ->).
    discriminate Hhor.
  - apply CrosswordFacts.elem_of_col_slots in H1 as (j & s & e & _ & Hrun & _ & ->).
    apply CrosswordFacts.elem_of_col_slots in H2 as (j' & s' & e' & _ & Hrun' & _ & ->).
    apply elem_of_col_letters in Hin1 as (-> & Hr & _).
    apply elem_of_col_letters in Hin2 as (-> & Hr' & _).
    by destruct (maximal_run_unique _ _ _ _ _ _ r Hrun Hrun' Hr Hr') as [-> ->].
Qed.

(** X23.  An open cell of the board belongs to a horizontal slot exactly
    when the cell to its left or the cell to its right is open too, and to
    a vertical slot exactly when the cell above or the cell below is. *)
Theorem loadWords_covers (r c : nat) :
  (forall l, sort l ≡ₚ l) ->
  r < N cw -> c < M cw -> isBox (board cw) r c = false ->
  ((exists slot, slot ∈ areas (loadWords cw) /\ hor slot = 1%Z
                 /\ ((r, c), r * M cw + c) ∈ letters slot)
   <-> (0 < c /\ isBox (board cw) r (c - 1) = false)
       \/ (c + 1 < M cw /\ isBox (board cw) r (c + 1) = false))
  /\ ((exists slot, slot ∈ areas (loadWords cw) /\ hor slot = 0%Z
                    /\ ((r, c), r * M cw + c) ∈ letters slot)
      <-> (0 < r /\ isBox (board cw) (r - 1) c = false)
          \/ (r + 1 < N cw /\ isBox (board cw) (r + 1) c = false)).
Proof.
  intros Hsort Hr Hc Hopen.
  assert (Hrow : row_open cw r c = true) by (unfold row_open; by rewrite Hopen).
  assert (Hcol : col_open cw c r = true) by (unfold col_open; by rewrite Hopen).
  pose proof (long_run_around (row_open cw r) (M cw) c Hc Hrow) as Lr.
  pose proof (long_run_around (col_open cw c) (N cw) r Hr Hcol) as Lc.
  unfold row_open in Lr at 2 3. unfold col_open in Lc at 2 3.
  rewrite !negb_true_iff in Lr, Lc.
  split.
  - rewrite <- Lr. split.
    + intros (slot & Hslot & Hhor & Hin).
      apply (elem_of_areas _ Hsort) in Hslot as [Hslot|Hslot].
      * apply CrosswordFacts.elem_of_row_slots in Hslot
          as (i & s & e & _ & Hrun & Hlong & ->).
        apply elem_of_row_letters in Hin as (<- & Hin & _). eauto.
      * apply CrosswordFacts.elem_of_col_slots in Hslot
          as (j & s & e & _ & _ & _ & ->). discriminate Hhor.
    + intros (s & e & Hrun & Hlong & Hin). exists (row_position cw r s e).
      split_and!; [|done|by apply elem_of_row_letters].
      apply (elem_of_areas _ Hsort). left.
      apply CrosswordFacts.elem_of_row_slots. eauto 10.
  - rewrite <- Lc. split.
    + intros (slot & Hslot & Hhor & Hin).
      apply (elem_of_areas _ Hsort) in Hslot as [Hslot|Hslot].
      * apply CrosswordFacts.elem_of_row_slots in Hslot
          as (i & s & e & _ & _ & _ & ->). discriminate Hhor.
      * apply CrosswordFacts.elem_of_col_slots in Hslot
          as (j & s & e & _ & Hrun & Hlong & ->).
        apply elem_of_col_letters in Hin as (<- & Hin & _). eauto.
    + intros (s & e & Hrun & Hlong & Hin). exists (col_position cw c s e).
      split_and!; [|done|by apply elem_of_col_letters].
      apply (elem_of_areas _ Hsort). right.
      apply CrosswordFacts.elem_of_col_slots. eauto 10.
Qed.

End Letters.

Lemma loadWords_letters_witness :
  0 < N boxed_board /\ 1 < M boxed_board
  /\ @isBox hash_boxes (board boxed_board) 0 1 = false
  /\ 1 = 0 * M boxed_board + 1
  /\ 2 <= length (letters {| hor := 1; letters := [((0, 0), 0); ((0, 1), 1)] |})
  /\ (hor {| hor := 1; letters := [((0, 0), 0); ((0, 1), 1)] |} = 1%Z
      \/ hor {| hor := 1; letters := [((0, 0), 0); ((0, 1), 1)] |} = 0%Z).
Proof.
  apply (@loadWords_letters hash_boxes boxed_board
           {| hor := 1; letters := [((0, 0), 0); ((0, 1), 1)] |} 0 1 1).
  - intros l. reflexivity.
  - vm_compute. apply list_elem_of_here.
  - simpl. apply list_elem_of_further, list_elem_of_here.
Defined.

Lemma loadWords_disjoint_witness :
  {| hor := 1; letters := [((0, 0), 0); ((0, 1), 1)] |}
    ∈ areas (@loadWords hash_boxes boxed_board)
  /\ ((0, 1), 1) ∉ letters {| hor := 1;
                              letters := [((1, 0), 4); ((1, 1), 5); ((1, 2), 6); ((1, 3), 7)] |}.
Proof.
  split; [vm_compute; apply list_elem_of_here|].
  apply (@loadWords_disjoint hash_boxes boxed_board
           {| hor := 1; letters := [((0, 0), 0); ((0, 1), 1)] |}
           {| hor := 1; letters := [((1, 0), 4); ((1, 1), 5); ((1, 2), 6); ((1, 3), 7)] |}
           (0, 1) 1 1).
  - intros l. reflexivity.
  - vm_compute. apply list_elem_of_here.
  - vm_compute. apply list_elem_of_further, list_elem_of_here.
  - reflexivity.
  - discriminate.
  - simpl. apply list_elem_of_further, list_elem_of_here.
Defined.

Lemma loadWords_covers_witness :
  ((exists slot, slot ∈ areas (@loadWords hash_boxes boxed_board) /\ hor slot = 1%Z
                 /\ ((0, 3), 0 * M boxed_board + 3) ∈ letters slot)
   <-> (0 < 3 /\ @isBox hash_boxes (board boxed_board) 0 (3 - 1) = false)
       \/ (3 + 1 < M boxed_board
           /\ @isBox hash_boxes (board boxed_board) 0 (3 + 1) = false))
  /\ ((exists slot, slot ∈ areas (@loadWords hash_boxes boxed_board) /\ hor slot = 0%Z
                    /\ ((0, 3), 0 * M boxed_board + 3) ∈ letters slot)
      <-> (0 < 0 /\ @isBox hash_boxes (board boxed_board) (0 - 1) 3 = false)
          \/ (0 + 1 < N boxed_board
              /\ @isBox hash_boxes (board boxed_board) (0 + 1) 3 = false)).
Proof.
  apply (@loadWords_covers hash_boxes boxed_board 0 3).
  - intros l. reflexivity.
  - simpl. lia.
  - simpl. lia.
  - reflexivity.
Defined.

End SlotFacts.
